(** * Web-CIX-Viewer: the CIX parser and the panel-recovery engine

    A shallow embedding of [src/parser/panelRecovery.ts] (geometry helpers,
    [attachDrillHolesToPanels], [recoverPanelsFromRouting]) and of the
    [CixParser] class ([parse], [parseContent], [parseMaindata],
    [parseMacros], [parseRoutingPaths], [parseDrillingFromMacros], [flipY]),
    followed by the properties stated about them.

    Conventions of the embedding.
    - A JavaScript [number] is a value of [number]: [NaN], the two
      infinities, or a finite value carried by an exact rational.  The
      special values follow IEEE 754; finite arithmetic is exact, so
      rounding and overflow of doubles are outside this model, and [-0] is
      identified with [0].  Where rounding or overflow decides a property,
      the function is embedded a second time over IEEE 754 binary64
      (module [Binary64]).
    - A JavaScript string is a [string] of 8-bit code units.
    - Objects used as dictionaries ([Record<string, string>]) are
      [gmap string string]; an assignment under the key [__proto__] stores
      nothing ([obj_set]).
    - An array of the runtime takes a bounded number of elements
      ([Array_capacity], fewer than [2^32] by the language); the one array
      that can outgrow the text it is built from is the drilling list.
    - The runtime functions [Number.parseFloat], [Number.parseInt],
      [Number], [eval], [Math.cos], [Math.sin] and the clipper-lib entry
      points are fields of two interfaces, [JsRuntime] and [ClipperLib];
      every definition and theorem is parametric in them.  The text handed
      to [eval] is taken to produce a value or to throw, and to do nothing
      else.
    - A [try]/[catch] is explicit: a computation that may throw returns an
      [outcome].
    - The cursor [i] of [parseRoutingPaths] only moves forward; the loop is
      a recursion on the lines that remain, with a count of the lines the
      cursor has already passed. *)

From Stdlib Require Import QArith Qcanon Qround Lqa ZArith Ascii String.
From Stdlib Require Floats.SpecFloat.
From stdpp Require Import base numbers option list strings gmap.

Local Open Scope Qc_scope.

(** ** JavaScript numbers *)

Inductive number : Type :=
  | NaN
  | PosInf
  | NegInf
  | Fin (q : Qc).

Global Instance number_eq_dec : EqDecision number.
Proof. solve_decision. Defined.

Declare Scope js_scope.
Delimit Scope js_scope with js.
Bind Scope js_scope with number.

Definition num_of_Z (z : Z) : number := Fin (Qc_of_Z z).
Definition num_of_nat (n : nat) : number := num_of_Z (Z.of_nat n).
Definition num_of_Q (q : Q) : number := Fin (Q2Qc q).

Definition Qc_is_zero (q : Qc) : bool := bool_decide (q = 0).
Definition Qc_ltb (x y : Qc) : bool := bool_decide (x < y).
Definition Qc_leb (x y : Qc) : bool := bool_decide (x ≤ y).

Definition num_opp (a : number) : number :=
  match a with
  | NaN => NaN
  | PosInf => NegInf
  | NegInf => PosInf
  | Fin x => Fin (- x)
  end.

Definition num_add (a b : number) : number :=
  match a, b with
  | NaN, _ | _, NaN => NaN
  | PosInf, NegInf | NegInf, PosInf => NaN
  | PosInf, _ | _, PosInf => PosInf
  | NegInf, _ | _, NegInf => NegInf
  | Fin x, Fin y => Fin (x + y)
  end.

Definition num_sub (a b : number) : number := num_add a (num_opp b).

(** The infinity with the sign of [x * inf], [NaN] when [x] is zero. *)
Definition scale_inf (x : Qc) (inf : number) : number :=
  if Qc_is_zero x then NaN
  else if Qc_ltb 0 x then inf else num_opp inf.

Definition num_mul (a b : number) : number :=
  match a, b with
  | NaN, _ | _, NaN => NaN
  | Fin x, Fin y => Fin (x * y)
  | Fin x, inf => scale_inf x inf
  | inf, Fin y => scale_inf y inf
  | PosInf, PosInf | NegInf, NegInf => PosInf
  | PosInf, NegInf | NegInf, PosInf => NegInf
  end.

Definition num_div (a b : number) : number :=
  match a, b with
  | NaN, _ | _, NaN => NaN
  | Fin x, Fin y =>
      if Qc_is_zero y then scale_inf x PosInf else Fin (x / y)
  | Fin _, _ => Fin 0
  | inf, Fin y => if Qc_ltb y 0 then num_opp inf else inf
  | _, _ => NaN
  end.

(** Relational operators: every comparison with [NaN] is false. *)
Definition num_ltb (a b : number) : bool :=
  match a, b with
  | NaN, _ | _, NaN => false
  | _, NegInf => false
  | NegInf, _ => true
  | PosInf, _ => false
  | Fin _, PosInf => true
  | Fin x, Fin y => Qc_ltb x y
  end.

Definition num_leb (a b : number) : bool :=
  match a, b with
  | NaN, _ | _, NaN => false
  | NegInf, _ => true
  | _, PosInf => true
  | PosInf, _ => false
  | Fin _, NegInf => false
  | Fin x, Fin y => Qc_leb x y
  end.

Definition num_gtb (a b : number) : bool := num_ltb b a.
Definition num_geb (a b : number) : bool := num_leb b a.

Notation "a + b" := (num_add a b) : js_scope.
Notation "a - b" := (num_sub a b) : js_scope.
Notation "a * b" := (num_mul a b) : js_scope.
Notation "a / b" := (num_div a b) : js_scope.
Notation "a <? b" := (num_ltb a b) : js_scope.
Notation "a <=? b" := (num_leb a b) : js_scope.
Notation "a >? b" := (num_gtb a b) : js_scope.
Notation "a >=? b" := (num_geb a b) : js_scope.
Notation "0" := (num_of_Z 0) : js_scope.
Notation "1" := (num_of_Z 1) : js_scope.
Notation "2" := (num_of_Z 2) : js_scope.

Definition Number_isNaN (a : number) : bool :=
  match a with NaN => true | _ => false end.

Definition Number_isFinite (a : number) : bool :=
  match a with Fin _ => true | _ => false end.

(** [!x] on a number: [0] and [NaN] are the falsy numbers. *)
Definition falsy (a : number) : bool :=
  match a with
  | NaN => true
  | Fin x => Qc_is_zero x
  | _ => false
  end.

(** [a || b] on numbers. *)
Definition num_or (a b : number) : number := if falsy a then b else a.

Definition Math_abs (a : number) : number :=
  match a with
  | NaN => NaN
  | PosInf | NegInf => PosInf
  | Fin x => Fin (if Qc_ltb x 0 then - x else x)
  end.

Definition Math_max (a b : number) : number :=
  match a, b with
  | NaN, _ | _, NaN => NaN
  | _, _ => if (a <? b)%js then b else a
  end.

Definition Math_min (a b : number) : number :=
  match a, b with
  | NaN, _ | _, NaN => NaN
  | _, _ => if (b <? a)%js then b else a
  end.

(** [Math.round]: the nearest integer, halves towards [+Infinity]. *)
Definition Math_round (a : number) : number :=
  match a with
  | Fin x => num_of_Z (Qfloor (x + Q2Qc (1 # 2)))
  | _ => a
  end.

(** [Math.PI] is the double [0x400921FB54442D18]. *)
Definition Math_PI : number := num_of_Q (884279719003555 # 281474976710656).

(** ** JavaScript strings *)

Local Open Scope string_scope.
Local Open Scope list_scope.

(** White space and line terminators removed by [String.prototype.trim]
    (the code units below 256). *)
Definition is_white_space (c : ascii) : bool :=
  let n := nat_of_ascii c in
  bool_decide (n = 9 ∨ n = 10 ∨ n = 11 ∨ n = 12 ∨ n = 13 ∨ n = 32 ∨ n = 160)%nat.

Fixpoint trimStart (s : string) : string :=
  match s with
  | String c s' => if is_white_space c then trimStart s' else s
  | EmptyString => EmptyString
  end.

(** [trimEnd]: a character is dropped when it is white space and everything
    after it has been dropped. *)
Fixpoint trimEnd (s : string) : string :=
  match s with
  | EmptyString => EmptyString
  | String c s' =>
      match trimEnd s' with
      | EmptyString => if is_white_space c then EmptyString else String c EmptyString
      | t => String c t
      end
  end.

Definition trim (s : string) : string := trimEnd (trimStart s).

Definition startsWith (s p : string) : bool := String.prefix p s.

Fixpoint includes (s sub : string) : bool :=
  String.prefix sub s ||
  match s with
  | EmptyString => false
  | String _ s' => includes s' sub
  end.

(** [s.split(sep)] for a non-empty separator.  [skip] counts the characters
    of a separator occurrence that are still to be consumed, [cur] is the
    piece under construction. *)
Fixpoint split_from (sep : string) (skip : nat) (cur : string) (s : string)
  : list string :=
  match s with
  | EmptyString => [cur]
  | String c s' =>
      match skip with
      | S k => split_from sep k cur s'
      | O =>
          if String.prefix sep s
          then cur :: split_from sep (String.length sep - 1) EmptyString s'
          else split_from sep 0 (cur ++ String c EmptyString)%string s'
      end
  end.

Definition split (s sep : string) : list string := split_from sep 0 EmptyString s.

(** [s.split(sep, limit)] *)
Definition split_limit (s sep : string) (limit : nat) : list string :=
  take limit (split s sep).

Definition dot : ascii := "."%char.
Definition quote : ascii := "034"%char.

(** [s.replace(/c+$/, empty)]: the trailing run of [c] is removed *)
Fixpoint strip_trailing (c : ascii) (s : string) : string :=
  match s with
  | EmptyString => EmptyString
  | String d s' =>
      match strip_trailing c s' with
      | EmptyString => if Ascii.eqb d c then EmptyString else String d EmptyString
      | t => String d t
      end
  end.

(** [s.replace(/^c+/, empty)]: the leading run of [c] is removed *)
Fixpoint strip_leading (c : ascii) (s : string) : string :=
  match s with
  | String d s' => if Ascii.eqb d c then strip_leading c s' else s
  | EmptyString => EmptyString
  end.

(** [s.replace(/c/g, empty)]: every [c] is removed *)
Fixpoint remove_all (c : ascii) (s : string) : string :=
  match s with
  | EmptyString => EmptyString
  | String d s' => if Ascii.eqb d c then remove_all c s' else String d (remove_all c s')
  end.

(** The replacement of the leading and of the trailing run of double quotes
    by nothing, as in [parseParamLine]. *)
Definition unquote (s : string) : string :=
  strip_trailing quote (strip_leading quote s).

Fixpoint has_char (c : ascii) (s : string) : bool :=
  match s with
  | EmptyString => false
  | String d s' => Ascii.eqb d c || has_char c s'
  end.

(** [filename.replace(/\.[^.]+$/, empty)]: the text from the last dot on is
    removed when at least one character follows that dot. *)
Fixpoint remove_extension (s : string) : string :=
  match s with
  | EmptyString => EmptyString
  | String c s' =>
      if Ascii.eqb c dot && negb (has_char dot s') && negb (String.eqb s' EmptyString)
      then EmptyString
      else String c (remove_extension s')
  end.

(** ** Exceptions *)

(** What a [catch (err)] clause can receive, as far as the handlers of this
    code base look at it: an [Error] with its message, [undefined], [null],
    or any other value together with its [String(...)] rendering. *)
Inductive js_thrown : Type :=
  | ThrownError (message : string)
  | ThrownUndefined
  | ThrownNull
  | ThrownOther (rendering : string).

Inductive outcome (A : Type) : Type :=
  | Normal (a : A)
  | Thrown (e : js_thrown).
Arguments Normal {A} a.
Arguments Thrown {A} e.

Global Instance outcome_ret : MRet outcome := λ A a, Normal a.
Global Instance outcome_bind : MBind outcome := λ A B k m,
  match m with
  | Normal a => k a
  | Thrown e => Thrown e
  end.

(** ** Data model ([types.ts]) *)

Record Vec2 : Type := mkVec2 { px : number; py : number }.

(** ["start" | "line" | "arc"] *)
Inductive RoutingPointType : Type := pt_start | pt_line | pt_arc.

Record RoutingPoint : Type := mkRoutingPoint {
  rp_x : number;
  rp_y : number;
  rp_z : option number;
  rp_type : RoutingPointType;
  rp_center : option Vec2
}.

Record RoutingPath : Type := mkRoutingPath {
  path_id : option number;
  points : list RoutingPoint;
  params : gmap string string;
  max_depth : number;
  diameter : option number
}.

Record DrillHole : Type := mkDrillHole {
  hole_x : number;
  hole_y : number;
  hole_diameter : number;
  hole_depth : number;
  hole_id : option string
}.

(** The [metadata] object that [createPanelFromLabel] attaches to a label. *)
Record LabelMetadata : Type := mkLabelMetadata {
  x_position : number;
  y_position : number;
  y_position_raw : number;
  rotation : number;
  rotation_raw : number;
  data : string;
  label_name : string
}.

Record PanelSpecification : Type := mkPanelSpecification {
  panel_id : string;
  panel_width : number;
  panel_height : number;
  panel_thickness : number;
  panel_geometry : list Vec2;
  panel_holes : list DrillHole;
  panel_metadata : LabelMetadata
}.

Record RecoveredPanel : Type := mkRecoveredPanel {
  polygon : list Vec2;
  coords : option (list Vec2);
  holes : option (list (list Vec2));
  drillHoles : option (list DrillHole);
  area : number;
  width : number;
  height : number;
  bounds : number * number * number * number
}.

Record RemovedPolygon : Type := mkRemovedPolygon {
  outer : list Vec2;
  removed_holes : list (list Vec2)
}.

Record CixMetadata : Type := mkCixMetadata {
  sheet_width : option number;
  sheet_height : option number;
  sheet_thickness : option number;
  routing_paths : option (list RoutingPath);
  drilling : option (list DrillHole);
  recovered_panels : option (list RecoveredPanel);
  removed_polygons : option (list RemovedPolygon);
  kerf_polygons : option (list (list Vec2))
}.

Record CixData : Type := mkCixData {
  filename : string;
  sheetId : string;
  panels : list PanelSpecification;
  raw_content : string;
  parse_errors : list string;
  metadata : CixMetadata
}.

Global Instance js_thrown_eq_dec : EqDecision js_thrown.
Proof. solve_decision. Defined.
Global Instance outcome_eq_dec `{EqDecision A} : EqDecision (outcome A).
Proof. solve_decision. Defined.
Global Instance Vec2_eq_dec : EqDecision Vec2.
Proof. solve_decision. Defined.
Global Instance DrillHole_eq_dec : EqDecision DrillHole.
Proof. solve_decision. Defined.
Global Instance RecoveredPanel_eq_dec : EqDecision RecoveredPanel.
Proof. solve_decision. Defined.
Global Instance RecoveredPanel_inhabited : Inhabited RecoveredPanel :=
  populate (mkRecoveredPanel [] None None None NaN NaN NaN (NaN, NaN, NaN, NaN)).

Global Instance Vec2_inhabited : Inhabited Vec2 := populate (mkVec2 NaN NaN).

(** ** The runtime and clipper-lib *)

Class JsRuntime : Type := {
  (** [Number.parseFloat(s)] *)
  Number_parseFloat : string → number;
  (** [Number.parseInt(s, 10)]: an integer, or [NaN] ([None]) *)
  Number_parseInt10 : string → option Z;
  (** [Number(s)] on a string *)
  Number_of_string : string → number;
  (** [Number(eval(s))]; [None] when the evaluation throws *)
  eval_Number : string → option number;
  Math_cos : number → number;
  Math_sin : number → number;
  (** The number of elements that an array can take: [2^32 - 1] by the
      language, fewer where the heap is smaller.  A [push] onto an array
      that holds this many elements throws. *)
  Array_capacity : positive
}.

Record IntPoint : Type := mkIntPoint { X : number; Y : number }.
Definition Path : Type := list IntPoint.
Definition Paths : Type := list Path.

(** A node of a clipper [PolyTree]: its contour, whether it is a hole, and
    its children. *)
#[warnings="-register-all"] Inductive PolyNode : Type :=
  | mkPolyNode (Contour : Path) (IsHole : bool) (Childs : list PolyNode).

Definition Contour (n : PolyNode) : Path := let 'mkPolyNode c _ _ := n in c.
Definition IsHole (n : PolyNode) : bool := let 'mkPolyNode _ h _ := n in h.
Definition Childs (n : PolyNode) : list PolyNode := let 'mkPolyNode _ _ c := n in c.

Class ClipperLib : Type := {
  (** [new ClipperOffset(2, 0.25)], [AddPath(path, jtMiter, etOpenButt)],
      [Execute(sol, delta)] *)
  ClipperOffset_Execute : Path → number → outcome Paths;
  (** [Clipper.Execute(ctUnion, ...)] over the subject paths, non-zero fill *)
  Clipper_union : Paths → outcome Paths;
  (** [Clipper.Execute(ctDifference, ...)] into a list of paths *)
  Clipper_difference : Paths → Paths → outcome Paths;
  (** [Clipper.Execute(ctDifference, ...)] into a [PolyTree]: the children
      of its root *)
  Clipper_difference_tree : Paths → Paths → outcome (list PolyNode);
  (** [ClipperLib.Area(path)] when the library offers it and returns a
      number *)
  ClipperLib_Area : Path → option number
}.

(** ** Geometry helpers of [panelRecovery.ts] *)

Local Open Scope js_scope.

Definition SCALE : number := num_of_Z 1000.

Definition toPath (pts : list Vec2) : Path :=
  map (λ p, {| X := Math_round (px p * SCALE); Y := Math_round (py p * SCALE) |}) pts.

Definition fromPath (path : Path) : list Vec2 :=
  map (λ p, {| px := X p / SCALE; py := Y p / SCALE |}) path.

Definition polygonArea (path : list Vec2) : number :=
  let sum :=
    foldl (λ sum i,
             let p1 := path !!! i in
             let p2 := path !!! ((i + 1) `mod` length path)%nat in
             sum + (px p1 * py p2 - px p2 * py p1))
          0 (seq 0 (length path)) in
  Math_abs sum / 2.

Definition circlePath `{JsRuntime} (center : Vec2) (radius : number) (segments : nat)
  : list Vec2 :=
  if negb (Number_isFinite (px center)) || negb (Number_isFinite (py center))
     || (radius <=? 0)
  then []
  else
    let segs := Nat.max 8 segments in
    map (λ i,
           let a := (Math_PI * 2 * num_of_nat i) / num_of_nat segs in
           {| px := px center + Math_cos a * radius;
              py := py center + Math_sin a * radius |})
        (seq 0 segs).

(** [Math.min(...xs)] and [Math.max(...xs)] *)
Definition Math_min_list (xs : list number) : number := foldl Math_min PosInf xs.
Definition Math_max_list (xs : list number) : number := foldl Math_max NegInf xs.

Definition polygon_bounds (path : list Vec2) : number * number * number * number :=
  let xs := map px path in
  let ys := map py path in
  (Math_min_list xs, Math_min_list ys, Math_max_list xs, Math_max_list ys).

Definition eps9 : number := num_of_Q (1 # 1000000000).
Definition eps12 : number := num_of_Q (1 # 1000000000000).

(** One iteration of the loop of [pointInPolygon]: [Some true] is the early
    [return true] on the boundary, otherwise the new value of [inside]. *)
Definition pointInPolygon_edge (pt a b : Vec2) (inside : bool) : bool + bool :=
  let cross := (py pt - py a) * (px b - px a) - (px pt - px a) * (py b - py a) in
  if (Math_abs cross <? eps9)
     && (Math_min (px a) (px b) - eps9 <=? px pt)
     && (px pt <=? Math_max (px a) (px b) + eps9)
     && (Math_min (py a) (py b) - eps9 <=? py pt)
     && (py pt <=? Math_max (py a) (py b) + eps9)
  then inl true
  else
    let intersect :=
      negb (eqb (py a >? py pt) (py b >? py pt))
      && (px pt <? ((px b - px a) * (py pt - py a)) / (num_or (py b - py a) eps12) + px a) in
    inr (if intersect then negb inside else inside).

Fixpoint pointInPolygon_loop (pt : Vec2) (polygon : list Vec2)
    (idx : list nat) (j : nat) (inside : bool) : bool :=
  match idx with
  | [] => inside
  | i :: idx' =>
      match pointInPolygon_edge pt (polygon !!! i) (polygon !!! j) inside with
      | inl r => r
      | inr inside' => pointInPolygon_loop pt polygon idx' i inside'
      end
  end.

Definition pointInPolygon (pt : Vec2) (polygon : list Vec2) : bool :=
  pointInPolygon_loop pt polygon (seq 0 (length polygon)) (length polygon - 1) false.

Definition pointInPolygonWithHoles (pt : Vec2) (polygon : list Vec2)
    (holes : list (list Vec2)) : bool :=
  if negb (pointInPolygon pt polygon) then false
  else forallb (λ hole, negb (bool_decide (hole ≠ []) && pointInPolygon pt hole)) holes.

(** ** Computations that mutate the document and may throw *)

(** Both [recoverPanelsFromRouting] and [parseContent] write into the
    [CixData] object they are given, and what they wrote stays when they
    throw: a computation maps the document to an outcome and the document
    as it has become. *)
Definition JsM (A : Type) : Type := CixData → outcome A * CixData.

Global Instance JsM_ret : MRet JsM := λ A a s, (Normal a, s).
Global Instance JsM_bind : MBind JsM := λ A B k m s,
  match m s with
  | (Normal a, s') => k a s'
  | (Thrown e, s') => (Thrown e, s')
  end.

Definition get_doc : JsM CixData := λ s, (Normal s, s).
Definition modify_doc (f : CixData → CixData) : JsM unit := λ s, (Normal tt, f s).
Definition lift {A} (o : outcome A) : JsM A := λ s, (o, s).
Definition try_catch {A} (body : JsM A) (handler : js_thrown → JsM A) : JsM A :=
  λ s, match body s with
       | (Normal a, s') => (Normal a, s')
       | (Thrown e, s') => handler e s'
       end.

Definition is_empty {A} (l : list A) : bool :=
  match l with [] => true | _ => false end.

Definition set_metadata (f : CixMetadata → CixMetadata) (d : CixData) : CixData :=
  {| filename := filename d; sheetId := sheetId d; panels := panels d;
     raw_content := raw_content d; parse_errors := parse_errors d;
     metadata := f (metadata d) |}.

Definition set_kerf_polygons (v : list (list Vec2)) : CixData → CixData :=
  set_metadata (λ m,
    {| sheet_width := sheet_width m; sheet_height := sheet_height m;
       sheet_thickness := sheet_thickness m; routing_paths := routing_paths m;
       drilling := drilling m; recovered_panels := recovered_panels m;
       removed_polygons := removed_polygons m; kerf_polygons := Some v |}).

Definition set_removed_polygons (v : list RemovedPolygon) : CixData → CixData :=
  set_metadata (λ m,
    {| sheet_width := sheet_width m; sheet_height := sheet_height m;
       sheet_thickness := sheet_thickness m; routing_paths := routing_paths m;
       drilling := drilling m; recovered_panels := recovered_panels m;
       removed_polygons := Some v; kerf_polygons := kerf_polygons m |}).

Definition push_parse_error (msg : string) (d : CixData) : CixData :=
  {| filename := filename d; sheetId := sheetId d; panels := panels d;
     raw_content := raw_content d; parse_errors := parse_errors d ++ [msg];
     metadata := metadata d |}.

(** ** Panel recovery ([panelRecovery.ts]) *)

Record RecoverOptions : Type := mkRecoverOptions {
  opt_defaultBitDiameterMm : option number;
  opt_depthRatio : option number;
  opt_minPanelArea : option number;
  opt_kerfScale : option number
}.

Definition defaultBitDiameterMm (o : RecoverOptions) : number :=
  default (num_of_Z 6) (opt_defaultBitDiameterMm o).
Definition depthRatio (o : RecoverOptions) : number :=
  default (num_of_Q (8 # 10)) (opt_depthRatio o).
Definition minPanelArea (o : RecoverOptions) : number :=
  default (num_of_Z 1000) (opt_minPanelArea o).
Definition kerfScale (o : RecoverOptions) : number :=
  default 1 (opt_kerfScale o).

(** [recoverPanelsFromRouting(cixData)] with no second argument *)
Definition no_options : RecoverOptions := mkRecoverOptions None None None None.

Record Piece : Type := mkPiece { piece_outer : Path; piece_holes : list Path }.

Section Recovery.
Context `{JsRuntime} `{ClipperLib}.

Definition offsetOpenPath (pts : list Vec2) (radius : number) : outcome Paths :=
  ClipperOffset_Execute (toPath pts) (radius * SCALE).

Definition unionPaths (paths : Paths) : outcome Paths :=
  if is_empty paths then Normal [] else Clipper_union paths.

Definition difference (subject clip : Paths) : outcome Paths :=
  if is_empty subject then Normal [] else Clipper_difference subject clip.

(** The hole contours among the children of a node. *)
Definition hole_contours (childs : list PolyNode) : list Path :=
  flat_map (λ child,
              if IsHole child
              then (if is_empty (Contour child) then [] else [Contour child])
              else [])
           childs.

(** [visit]: the pieces of the subtree are pushed before the node's own
    piece. *)
Fixpoint visit (node : PolyNode) : list Piece :=
  match node with
  | mkPolyNode contour is_hole childs =>
      if is_empty contour then flat_map visit childs
      else
        let holes := hole_contours childs in
        flat_map visit childs
        ++ (if negb is_hole then [{| piece_outer := contour; piece_holes := holes |}] else [])
  end.

Definition differenceWithHoles (subject clip : Paths) : outcome (list Piece) :=
  if is_empty subject then Normal []
  else
    tree ← Clipper_difference_tree subject clip;
    Normal (flat_map visit tree).

Definition tryParse (v : option string) : number :=
  let n := match v with Some s => Number_of_string s | None => NaN end in
  if Number_isFinite n then Math_abs n else 0.

Definition pathDepth (path : RoutingPath) : number :=
  let depth := Math_abs (max_depth path) in
  let depth := Math_max depth (tryParse (params path !! "PR")) in
  let depth := Math_max depth (tryParse (params path !! "DP")) in
  let depth := Math_max depth (tryParse (params path !! "ZE")) in
  let depth := Math_max depth (tryParse (params path !! "Z")) in
  depth.

Definition isThroughCut (path : RoutingPath) (sheetThickness depthRatio : number) : bool :=
  let depth := pathDepth path in
  if sheetThickness <=? 0 then depth >? 0
  else depth >=? sheetThickness * depthRatio.

(** The body of the inner loop of [attachDrillHolesToPanels] for one hole;
    the state is [(polyHoles, assigned, area)].  The area starts from
    [panel.area], which is a number for every [RecoveredPanel]. *)
Definition attach_hole (panel : RecoveredPanel)
    (st : list (list Vec2) * list DrillHole * number) (hole : DrillHole)
  : list (list Vec2) * list DrillHole * number :=
  let '(polyHoles, assigned, area) := st in
  let cx := hole_x hole in
  let cy := hole_y hole in
  let radius := hole_diameter hole / 2 in
  if negb (Number_isFinite cx) || negb (Number_isFinite cy) || (radius <=? 0) then st
  else
    let center := {| px := cx; py := cy |} in
    if negb (pointInPolygon center (polygon panel)) then st
    else
      let circle := circlePath center radius 40 in
      if bool_decide (3 ≤ length circle)%nat
      then (polyHoles ++ [circle], assigned ++ [hole], area - Math_abs (polygonArea circle))
      else st.

Definition attach_panel (drills : list DrillHole) (panel : RecoveredPanel)
  : RecoveredPanel :=
  let polyHoles0 := default [] (holes panel) in
  let '(polyHoles, assigned, area') :=
    foldl (attach_hole panel) (polyHoles0, [], area panel) drills in
  {| polygon := polygon panel;
     coords := coords panel;
     holes := if is_empty polyHoles then holes panel else Some polyHoles;
     drillHoles := if is_empty assigned then drillHoles panel else Some assigned;
     area := if Number_isFinite area' then Math_max area' 0 else area panel;
     width := width panel;
     height := height panel;
     bounds := bounds panel |}.

Definition attachDrillHolesToPanels (recovered : list RecoveredPanel)
    (drills : list DrillHole) : list RecoveredPanel :=
  if is_empty drills then recovered
  else map (attach_panel drills) recovered.

Section WithOptions.
Variable opts : RecoverOptions.

Fixpoint addKerfsForPaths (paths : list RoutingPath) (kerfs : Paths) : outcome Paths :=
  match paths with
  | [] => Normal kerfs
  | path :: paths' =>
      let pts := map (λ p, {| px := rp_x p; py := rp_y p |}) (points path) in
      if bool_decide (length pts < 2)%nat then addKerfsForPaths paths' kerfs
      else
        let radius :=
          (default (defaultBitDiameterMm opts) (diameter path) / 2) * kerfScale opts in
        if negb (Number_isFinite radius) || (radius <=? 0)
        then addKerfsForPaths paths' kerfs
        else
          buffered ← offsetOpenPath pts radius;
          addKerfsForPaths paths' (kerfs ++ buffered)
  end.

(** The first loop over [routing]: kerfs of the paths that are through-cuts. *)
Fixpoint addThroughCutKerfs (sheetT : number) (routing : list RoutingPath)
    (kerfs : Paths) : outcome Paths :=
  match routing with
  | [] => Normal kerfs
  | path :: routing' =>
      if negb (isThroughCut path sheetT (depthRatio opts))
      then addThroughCutKerfs sheetT routing' kerfs
      else
        kerfs' ← addKerfsForPaths [path] kerfs;
        addThroughCutKerfs sheetT routing' kerfs'
  end.

(** All kerfs, with the fallback to every routing path. *)
Definition collectKerfs (sheetT : number) (routing : list RoutingPath) : outcome Paths :=
  kerfs ← addThroughCutKerfs sheetT routing [];
  if is_empty kerfs && negb (is_empty routing)
  then addKerfsForPaths routing kerfs
  else Normal kerfs.

Definition sheetRect (sheetW sheetH : number) : Path :=
  toPath [ {| px := 0; py := 0 |}; {| px := sheetW; py := 0 |};
           {| px := sheetW; py := sheetH |}; {| px := 0; py := sheetH |} ].

Definition sheetPanel (sheetW sheetH : number) : RecoveredPanel :=
  let sheetPoly := fromPath (sheetRect sheetW sheetH) in
  {| polygon := sheetPoly;
     coords := Some sheetPoly;
     holes := Some [];
     drillHoles := None;
     area := sheetW * sheetH;
     width := sheetW;
     height := sheetH;
     bounds := (0, 0, sheetW, sheetH) |}.

Definition flat_pieces (paths : Paths) : list Piece :=
  map (λ p, {| piece_outer := p; piece_holes := [] |}) paths.

(** The loop over [remaining]: the panel of one piece, if it is kept. *)
Definition panel_of_piece (piece : Piece) : option RecoveredPanel :=
  let outer := fromPath (piece_outer piece) in
  let holes := map fromPath (piece_holes piece) in
  if bool_decide (length outer < 3)%nat then None
  else
    let area := polygonArea outer in
    let area :=
      match ClipperLib_Area (piece_outer piece) with
      | Some clipperArea => Math_abs clipperArea / (SCALE * SCALE)
      | None => area
      end in
    let area := foldl (λ area h, area - Math_abs (polygonArea h)) area holes in
    if area <? minPanelArea opts then None
    else
      let b := polygon_bounds outer in
      Some {| polygon := outer;
              coords := Some outer;
              holes := Some holes;
              drillHoles := None;
              area := area;
              width := b.1.2 - b.1.1.1;
              height := b.2 - b.1.1.2;
              bounds := b |}.

Definition labelPoint (panel : PanelSpecification) : option Vec2 :=
  let x := x_position (panel_metadata panel) in
  let y := y_position (panel_metadata panel) in
  if Number_isFinite x && Number_isFinite y then Some {| px := x; py := y |} else None.

Definition is_labeled (labelPoints : list Vec2) (panel : RecoveredPanel) : bool :=
  existsb (λ pt, pointInPolygonWithHoles pt (polygon panel) (default [] (holes panel)))
          labelPoints.

Definition has_ring (poly : list Vec2) : bool := bool_decide (3 ≤ length poly)%nat.

Definition kerf_removed (kerfPolygons : list (list Vec2)) : list RemovedPolygon :=
  map (λ poly, {| outer := poly; removed_holes := [] |}) (filter (λ poly, has_ring poly = true) kerfPolygons).

Definition message_of (default_text : option string) (err : js_thrown) : string :=
  match err with
  | ThrownError m => m
  | ThrownUndefined => default "undefined" default_text
  | ThrownNull => default "null" default_text
  | ThrownOther r => r
  end.

(** The [try]/[catch] around the subtraction of the kerf union from the
    sheet. *)
Definition remainingPieces (sheetPath kerfUnion : Paths) : JsM (list Piece) :=
  try_catch
    (remaining ← lift (differenceWithHoles sheetPath kerfUnion);
     if is_empty remaining then
       fallback ← lift (difference sheetPath kerfUnion);
       mret (flat_pieces fallback)
     else mret remaining)
    (λ err,
       fallback ← lift (difference sheetPath kerfUnion);
       _ ← modify_doc (push_parse_error (message_of (Some "kerf difference error") err));
       mret (flat_pieces fallback)).

(** The panels built from the pieces, with their drill holes attached. *)
Definition recoveredPanels (remaining : list Piece) (drills : list DrillHole)
  : list RecoveredPanel :=
  attachDrillHolesToPanels (omap panel_of_piece remaining) drills.

Definition labelPointsOf (cixData : CixData) : list Vec2 :=
  omap labelPoint (panels cixData).

(** [labeledPanels] and [finalPanels] *)
Definition labeledPanels (labelPoints : list Vec2) (recovered : list RecoveredPanel)
  : list RecoveredPanel :=
  if negb (is_empty labelPoints)
  then filter (λ panel, is_labeled labelPoints panel = true) recovered
  else [].

Definition finalPanels (labelPoints : list Vec2) (recovered : list RecoveredPanel)
  : list RecoveredPanel :=
  let labeled := labeledPanels labelPoints recovered in
  if negb (is_empty labeled) then labeled else recovered.

Definition removed_of_piece (piece : Piece) : option RemovedPolygon :=
  let outer := fromPath (piece_outer piece) in
  if bool_decide (length outer < 3)%nat then None
  else Some {| outer := outer;
               removed_holes :=
                 filter (λ hole, has_ring hole = true) (map fromPath (piece_holes piece)) |}.

(** The [try]/[catch] that computes [removedShapes]. *)
Definition removedShapes (sheetW sheetH : number) (kerfPolygons : list (list Vec2))
    (final : list RecoveredPanel) : JsM (list RemovedPolygon) :=
  try_catch
    (let panelPaths :=
       map (λ panel, toPath (polygon panel))
           (filter (λ panel, has_ring (polygon panel) = true) final) in
     if negb (is_empty panelPaths) then
       removedPieces ← lift (differenceWithHoles [sheetRect sheetW sheetH] panelPaths);
       mret (omap removed_of_piece removedPieces)
     else
       mret [ {| outer := fromPath (sheetRect sheetW sheetH); removed_holes := [] |} ])
    (λ _, mret (kerf_removed kerfPolygons)).

(** The kerf union in real units, as exposed in [kerf_polygons]. *)
Definition kerfPolygonsOf (kerfUnion : Paths) : list (list Vec2) :=
  if is_empty kerfUnion then []
  else filter (λ poly, has_ring poly = true) (map fromPath kerfUnion).

Definition recoverPanelsFromRouting : JsM (list RecoveredPanel) :=
  cixData ← get_doc;
  let sheetW := default 0 (sheet_width (metadata cixData)) in
  let sheetH := default 0 (sheet_height (metadata cixData)) in
  let sheetT := default 0 (sheet_thickness (metadata cixData)) in
  if (sheetW <=? 0) || (sheetH <=? 0) then mret []
  else
    let sheetPath : Paths := [sheetRect sheetW sheetH] in
    let routing := default [] (routing_paths (metadata cixData)) in
    let drills := default [] (drilling (metadata cixData)) in
    kerfs ← lift (collectKerfs sheetT routing);
    if is_empty kerfs then
      _ ← modify_doc (set_kerf_polygons []);
      let attached := attachDrillHolesToPanels [sheetPanel sheetW sheetH] drills in
      _ ← modify_doc (set_removed_polygons []);
      mret attached
    else
      kerfUnion ← lift (unionPaths kerfs);
      let kerfPolygons := kerfPolygonsOf kerfUnion in
      _ ← modify_doc (set_kerf_polygons kerfPolygons);
      remaining ← remainingPieces sheetPath kerfUnion;
      let recovered := recoveredPanels remaining drills in
      let labelPoints := labelPointsOf cixData in
      if is_empty recovered then
        let attached := attachDrillHolesToPanels [sheetPanel sheetW sheetH] drills in
        _ ← modify_doc (set_removed_polygons (kerf_removed kerfPolygons));
        mret attached
      else
        let final := finalPanels labelPoints recovered in
        removed ← removedShapes sheetW sheetH kerfPolygons final;
        _ ← modify_doc (set_removed_polygons removed);
        mret final.

End WithOptions.
End Recovery.

(** ** [CixParser.flipY] *)

Definition flipY (value sheetHeight : number) : number :=
  if falsy sheetHeight || Number_isNaN sheetHeight then value
  else
    let h := sheetHeight in
    if (h <=? 0)%js then value else (h - value)%js.

(** ** The parser ([CixParser]) *)

Definition set_sheet (w h t : number) : CixData → CixData :=
  set_metadata (λ m,
    {| sheet_width := Some w; sheet_height := Some h; sheet_thickness := Some t;
       routing_paths := routing_paths m; drilling := drilling m;
       recovered_panels := recovered_panels m;
       removed_polygons := removed_polygons m; kerf_polygons := kerf_polygons m |}).

Definition set_routing_paths (v : list RoutingPath) : CixData → CixData :=
  set_metadata (λ m,
    {| sheet_width := sheet_width m; sheet_height := sheet_height m;
       sheet_thickness := sheet_thickness m; routing_paths := Some v;
       drilling := drilling m; recovered_panels := recovered_panels m;
       removed_polygons := removed_polygons m; kerf_polygons := kerf_polygons m |}).

Definition set_drilling (v : list DrillHole) : CixData → CixData :=
  set_metadata (λ m,
    {| sheet_width := sheet_width m; sheet_height := sheet_height m;
       sheet_thickness := sheet_thickness m; routing_paths := routing_paths m;
       drilling := Some v; recovered_panels := recovered_panels m;
       removed_polygons := removed_polygons m; kerf_polygons := kerf_polygons m |}).

Definition push_panel (p : PanelSpecification) (d : CixData) : CixData :=
  {| filename := filename d; sheetId := sheetId d; panels := panels d ++ [p];
     raw_content := raw_content d; parse_errors := parse_errors d;
     metadata := metadata d |}.

(** The state of the cursor loop of [parseRoutingPaths]. *)
Record RoutState : Type := mkRoutState {
  routing : list RoutingPath;
  inRout : bool;
  current : option RoutingPath
}.

(** [obj[key] = value] for a string [value] on a plain object.  The key
    [__proto__] names the accessor of [Object.prototype], whose setter
    ignores a value that is neither an object nor [null]: nothing is
    stored. *)
Definition obj_set (key value : string) (obj : gmap string string)
  : gmap string string :=
  if String.eqb key "__proto__" then obj else <[key := value]> obj.

(** The first [n] elements of a list, [n] in binary. *)
Fixpoint take_N {A} (n : N) (l : list A) : list A :=
  match l with
  | [] => []
  | x :: l' => if (n =? 0)%N then [] else x :: take_N (N.pred n) l'
  end.

Section Parser.
Context `{JsRuntime}.

(** [asStr.includes(".") && asStr.includes("-") && asStr.split(".").length > 2] *)
Definition is_expression (asStr : string) : bool :=
  includes asStr "." && includes asStr "-" && bool_decide (2 < length (split asStr "."))%nat.

(** [this.parseFloat(value)] for a string or [undefined]. *)
Definition parseFloat (value : option string) : number :=
  match value with
  | None => 0
  | Some asStr =>
      if is_expression asStr then
        match eval_Number asStr with
        | Some n => n
        | None => 0
        end
      else
        let parsed := Number_parseFloat asStr in
        if Number_isNaN parsed then 0 else parsed
  end.

Definition parseParamLine (line : string) : gmap string string :=
  foldl (λ (params : gmap string string) part,
           if negb (includes part "=") then params
           else
             match split_limit part "=" 2 with
             | k :: v :: _ => obj_set (trim k) (unquote (trim v)) params
             | _ => params
             end)
        ∅ (drop 1 (split line ",")).

Definition sheet_keys : list string := ["LPX"; "LPY"; "LPZ"].

(** The entry that one line inside the MAINDATA block stores, if any. *)
Definition maindata_entry (line : string) : option (string * number) :=
  if includes line "=" then
    match split_limit line "=" 2 with
    | keyRaw :: valueRaw :: _ =>
        let key := trim keyRaw in
        let value := strip_trailing dot (trim valueRaw) in
        if bool_decide (key ∈ sheet_keys) then
          let parsed := Number_parseFloat value in
          if negb (Number_isNaN parsed) then Some (key, parsed) else None
        else None
    | _ => None
    end
  else None.

Fixpoint parseMaindata_loop (lines : list string) (inMain : bool)
    (maindata : gmap string number) : gmap string number :=
  match lines with
  | [] => maindata
  | raw :: lines' =>
      let line := trim raw in
      if startsWith line "BEGIN MAINDATA" then parseMaindata_loop lines' true maindata
      else if startsWith line "END MAINDATA" then maindata
      else if negb inMain then parseMaindata_loop lines' inMain maindata
      else
        match maindata_entry line with
        | Some (key, parsed) => parseMaindata_loop lines' inMain (<[key := parsed]> maindata)
        | None => parseMaindata_loop lines' inMain maindata
        end
  end.

Definition parseMaindata (lines : list string) : gmap string number :=
  parseMaindata_loop lines false ∅.

(** [params.NAME && params.VALUE !== undefined]: the pair to store. *)
Definition named_value (params : gmap string string) : option (string * string) :=
  match params !! "NAME", params !! "VALUE" with
  | Some name, Some value =>
      if String.eqb name EmptyString then None else Some (name, value)
  | _, _ => None
  end.

Fixpoint parseMacros_loop (lines : list string) (inMacro : bool)
    (cur : option (gmap string string)) (macros : list (gmap string string))
  : list (gmap string string) :=
  match lines with
  | [] => macros
  | raw :: lines' =>
      let line := trim raw in
      if startsWith line "BEGIN MACRO" then parseMacros_loop lines' true (Some ∅) macros
      else if startsWith line "END MACRO" then
        parseMacros_loop lines' false None
          (match cur with Some m => macros ++ [m] | None => macros end)
      else
        match cur with
        | Some m =>
            if negb inMacro then parseMacros_loop lines' inMacro cur macros
            else if startsWith line "NAME=" then
              let m' :=
                match split_limit line "=" 2 !! 1%nat with
                | Some v => <["_MACRO_TYPE" := trim (remove_all quote v)]> m
                | None => delete "_MACRO_TYPE" m
                end in
              parseMacros_loop lines' inMacro (Some m') macros
            else if startsWith line "PARAM" then
              match named_value (parseParamLine line) with
              | Some (name, value) =>
                  parseMacros_loop lines' inMacro (Some (obj_set name value m)) macros
              | None => parseMacros_loop lines' inMacro cur macros
              end
            else parseMacros_loop lines' inMacro cur macros
        | None => parseMacros_loop lines' inMacro cur macros
        end
  end.

Definition parseMacros (lines : list string) : list (gmap string string) :=
  parseMacros_loop lines false None [].

(** [createPanelFromLabel]; [None] is the [null] of its [catch] clause. *)
Definition createPanelFromLabel (currentSheetHeight : number)
    (labelMacro : gmap string string) (sheetDims : gmap string number)
  : option PanelSpecification :=
  let id := default "Unknown" (labelMacro !! "ID") in
  let x := parseFloat (labelMacro !! "X") in
  let yValue := default "0" (labelMacro !! "Y") in
  let yRaw := parseFloat (Some yValue) in
  let yHasExpression := is_expression yValue in
  let y := if yHasExpression then yRaw else flipY yRaw currentSheetHeight in
  let rotRaw := parseFloat (labelMacro !! "ROT") in
  let dataStr := default EmptyString (labelMacro !! "DATA") in
  Some {| panel_id := id;
          panel_width := 0;
          panel_height := 0;
          panel_thickness := default (num_of_Z 18) (sheetDims !! "LPZ");
          panel_geometry := [];
          panel_holes := [];
          panel_metadata :=
            {| x_position := x;
               y_position := y;
               y_position_raw := yRaw;
               rotation := rotRaw;
               rotation_raw := rotRaw;
               data := dataStr;
               label_name := default EmptyString (labelMacro !! "NAME") |} |}.

Definition set_param (name value : string) (p : RoutingPath) : RoutingPath :=
  {| path_id := path_id p; points := points p;
     params := obj_set name value (params p);
     max_depth := max_depth p; diameter := diameter p |}.

Definition set_diameter (dia : number) (p : RoutingPath) : RoutingPath :=
  {| path_id := path_id p; points := points p; params := params p;
     max_depth := max_depth p; diameter := Some dia |}.

(** The loop that reads the parameters of a ROUT macro.  It stops in front
    of the first line that starts with [END MACRO] and returns the number of
    lines it has read. *)
Fixpoint rout_header (lines : list string) (cur : RoutingPath) : RoutingPath * nat :=
  match lines with
  | [] => (cur, O)
  | raw :: lines' =>
      let paramLine := trim raw in
      if startsWith paramLine "END MACRO" then (cur, O)
      else
        let cur' :=
          if startsWith paramLine "PARAM" then
            match named_value (parseParamLine paramLine) with
            | Some (name, value) =>
                let cur1 := set_param name value cur in
                if String.eqb name "DIA" then
                  let dia := Number_parseFloat value in
                  if negb (Number_isNaN dia) then set_diameter dia cur1 else cur1
                else cur1
            | None => cur
            end
          else cur in
        let '(r, n) := rout_header lines' cur' in
        (r, S n)
  end.

(** The loop shared by the sub-blocks START_POINT, LINE_EP, ARC_EPTP,
    ARC_EPRA, ARC_EPCE and ENDPATH: on every line up to the next
    [END MACRO], the first key [k] of [keys] such that the line includes
    [PARAM,NAME=k] receives [this.parseFloat(paramLine.split("VALUE=")[1])].
    Returns the values and the number of lines read. *)
Fixpoint scan_block (keys : list string) (lines : list string)
    (vals : gmap string number) : gmap string number * nat :=
  match lines with
  | [] => (vals, O)
  | raw :: lines' =>
      let paramLine := trim raw in
      if startsWith paramLine "END MACRO" then (vals, O)
      else
        let vals' :=
          match List.find (λ k, includes paramLine ("PARAM,NAME=" ++ k)%string) keys with
          | Some k => <[k := parseFloat (split paramLine "VALUE=" !! 1%nat)]> vals
          | None => vals
          end in
        let '(r, n) := scan_block keys lines' vals' in
        (r, S n)
  end.

Definition new_path : RoutingPath :=
  {| path_id := None; points := []; params := ∅; max_depth := 0; diameter := None |}.

Definition push_start (sheetHeight x y : number) (p : RoutingPath) : RoutingPath :=
  {| path_id := path_id p;
     points := points p ++ [ {| rp_x := x; rp_y := flipY y sheetHeight; rp_z := None;
                                rp_type := pt_start; rp_center := None |} ];
     params := params p; max_depth := max_depth p; diameter := diameter p |}.

(** A LINE_EP or ARC_* end point: the point is pushed and a negative [ze]
    raises [max_depth]. *)
Definition push_segment (sheetHeight : number) (kind : RoutingPointType)
    (xe ye ze : number) (center : option Vec2) (p : RoutingPath) : RoutingPath :=
  {| path_id := path_id p;
     points := points p ++ [ {| rp_x := xe; rp_y := flipY ye sheetHeight; rp_z := Some ze;
                                rp_type := kind; rp_center := center |} ];
     params := params p;
     max_depth := if ze <? 0 then Math_max (max_depth p) (Math_abs ze) else max_depth p;
     diameter := diameter p |}.

Definition set_id (pathId : option number) (p : RoutingPath) : RoutingPath :=
  {| path_id := match path_id p with Some i => Some i | None => pathId end;
     points := points p; params := params p;
     max_depth := max_depth p; diameter := diameter p |}.

Definition val (vals : gmap string number) (k : string) : number := default 0 (vals !! k).

(** One iteration of the [while (i < lines.length)] loop of
    [parseRoutingPaths] at line [raw], followed by the lines [rest].  The
    result is the new state and the number of lines of [rest] over which
    the cursor [i] has moved beyond the line after [raw]. *)
Definition routing_step (sheetHeight : number) (st : RoutState)
    (raw : string) (rest : list string) : RoutState * nat :=
  let line := trim raw in
  if startsWith line "BEGIN MACRO" then
    let nameLine := match rest with n :: _ => trim n | [] => EmptyString end in
    if includes nameLine "NAME=ROUT" && negb (includes nameLine "NAME=ROUTG") then
      let '(cur, n) := rout_header rest new_path in
      ({| routing := routing st; inRout := true; current := Some cur |}, n)
    else (st, O)
  else if inRout st && includes line "NAME=START_POINT" then
    let '(vals, n) := scan_block ["X"; "Y"] rest ∅ in
    ({| routing := routing st; inRout := inRout st;
        current := push_start sheetHeight (val vals "X") (val vals "Y") <$> current st |}, n)
  else if inRout st && includes line "NAME=LINE_EP" then
    let '(vals, n) := scan_block ["XE"; "YE"; "ZE"] rest ∅ in
    ({| routing := routing st; inRout := inRout st;
        current := push_segment sheetHeight pt_line (val vals "XE") (val vals "YE")
                     (val vals "ZE") None <$> current st |}, n)
  else if inRout st && (includes line "NAME=ARC_EPTP" || includes line "NAME=ARC_EPRA") then
    let '(vals, n) := scan_block ["XE"; "YE"; "ZE"] rest ∅ in
    ({| routing := routing st; inRout := inRout st;
        current := push_segment sheetHeight pt_arc (val vals "XE") (val vals "YE")
                     (val vals "ZE") None <$> current st |}, n)
  else if inRout st && includes line "NAME=ARC_EPCE" then
    let '(vals, n) := scan_block ["XE"; "YE"; "XC"; "YC"; "ZE"] rest ∅ in
    let center := {| px := val vals "XC"; py := flipY (val vals "YC") sheetHeight |} in
    ({| routing := routing st; inRout := inRout st;
        current := push_segment sheetHeight pt_arc (val vals "XE") (val vals "YE")
                     (val vals "ZE") (Some center) <$> current st |}, n)
  else if inRout st && includes line "NAME=ENDPATH" then
    let '(vals, n) := scan_block ["ID"] rest ∅ in
    let pathId := vals !! "ID" in
    ({| routing :=
          match current st with
          | Some cur =>
              if negb (is_empty (points cur)) then routing st ++ [set_id pathId cur]
              else routing st
          | None => routing st
          end;
        inRout := false;
        current := None |}, n)
  else (st, O).

(** The cursor loop.  [skip] is the number of lines the cursor has already
    passed. *)
Fixpoint parseRoutingPaths_loop (sheetHeight : number) (skip : nat) (st : RoutState)
    (lines : list string) : list RoutingPath :=
  match lines with
  | [] => routing st
  | raw :: rest =>
      match skip with
      | S k => parseRoutingPaths_loop sheetHeight k st rest
      | O =>
          let '(st', n) := routing_step sheetHeight st raw rest in
          parseRoutingPaths_loop sheetHeight n st' rest
      end
  end.

Definition parseRoutingPaths (lines : list string) (sheetHeight : number)
  : list RoutingPath :=
  parseRoutingPaths_loop sheetHeight O
    {| routing := []; inRout := false; current := None |} lines.

(** The records that the loop of one BV macro pushes, as far as the array
    takes them.  [Math.max(1, Number.parseInt(...))] is [NaN] when the repeat
    count does not parse, and the loop then runs zero times. *)
Definition holes_of_macro (currentSheetHeight : number) (macro : gmap string string)
  : list DrillHole :=
  let x := parseFloat (macro !! "X") in
  let y := parseFloat (macro !! "Y") in
  let dia := parseFloat (Some (default "5" (macro !! "DIA"))) in
  let depth := parseFloat (Some (default "0" (macro !! "DP"))) in
  let repeat := Z.max 1 <$> Number_parseInt10 (default "1" (macro !! "NRP")) in
  let dx := parseFloat (Some (default "0" (macro !! "DX"))) in
  let dy := parseFloat (Some (default "0" (macro !! "DY"))) in
  map (λ i,
         {| hole_x := x + dx * num_of_nat i;
            hole_y := flipY (y + dy * num_of_nat i) currentSheetHeight;
            hole_diameter := dia;
            hole_depth := depth;
            hole_id := macro !! "ID" |})
      (seq 0 (match repeat with Some n => Z.to_nat n | None => O end)).

(** The loop [for (i < repeat) holes.push(record)] of one macro on the list
    [holes] built so far.  The records are pushed while the array has room;
    the first [push] that does not fit throws, which ends the loop, and the
    [catch] of the macro drops the exception. *)
Definition push_records (holes records : list DrillHole) : list DrillHole :=
  holes ++ take_N (Npos Array_capacity - N.of_nat (length holes)) records.

Definition parseDrillingFromMacros (currentSheetHeight : number)
    (macros : list (gmap string string)) : list DrillHole :=
  foldl (λ holes macro,
           if bool_decide (macro !! "_MACRO_TYPE" = Some "BV")
           then push_records holes (holes_of_macro currentSheetHeight macro)
           else holes)
        [] macros.

Definition newline : string := String "010"%char EmptyString.

(** [parseMaindata] returns an object, so the test [if (sheetDims)] always
    succeeds.  [currentSheetHeight], a field of the parser in the source, is
    passed to the passes that read it. *)
Definition parseContent (content : string) : JsM unit :=
  let lines := split content newline in
  let sheetDims := parseMaindata lines in
  let sheetHeight := default 0 (sheetDims !! "LPY") in
  let currentSheetHeight := num_or sheetHeight 0 in
  _ ← modify_doc (set_sheet (default 0 (sheetDims !! "LPX"))
                            (default 0 (sheetDims !! "LPY"))
                            (default (num_of_Z 18) (sheetDims !! "LPZ")));
  let macros := parseMacros lines in
  let labels :=
    omap (λ macro,
            if bool_decide (macro !! "_MACRO_TYPE" = Some "LABEL")
            then createPanelFromLabel currentSheetHeight macro sheetDims
            else None)
         macros in
  _ ← modify_doc (λ cix, foldl (λ cix panel, push_panel panel cix) cix labels);
  let panelCount := length labels in
  let routingPaths := parseRoutingPaths lines sheetHeight in
  _ ← modify_doc (set_routing_paths routingPaths);
  let drilling := parseDrillingFromMacros currentSheetHeight macros in
  _ ← modify_doc (set_drilling drilling);
  if bool_decide (panelCount = 0)%nat
  then modify_doc (push_parse_error "No LABEL macros found in CIX file")
  else mret tt.

Definition empty_metadata : CixMetadata :=
  {| sheet_width := None; sheet_height := None; sheet_thickness := None;
     routing_paths := None; drilling := None; recovered_panels := None;
     removed_polygons := None; kerf_polygons := None |}.

(** The document that [parse] creates before it reads the content. *)
Definition new_document (content filename : string) : CixData :=
  let sheetId := remove_extension filename in
  {| filename := filename; sheetId := sheetId; panels := [];
     raw_content := content; parse_errors := []; metadata := empty_metadata |}.

(** [parse] over an arbitrary body in place of [this.parseContent]. *)
Definition parse_with (body : string → JsM unit) (content filename : string)
  : outcome CixData :=
  let cix := new_document content filename in
  match try_catch (body content)
                  (λ err, modify_doc (push_parse_error (message_of None err))) cix with
  | (Normal _, cix') => Normal cix'
  | (Thrown e, _) => Thrown e
  end.

Definition parse (content filename : string) : outcome CixData :=
  parse_with parseContent content filename.

(** [parseCixContent(content)] uses the file name ["upload.cix"]. *)
Definition parseCixContent (content : string) : outcome CixData :=
  parse content "upload.cix".

End Parser.

(** ** A sample runtime

    An instance of [JsRuntime] on which the definitions can be evaluated.
    Its numeric parsers read plain decimal literals (an optional sign,
    digits, an optional fraction; no exponent, no radix prefix) and the
    literal [Infinity]; its [eval] understands the composite literal
    [<number>.-<number>]; its [cos] and [sin] are Taylor polynomials on rounded arguments, good to
    two decimals.  The
    theorems below do not depend on it: they hold for every runtime. *)
Module Sample.

Definition digit_of (c : ascii) : option Z :=
  let n := nat_of_ascii c in
  if (48 <=? n)%nat && (n <=? 57)%nat then Some (Z.of_nat (n - 48)) else None.

(** Reads a run of digits: its value on top of [acc], its length, the rest. *)
Fixpoint read_digits (s : string) (acc : Z) (count : nat) : Z * nat * string :=
  match s with
  | String c s' =>
      match digit_of c with
      | Some d => read_digits s' (acc * 10 + d)%Z (S count)
      | None => (acc, count, s)
      end
  | EmptyString => (acc, count, s)
  end.

Definition read_sign (s : string) : bool * string :=
  match s with
  | String "-"%char s' => (true, s')
  | String "+"%char s' => (false, s')
  | _ => (false, s)
  end.

(** The longest prefix that is a decimal literal: its value and the rest. *)
Definition read_decimal (s : string) : option (number * string) :=
  let '(neg, s1) := read_sign s in
  let sign (n : number) := if neg : bool then num_opp n else n in
  if String.prefix "Infinity" s1 then Some (sign PosInf, substring 8 (String.length s1 - 8) s1)
  else
    let '(int_part, int_count, s2) := read_digits s1 0%Z O in
    let '(mantissa, frac_count, s3) :=
      match s2 with
      | String "."%char s2' =>
          let '(m, total, s3) := read_digits s2' int_part O in (m, total, s3)
      | _ => (int_part, O, s2)
      end in
    if bool_decide (int_count + frac_count = 0)%nat then None
    else Some (sign (num_of_Q (Qmake mantissa (Pos.of_nat (10 ^ frac_count)))), s3).

Definition sample_parseFloat (s : string) : number :=
  match read_decimal (trimStart s) with
  | Some (n, _) => n
  | None => NaN
  end.

Definition sample_parseInt10 (s : string) : option Z :=
  let '(neg, s1) := read_sign (trimStart s) in
  let '(v, count, _) := read_digits s1 0%Z O in
  if bool_decide (count = 0)%nat then None else Some (if neg : bool then (- v)%Z else v).

Definition sample_Number (s : string) : number :=
  let t := trim s in
  if String.eqb t EmptyString then 0
  else
    match read_decimal t with
    | Some (n, EmptyString) => n
    | _ => NaN
    end.

(** [a.-b] is [a. - b]: the difference of two literals. *)
Definition sample_eval (s : string) : option number :=
  match split s ".-" with
  | [a; b] =>
      match read_decimal a, read_decimal b with
      | Some (x, EmptyString), Some (y, EmptyString) => Some (x - y)%js
      | _, _ => None
      end
  | _ => None
  end.

(** Taylor polynomials of degree 12 and 13 around [0], after moving the
    argument into [[-π, π]] and rounding it to two decimals; the result is
    rounded to three decimals. *)
Definition reduce (a : number) : number :=
  let x := if (Math_PI <? a)%js then (a - 2 * Math_PI)%js else a in
  (Math_round (x * num_of_Z 100) / num_of_Z 100)%js.

Fixpoint taylor (terms : nat) (k : Z) (term x2 : number) : number :=
  match terms with
  | O => 0%js
  | S n =>
      (term + taylor n (k + 2)%Z
                (num_opp (term * x2 / num_of_Z ((k + 1) * (k + 2)))) x2)%js
  end.

Definition milli (a : number) : number :=
  (Math_round (a * num_of_Z 1000) / num_of_Z 1000)%js.

Definition sample_cos (a : number) : number :=
  let x := reduce a in milli (taylor 7 0%Z 1%js (x * x)%js).

Definition sample_sin (a : number) : number :=
  let x := reduce a in milli (taylor 7 1%Z x (x * x)%js).

Global Instance runtime : JsRuntime := {|
  Number_parseFloat := sample_parseFloat;
  Number_parseInt10 := sample_parseInt10;
  Number_of_string := sample_Number;
  eval_Number := sample_eval;
  Math_cos := sample_cos;
  Math_sin := sample_sin;
  Array_capacity := 4294967295
|}.

(** A clipper that is never reached: every operation throws. *)
Definition unavailable {A} : outcome A := Thrown (ThrownError "clipper unavailable").

Definition no_clipper : ClipperLib := {|
  ClipperOffset_Execute := λ _ _, unavailable;
  Clipper_union := λ _, unavailable;
  Clipper_difference := λ _ _, unavailable;
  Clipper_difference_tree := λ _ _, unavailable;
  ClipperLib_Area := λ _, None
|}.

Definition pt (x y : Z) : Vec2 := {| px := num_of_Z x; py := num_of_Z y |}.
Definition ipt (x y : Z) : IntPoint := {| X := num_of_Z x; Y := num_of_Z y |}.
Definition irect (x0 y0 x1 y1 : Z) : Path := [ipt x0 y0; ipt x1 y0; ipt x1 y1; ipt x0 y1].

Definition sheet_doc (w h t : number) (routing : list RoutingPath)
    (drills : list DrillHole) (labels : list PanelSpecification) : CixData :=
  {| filename := "sheet.cix"; sheetId := "sheet"; panels := labels;
     raw_content := EmptyString; parse_errors := [];
     metadata :=
       {| sheet_width := Some w; sheet_height := Some h; sheet_thickness := Some t;
          routing_paths := Some routing; drilling := Some drills;
          recovered_panels := None; removed_polygons := None;
          kerf_polygons := None |} |}.

Definition drill (x y dia : Z) : DrillHole :=
  {| hole_x := num_of_Z x; hole_y := num_of_Z y; hole_diameter := num_of_Z dia;
     hole_depth := num_of_Z 10; hole_id := None |}.

(** A through-cut along the closed rectangle (100,100)-(900,400) with a
    6 mm tool on a 1000 x 500 x 18 sheet. *)
Definition ring_cut : RoutingPath :=
  {| path_id := None;
     points :=
       map (λ '(x, y, k),
              {| rp_x := num_of_Z x; rp_y := num_of_Z y; rp_z := Some (num_of_Z (-18));
                 rp_type := k; rp_center := None |})
           [(100, 100, pt_start); (900, 100, pt_line); (900, 400, pt_line);
            (100, 400, pt_line); (100, 100, pt_line)]%Z;
     params := ∅;
     max_depth := num_of_Z 18;
     diameter := Some (num_of_Z 6) |}.

(** What clipper-lib computes for [ring_cut]: the kerf is the band of width
    6 around the rectangle, between the outline (97,97)-(903,403), notched
    at the corner where the open path starts and ends with butt caps, and
    the rectangle (103,103)-(897,397); the sheet minus the kerf is the outer
    frame, whose hole is the outline of the band, and, inside that hole,
    the cut-out rectangle. *)
Definition band_outline : Path :=
  [ ipt 100000 97000; ipt 903000 97000; ipt 903000 403000; ipt 97000 403000;
    ipt 97000 100000; ipt 100000 100000 ].

Definition kerf_band : Paths :=
  [band_outline; irect 103000 103000 897000 397000].

Definition frame_and_island : list PolyNode :=
  [ mkPolyNode (irect 0 0 1000000 500000) false
      [ mkPolyNode band_outline true
          [ mkPolyNode (irect 103000 103000 897000 397000) false [] ] ] ].

Definition ring_cut_clipper : ClipperLib := {|
  ClipperOffset_Execute := λ _ _, Normal kerf_band;
  Clipper_union := λ paths, Normal paths;
  Clipper_difference := λ _ _, Normal [];
  Clipper_difference_tree := λ _ _, Normal frame_and_island;
  ClipperLib_Area := λ _, None
|}.

Definition ring_cut_doc : CixData :=
  sheet_doc (num_of_Z 1000) (num_of_Z 500) (num_of_Z 18) [ring_cut] [drill 500 250 8] [].

(** A 1000 x 500 x 18 sheet without routing, with one drill hole. *)
Definition drilled_sheet_doc : CixData :=
  sheet_doc (num_of_Z 1000) (num_of_Z 500) (num_of_Z 18) [] [drill 500 250 8] [].

(** A sheet whose width, 100.0004, is not a multiple of 1/1000. *)
Definition fractional_sheet_doc : CixData :=
  sheet_doc (num_of_Q (1000004 # 10000)) (num_of_Z 50) (num_of_Z 18) [] [] [].

(** A through-cut along the line from (500,0) to (500,500) with a 6 mm tool
    on a 1000 x 500 x 18 sheet, and what clipper-lib computes for it: the
    kerf is the band (497,0)-(503,500), the sheet minus the kerf is a left
    and a right rectangle. *)
Definition split_cut : RoutingPath :=
  {| path_id := None;
     points :=
       [ {| rp_x := num_of_Z 500; rp_y := num_of_Z 0; rp_z := None;
            rp_type := pt_start; rp_center := None |};
         {| rp_x := num_of_Z 500; rp_y := num_of_Z 500; rp_z := Some (num_of_Z (-18));
            rp_type := pt_line; rp_center := None |} ];
     params := ∅;
     max_depth := num_of_Z 18;
     diameter := Some (num_of_Z 6) |}.

(** The same line engraved at depth 0. *)
Definition shallow_cut : RoutingPath :=
  {| path_id := None;
     points :=
       [ {| rp_x := num_of_Z 500; rp_y := num_of_Z 0; rp_z := None;
            rp_type := pt_start; rp_center := None |};
         {| rp_x := num_of_Z 500; rp_y := num_of_Z 500; rp_z := Some (num_of_Z 0);
            rp_type := pt_line; rp_center := None |} ];
     params := ∅;
     max_depth := num_of_Z 0;
     diameter := Some (num_of_Z 6) |}.

(** A plunge at (500,250) to depth 18: a through-cut of a single point. *)
Definition point_cut : RoutingPath :=
  {| path_id := None;
     points :=
       [ {| rp_x := num_of_Z 500; rp_y := num_of_Z 250; rp_z := Some (num_of_Z (-18));
            rp_type := pt_line; rp_center := None |} ];
     params := ∅;
     max_depth := num_of_Z 18;
     diameter := Some (num_of_Z 6) |}.

Definition split_cut_clipper : ClipperLib := {|
  ClipperOffset_Execute := λ _ _, Normal [irect 497000 0 503000 500000];
  Clipper_union := λ paths, Normal paths;
  Clipper_difference := λ _ _, Normal [];
  Clipper_difference_tree := λ _ _,
    Normal [ mkPolyNode (irect 0 0 497000 500000) false [];
             mkPolyNode (irect 503000 0 1000000 500000) false [] ];
  ClipperLib_Area := λ _, None
|}.

Definition label_at (id : string) (x y : Z) : PanelSpecification :=
  {| panel_id := id; panel_width := 0; panel_height := 0;
     panel_thickness := num_of_Z 18; panel_geometry := []; panel_holes := [];
     panel_metadata :=
       {| x_position := num_of_Z x; y_position := num_of_Z y;
          y_position_raw := num_of_Z y; rotation := 0; rotation_raw := 0;
          data := EmptyString; label_name := EmptyString |} |}.

(** The split sheet with one label, inside the left rectangle. *)
Definition split_cut_doc : CixData :=
  sheet_doc (num_of_Z 1000) (num_of_Z 500) (num_of_Z 18) [split_cut] []
    [label_at "P1" 250 250].

(** The panels recovered from [ring_cut_doc]. *)
Definition ring_cut_panels : list RecoveredPanel :=
  match (@recoverPanelsFromRouting runtime ring_cut_clipper no_options ring_cut_doc).1 with
  | Normal res => res
  | Thrown _ => []
  end.

Definition panels_of (run : outcome (list RecoveredPanel) * CixData)
  : list RecoveredPanel :=
  match run.1 with
  | Normal res => res
  | Thrown _ => []
  end.

(** A sheet of width zero. *)
Definition flat_sheet_doc : CixData :=
  sheet_doc (num_of_Z 0) (num_of_Z 500) (num_of_Z 18) [ring_cut] [drill 500 250 8] [].

Definition text_of (lines : list string) : string := String.concat newline lines.

(** A sheet of 1000 x 500 x 18 with one label, one routed line at depth 18
    and one BV macro repeated three times in steps of 50 along X. *)
Definition sample_text : string := text_of [
  "BEGIN MAINDATA"; "  LPX=1000"; "  LPY=500"; "  LPZ=18"; "END MAINDATA";
  "BEGIN MACRO"; "  NAME=LABEL"; "  PARAM,NAME=ID,VALUE=P1";
  "  PARAM,NAME=X,VALUE=500"; "  PARAM,NAME=Y,VALUE=250"; "END MACRO";
  "BEGIN MACRO"; "  NAME=ROUT"; "  PARAM,NAME=DIA,VALUE=6"; "  PARAM,NAME=DP,VALUE=12";
  "END MACRO";
  "BEGIN MACRO"; "  NAME=START_POINT"; "  PARAM,NAME=X,VALUE=100";
  "  PARAM,NAME=Y,VALUE=100"; "END MACRO";
  "BEGIN MACRO"; "  NAME=LINE_EP"; "  PARAM,NAME=XE,VALUE=900";
  "  PARAM,NAME=YE,VALUE=100"; "  PARAM,NAME=ZE,VALUE=-18"; "END MACRO";
  "BEGIN MACRO"; "  NAME=ENDPATH"; "END MACRO";
  "BEGIN MACRO"; "  NAME=BV"; "  PARAM,NAME=X,VALUE=100"; "  PARAM,NAME=Y,VALUE=100";
  "  PARAM,NAME=DIA,VALUE=8"; "  PARAM,NAME=NRP,VALUE=3"; "  PARAM,NAME=DX,VALUE=50";
  "  PARAM,NAME=DY,VALUE=0"; "END MACRO" ].


(** The BV macro of [sample_text] as [parseMacros] records it. *)
Definition bv_macro : gmap string string :=
  list_to_map [ ("_MACRO_TYPE", "BV"); ("X", "100"); ("Y", "100"); ("DIA", "8");
                ("NRP", "3"); ("DX", "50"); ("DY", "0") ].


(** The path routed in [sample_text], on a sheet of height 500. *)
Definition sample_route : RoutingPath :=
  default new_path (head (@parseRoutingPaths runtime (split sample_text newline) (num_of_Z 500))).

(** The stages of the recovery of [split_cut_doc]. *)
Definition split_kerfs : Paths :=
  match @collectKerfs runtime split_cut_clipper no_options (num_of_Z 18) [split_cut] with
  | Normal kerfs => kerfs
  | Thrown _ => []
  end.

Definition split_remaining : list Piece * CixData :=
  match @remainingPieces split_cut_clipper
          [sheetRect (num_of_Z 1000) (num_of_Z 500)] split_kerfs
          (set_kerf_polygons (kerfPolygonsOf split_kerfs) split_cut_doc) with
  | (Normal remaining, doc) => (remaining, doc)
  | (Thrown _, doc) => ([], doc)
  end.

(** A text whose sheet height is the literal [Infinity]. *)
Definition unbounded_text : string := text_of [
  "BEGIN MAINDATA"; "  LPX=1000"; "  LPY=Infinity"; "  LPZ=18"; "END MAINDATA" ].

(** A rectangular panel with the given holes. *)
Definition rect_panel (x0 y0 x1 y1 : Z) (inner : list (list Vec2)) : RecoveredPanel :=
  {| polygon := [pt x0 y0; pt x1 y0; pt x1 y1; pt x0 y1];
     coords := Some [pt x0 y0; pt x1 y0; pt x1 y1; pt x0 y1];
     holes := Some inner;
     drillHoles := None;
     area := num_of_Z ((x1 - x0) * (y1 - y0));
     width := num_of_Z (x1 - x0);
     height := num_of_Z (y1 - y0);
     bounds := (num_of_Z x0, num_of_Z y0, num_of_Z x1, num_of_Z y1) |}.





(** A cut-out panel and the frame around it, whose hole is larger than the
    panel by the kerf. *)
Definition island_panel : RecoveredPanel := rect_panel 103 103 897 397 [].
Definition frame_panel : RecoveredPanel :=
  rect_panel 0 0 1000 500 [[pt 97 97; pt 903 97; pt 903 403; pt 97 403]].

End Sample.

(** ** Vocabulary of the statements *)

(** A point with finite coordinates. *)
Definition finite_point (p : Vec2) : Prop :=
  Number_isFinite (px p) = true ∧ Number_isFinite (py p) = true.

(** The drill holes a panel has claimed. *)
Definition claimed (panel : RecoveredPanel) : list DrillHole :=
  default [] (drillHoles panel).

Definition hole_center (hole : DrillHole) : Vec2 :=
  {| px := hole_x hole; py := hole_y hole |}.

(** The test of [attachDrillHolesToPanels] on one hole: a finite center, a
    radius that is not [<= 0], and the center inside the outer ring. *)
Definition claimable (panel : RecoveredPanel) (hole : DrillHole) : bool :=
  Number_isFinite (hole_x hole) && Number_isFinite (hole_y hole)
  && negb (hole_diameter hole / 2 <=? 0)%js
  && pointInPolygon (hole_center hole) (polygon panel).

(** The rectangle [[0,0]-[w,h]]. *)
Definition full_sheet_rectangle (w h : number) : list Vec2 :=
  [ {| px := 0; py := 0 |}; {| px := w; py := 0 |};
    {| px := w; py := h |}; {| px := 0; py := h |} ].

(** A multiple of 1/1000. *)
Definition on_grid (a : number) : Prop := ∃ z : Z, a = num_of_Q (z # 1000).

(** The classification of C2 as it is worded: the comparison with
    [sheetThickness * depthRatio], except for a zero thickness (an unknown
    thickness is read as [0]), where the test is [depth > 0]. *)
Definition stated_through_cut (depth sheetThickness depthRatio : number) : bool :=
  if bool_decide (sheetThickness = 0%js) then (depth >? 0)%js
  else (depth >=? sheetThickness * depthRatio)%js.

(** The depth recorded by a list of points: the largest [|z|] among the
    negative [z], [0] when there is none. *)
Definition depth_of_points (pts : list RoutingPoint) : number :=
  foldl (λ depth p,
           match rp_z p with
           | Some z => if (z <? 0)%js then Math_max depth (Math_abs z) else depth
           | None => depth
           end)
        0%js pts.

(** The depths [|z|] of the points of a path that lie below the surface. *)
Definition negative_depths (pts : list RoutingPoint) : list number :=
  omap (λ p, z ← rp_z p; if (z <? 0)%js then Some (Math_abs z) else None) pts.

(** The absolute value of a numeric parameter that is present and finite. *)
Definition depth_parameter `{JsRuntime} (path : RoutingPath) (key : string)
  : option number :=
  v ← params path !! key;
  let n := Number_of_string v in
  if Number_isFinite n then Some (Math_abs n) else None.

(** Everything the derived depth of a path is read from. *)
Definition depth_sources `{JsRuntime} (path : RoutingPath) : list number :=
  max_depth path :: omap (depth_parameter path) ["PR"; "DP"; "ZE"; "Z"].

Definition is_maximum (m : number) (l : list number) : Prop :=
  m ∈ l ∧ ∀ x, x ∈ l → (x <=? m)%js = true.

(** A value that is [>= 0]: not [NaN], not negative. *)
Definition nonneg (a : number) : Prop := (0 <=? a)%js = true.

(** What the routing pass maintains for every path: [max_depth] is the depth
    recorded by the points pushed so far, and it is [>= 0]. *)
Definition depth_recorded (path : RoutingPath) : Prop :=
  max_depth path = depth_of_points (points path) ∧ nonneg (max_depth path).

(** The paths of the routing state satisfy [P]. *)
Definition paths_satisfy (P : RoutingPath → Prop) (st : RoutState) : Prop :=
  Forall P (routing st) ∧ ∀ cur, current st = Some cur → P cur.


(** ** Binary64

    The numbers of the program are IEEE 754 doubles.  Here they are the
    [spec_float] of the Standard Library at precision 53 and [emax] 1024:
    signed zeros, the two infinities, one NaN, and the finite values
    [(-1)^s * m * 2^e], with every operation rounded to the nearest value,
    ties to even.  The functions below are the functions of the source once
    more, over these numbers. *)
Module Binary64.

Definition double : Type := SpecFloat.spec_float.

Global Instance double_eq_dec : EqDecision double.
Proof. solve_decision. Defined.

Definition prec : Z := 53.
Definition emax : Z := 1024.

Definition add : double → double → double := SpecFloat.SFadd prec emax.
Definition sub : double → double → double := SpecFloat.SFsub prec emax.
Definition mul : double → double → double := SpecFloat.SFmul prec emax.
Definition div : double → double → double := SpecFloat.SFdiv prec emax.
Definition abs : double → double := SpecFloat.SFabs.
Definition ltb : double → double → bool := SpecFloat.SFltb.
Definition leb : double → double → bool := SpecFloat.SFleb.

(** The double nearest to an integer. *)
Definition of_Z (z : Z) : double := SpecFloat.binary_normalize prec emax z 0 false.

(** The double that the decimal literal of [m / 10^k] denotes, for [m] and
    [10^k] below [2^53]: both are doubles, and their quotient is rounded
    once. *)
Definition decimal (m : Z) (k : N) : double := div (of_Z m) (of_Z (10 ^ Z.of_N k)).

Definition zero : double := SpecFloat.S754_zero false.
Definition Infinity : double := SpecFloat.S754_infinity false.

Definition is_NaN (x : double) : bool :=
  match x with SpecFloat.S754_nan => true | _ => false end.

(** [!x] on a number: true on the two zeros and on NaN. *)
Definition falsy (x : double) : bool :=
  match x with
  | SpecFloat.S754_zero _ | SpecFloat.S754_nan => true
  | _ => false
  end.

Definition is_finite (x : double) : bool :=
  match x with
  | SpecFloat.S754_zero _ | SpecFloat.S754_finite _ _ _ => true
  | _ => false
  end.

Record Vec2 : Type := mkVec2 { px : double; py : double }.

Global Instance Vec2_inhabited : Inhabited Vec2 :=
  populate (mkVec2 SpecFloat.S754_nan SpecFloat.S754_nan).

(** [polygonArea] (panelRecovery.ts, lines 25-33) *)
Definition polygonArea (path : list Vec2) : double :=
  let sum :=
    foldl (λ sum i,
             let p1 := path !!! i in
             let p2 := path !!! ((i + 1) `mod` length path)%nat in
             add sum (sub (mul (px p1) (py p2)) (mul (px p2) (py p1))))
          zero (seq 0 (length path)) in
  div (abs sum) (of_Z 2).

(** [CixParser.flipY] (lines 846-851) *)
Definition flipY (value sheetHeight : double) : double :=
  if falsy sheetHeight || is_NaN sheetHeight then value
  else
    let h := sheetHeight in
    if leb h zero then value else sub h value.

End Binary64.
(** ** The viewer ([components/CixScene.tsx])

    The helpers with which the scene turns the recovered data into shapes
    and poly-lines.  What they take from three.js and from [Math] beyond
    [cos] and [sin] is a second interface. *)

Class ViewerRuntime : Type := {
  (** [THREE.ShapeUtils.isClockWise(pts)] *)
  ShapeUtils_isClockWise : list Vec2 → bool;
  (** [new THREE.Vector2(x, y).length()] *)
  Vector2_length : number → number → number;
  (** [Math.atan2(y, x)] *)
  Math_atan2 : number → number → number;
  (** [THREE.MathUtils.lerp(x, y, t)] *)
  MathUtils_lerp : number → number → number → number
}.

Definition ARC_SEGMENTS : nat := 28.
Definition DRILL_SEGMENTS : nat := 42.
Definition TOOLPATH_Z_OFFSET : number := num_of_Q (12 # 10).
Definition eps3 : number := num_of_Q (1 # 1000).

(** [poly.reduce((sum, p) => sum + f(p), 0) / poly.length] *)
Definition mean_of (f : Vec2 → number) (poly : list Vec2) : number :=
  foldl (λ sum p, sum + f p) 0 poly / num_of_nat (length poly).

Definition scalePolygon (poly : list Vec2) (factor : number) : list Vec2 :=
  if bool_decide (factor = 1) || is_empty poly then poly
  else
    let cx := mean_of px poly in
    let cy := mean_of py poly in
    map (λ p, {| px := cx + (px p - cx) * factor;
                 py := cy + (py p - cy) * factor |})
        poly.

(** A [THREE.Shape] as the vertices through which it was drawn ([moveTo] the
    first, [lineTo] the others, [closePath]), and the same for each of its
    holes. *)
Record Shape : Type := mkShape {
  shape_points : list Vec2;
  shape_holes : list (list Vec2)
}.

(** A [THREE.Vector3] *)
Record Vector3 : Type := mkVector3 { v3x : number; v3y : number; v3z : number }.

Global Instance Shape_eq_dec : EqDecision Shape.
Proof. solve_decision. Defined.
Global Instance Vector3_eq_dec : EqDecision Vector3.
Proof. solve_decision. Defined.

Section Viewer.
Context `{JsRuntime} `{ViewerRuntime}.

Definition ensureCounterClockwise (poly : list Vec2) : list Vec2 :=
  if ShapeUtils_isClockWise poly then reverse poly else poly.

Definition ensureClockwise (poly : list Vec2) : list Vec2 :=
  if ShapeUtils_isClockWise poly then poly else reverse poly.

(** [polygonToShape(outer, holes, inset)]; [None] is its [null]. *)
Definition polygonToShape (outer : list Vec2) (holes : list (list Vec2))
    (inset : number) : option Shape :=
  let scaledOuter := ensureCounterClockwise (scalePolygon outer inset) in
  if bool_decide (length scaledOuter < 3)%nat then None
  else
    Some {| shape_points := scaledOuter;
            shape_holes :=
              filter (λ h, has_ring h = true)
                     (map (λ h, ensureClockwise (scalePolygon h inset)) holes) |}.

Definition circlePolygon (center : Vec2) (radius : number) (segments : nat)
  : list Vec2 :=
  if negb (Number_isFinite (px center)) || negb (Number_isFinite (py center))
     || (radius <=? 0)
  then []
  else
    let segs := Nat.max 8 segments in
    map (λ i,
           let a := (Math_PI * 2 * num_of_nat i) / num_of_nat segs in
           {| px := px center + Math_cos a * radius;
              py := py center + Math_sin a * radius |})
        (seq 0 segs).

Definition toArcPoints (start finish center : Vector3) : list Vector3 :=
  let sx := v3x start - v3x center in
  let sy := v3y start - v3y center in
  let ex := v3x finish - v3x center in
  let ey := v3y finish - v3y center in
  let r := Vector2_length sx sy in
  if r <? eps3 then [start; finish]
  else
    let a0 := Math_atan2 sy sx in
    let a1 := Math_atan2 ey ex in
    let cross := sx * ey - sy * ex in
    let delta := a1 - a0 in
    let delta := if (cross >? 0) && (delta <=? 0) then delta + Math_PI * 2 else delta in
    let delta := if (cross <? 0) && (delta >=? 0) then delta - Math_PI * 2 else delta in
    map (λ i,
           let t := num_of_nat i / num_of_nat ARC_SEGMENTS in
           let a := a0 + delta * t in
           {| v3x := v3x center + Math_cos a * r;
              v3y := v3y center + Math_sin a * r;
              v3z := MathUtils_lerp (v3z start) (v3z finish) t |})
        (seq 0 (S ARC_SEGMENTS)).

(** The point lifted for display. *)
Definition lifted (p : RoutingPoint) : Vector3 :=
  {| v3x := rp_x p; v3y := rp_y p; v3z := default 0 (rp_z p) + TOOLPATH_Z_OFFSET |}.

(** The body of the loop of [toolpathPoints]; the state is [(pts, last)]. *)
Definition toolpath_step (st : list Vector3 * option Vector3) (p : RoutingPoint)
  : list Vector3 * option Vector3 :=
  let '(pts, last) := st in
  let current := lifted p in
  let pts' :=
    match rp_type p, rp_center p, last with
    | pt_arc, Some c, Some l =>
        let center := {| v3x := px c; v3y := py c; v3z := v3z l |} in
        pts ++ drop 1 (toArcPoints l current center)
    | _, _, _ => pts ++ [current]
    end in
  (pts', Some current).

Definition toolpathPoints (path : RoutingPath) : list Vector3 :=
  (foldl toolpath_step ([], None) (points path)).1.

End Viewer.

(** ** Further vocabulary *)

(** A point of the integer grid of clipper. *)
Definition integer_point (p : IntPoint) : Prop :=
  ∃ x y : Z, p = {| X := num_of_Z x; Y := num_of_Z y |}.

(** [a] and [b] differ by at most [d]. *)
Definition within (d a b : number) : Prop := (Math_abs (a - b) <=? d) = true.

(** The point [p] moved by [(dx, dy)]. *)
Definition translate (dx dy : number) (p : Vec2) : Vec2 :=
  {| px := px p + dx; py := py p + dy |}.

(** The rectangle with the corners [(x0,y0)] and [(x1,y1)], in the order in
    which [recoverPanelsFromRouting] lists the corners of the sheet. *)
Definition rectangle (x0 y0 x1 y1 : number) : list Vec2 :=
  [ {| px := x0; py := y0 |}; {| px := x1; py := y0 |};
    {| px := x1; py := y1 |}; {| px := x0; py := y1 |} ].

(** The point at the fraction [t] of the way from [a] to [b]. *)
Definition along (a b : Vec2) (t : number) : Vec2 :=
  {| px := px a + t * (px b - px a); py := py a + t * (py b - py a) |}.

(** The nodes of a clipper tree, children before their parent. *)
Fixpoint nodes (n : PolyNode) : list PolyNode :=
  match n with
  | mkPolyNode _ _ childs => flat_map nodes childs ++ [n]
  end.

(** A node that stands for material: not a hole, with a contour. *)
Definition solid (n : PolyNode) : bool := negb (is_empty (Contour n)) && negb (IsHole n).

(** The piece of a solid node: its contour and the contours of the holes
    among its children. *)
Definition piece_of (n : PolyNode) : Piece :=
  {| piece_outer := Contour n; piece_holes := hole_contours (Childs n) |}.

(** A routing path that [addKerfsForPaths] turns into a kerf: at least two
    points and a tool radius that is finite and positive. *)
Definition cuttable (opts : RecoverOptions) (path : RoutingPath) : bool :=
  let radius := (default (defaultBitDiameterMm opts) (diameter path) / 2) * kerfScale opts in
  bool_decide (2 ≤ length (points path))%nat
  && Number_isFinite radius && negb (radius <=? 0).

(** The lines that open and close the blocks of a CIX text. *)
Definition opens_maindata (raw : string) : bool := startsWith (trim raw) "BEGIN MAINDATA".
Definition closes_maindata (raw : string) : bool := startsWith (trim raw) "END MAINDATA".
Definition opens_macro (raw : string) : bool := startsWith (trim raw) "BEGIN MACRO".
Definition closes_macro (raw : string) : bool := startsWith (trim raw) "END MACRO".

(** A text that [parseParamLine] reads back as it is: no comma, no equals
    sign, no white space or double quote at either end. *)
Definition plain_text (s : string) : Prop :=
  has_char ","%char s = false ∧ has_char "="%char s = false ∧
  trim s = s ∧ unquote s = s.

(** A display point that is the routing point itself, lifted: anything but
    an arc with a centre. *)
Definition straight (p : RoutingPoint) : bool :=
  match rp_type p, rp_center p with
  | pt_arc, Some _ => false
  | _, _ => true
  end.

(** The point with the finite coordinates [q]. *)
Definition point_of (q : Qc * Qc) : Vec2 := {| px := Fin q.1; py := Fin q.2 |}.

(** The term of the shoelace sum for the edge from [a] to [b]. *)
Definition cross_term (a b : Qc * Qc) : Qc := (a.1 * b.2 - b.1 * a.2)%Qc.

(** The sum of [cross_term] along the consecutive points of a poly-line. *)
Fixpoint path_sum (l : list (Qc * Qc)) : Qc :=
  match l with
  | a :: (b :: _) as l' => (cross_term a b + path_sum l')%Qc
  | _ => Q2Qc 0
  end.

(** The poly-line that returns to its first point. *)
Definition closed (l : list (Qc * Qc)) : list (Qc * Qc) := l ++ take 1 l.

Global Instance Qc_inhabited : Inhabited Qc := populate (Q2Qc 0).

(** The coordinates [q] moved by [(dx, dy)]. *)
Definition shift (dx dy : Qc) (q : Qc * Qc) : Qc * Qc := ((q.1 + dx)%Qc, (q.2 + dy)%Qc).

(** The least element of a list of numbers. *)
Definition is_minimum (m : number) (l : list number) : Prop :=
  m ∈ l ∧ ∀ x, x ∈ l → (m <=? x)%js = true.

(** The boundary test of [pointInPolygon] on the edge from [a] to [b]. *)
Definition on_edge (pt a b : Vec2) : bool :=
  let cross := (py pt - py a) * (px b - px a) - (px pt - px a) * (py b - py a) in
  (Math_abs cross <? eps9)
  && (Math_min (px a) (px b) - eps9 <=? px pt)
  && (px pt <=? Math_max (px a) (px b) + eps9)
  && (Math_min (py a) (py b) - eps9 <=? py pt)
  && (py pt <=? Math_max (py a) (py b) + eps9).

(** The crossing test of [pointInPolygon] on the edge from [a] to [b]: does
    the ray from [pt] towards larger x cross the edge? *)
Definition crosses (pt a b : Vec2) : bool :=
  negb (eqb (py a >? py pt) (py b >? py pt))
  && (px pt <? ((px b - px a) * (py pt - py a)) / (num_or (py b - py a) eps12) + px a).

(** The circle that [attachDrillHolesToPanels] cuts out for a drill hole. *)
Definition circle_of `{JsRuntime} (hole : DrillHole) : list Vec2 :=
  circlePath (hole_center hole) (hole_diameter hole / 2) 40.

(** What [recoverPanelsFromRouting] reads from a document and leaves as it
    found it: everything but [kerf_polygons], [removed_polygons] and
    [parse_errors]. *)
Definition same_inputs (d d' : CixData) : Prop :=
  filename d' = filename d ∧ sheetId d' = sheetId d ∧ panels d' = panels d ∧
  raw_content d' = raw_content d ∧
  sheet_width (metadata d') = sheet_width (metadata d) ∧
  sheet_height (metadata d') = sheet_height (metadata d) ∧
  sheet_thickness (metadata d') = sheet_thickness (metadata d) ∧
  routing_paths (metadata d') = routing_paths (metadata d) ∧
  drilling (metadata d') = drilling (metadata d) ∧
  recovered_panels (metadata d') = recovered_panels (metadata d).

(** A ring with at least three points, with holes of at least three points. *)
Definition proper_rings (r : RemovedPolygon) : Prop :=
  (3 ≤ length (outer r))%nat ∧ Forall (λ hole, 3 ≤ length hole)%nat (removed_holes r).

(** The value [v] is [NaN] or at most [a]. *)
Definition at_most (a v : number) : Prop := v = NaN ∨ (v <=? a)%js = true.

(** A recovered panel as the viewer expects it: a ring of at least three
    points, [coords] equal to it, and a list of holes. *)
Definition proper_panel (p : RecoveredPanel) : Prop :=
  (3 ≤ length (polygon p))%nat ∧ coords p = Some (polygon p) ∧ is_Some (holes p).



(** A parameter as a CIX line writes it, behind a comma. *)
Definition render_param (kv : string * string) : string :=
  String ","%char (kv.1 ++ String "="%char kv.2)%string.

(** The parameters [kvs] behind the head [head] of a line. *)
Definition render_params (head : string) (kvs : list (string * string)) : string :=
  (head ++ foldr (λ kv s, render_param kv ++ s) EmptyString kvs)%string.

(** ** A sample viewer runtime

    An instance of [ViewerRuntime] on which the viewer can be evaluated:
    the orientation test of three.js (the sign of the shoelace sum), the
    length of a vector by Newton's iteration, a coarse [atan2], and the
    linear interpolation of three.js.  The theorems do not depend on it. *)
Module SampleViewer.

(** [THREE.ShapeUtils.area(contour)], twice: the sum over the edges from the
    previous point [p] to the point [q]. *)
Definition twice_area (contour : list Vec2) : number :=
  foldl (λ a i,
           let q := contour !!! i in
           let p := contour !!! ((i + length contour - 1) `mod` length contour)%nat in
           a + (px p * py q - px q * py p))
        0 (seq 0 (length contour)).

Definition sample_isClockWise (contour : list Vec2) : bool := twice_area contour <? 0.

Fixpoint newton (steps : nat) (s x : number) : number :=
  match steps with
  | O => x
  | S n => newton n s ((x + s / x) / 2)
  end.

Definition sample_length (x y : number) : number :=
  let s := x * x + y * y in
  if s <=? 0 then s else Sample.milli (newton 6 s ((s + 1) / 2)).

(** [atan t] for [|t| <= 1], to about two decimals. *)
Definition small_atan (t : number) : number :=
  Math_PI / num_of_Z 4 * t + num_of_Q (273 # 1000) * t * (1 - Math_abs t).

Definition sample_atan2 (y x : number) : number :=
  if falsy x && falsy y then 0
  else if Math_abs y <=? Math_abs x then
    let a := small_atan (y / x) in
    if 0 <? x then a else if y <? 0 then a - Math_PI else a + Math_PI
  else
    let a := Math_PI / 2 - small_atan (x / y) in
    if 0 <? y then a else a - Math_PI.

Definition sample_lerp (x y t : number) : number := (1 - t) * x + t * y.

Global Instance viewer : ViewerRuntime := {|
  ShapeUtils_isClockWise := sample_isClockWise;
  Vector2_length := sample_length;
  Math_atan2 := sample_atan2;
  MathUtils_lerp := sample_lerp
|}.

End SampleViewer.

(** The sums of the coordinates of a list of points, and its length, as
    rationals. *)
Definition sum_of (g : Qc * Qc → Qc) (qs : list (Qc * Qc)) : Qc :=
  foldl (λ s q, s + g q)%Qc (Q2Qc 0) qs.

Definition count_of (qs : list (Qc * Qc)) : Qc := Qc_of_Z (Z.of_nat (length qs)).

(** The points [qs] scaled by [f] about [(cx, cy)]. *)
Definition scaled_about (cx cy f : Qc) (qs : list (Qc * Qc)) : list (Qc * Qc) :=
  map (λ q, ((cx + (q.1 - cx) * f)%Qc, (cy + (q.2 - cy) * f)%Qc)) qs.

(** * Properties *)

(** ** Evaluations *)

Example trim_ex : trim "  BEGIN MACRO " = "BEGIN MACRO".
Proof. reflexivity. Qed.
Example split_ex : split "PARAM,NAME=X,VALUE=10" "," = ["PARAM"; "NAME=X"; "VALUE=10"].
Proof. reflexivity. Qed.
Example split_value_ex : split "PARAM,NAME=X,VALUE=10" "VALUE=" = ["PARAM,NAME=X,"; "10"].
Proof. reflexivity. Qed.
Example split_limit_ex : split_limit "A=B=C" "=" 2 = ["A"; "B"].
Proof. reflexivity. Qed.
Example remove_extension_ex : remove_extension "sheet.v2.cix" = "sheet.v2".
Proof. reflexivity. Qed.
Example remove_extension_none : remove_extension "sheet." = "sheet.".
Proof. reflexivity. Qed.

Example flipY_1550 :
  flipY (num_of_Q (30596 # 100)) (num_of_Z 1550) = num_of_Q (124404 # 100).
Proof. vm_compute. f_equal. apply Qc_is_canon. reflexivity. Qed.

(** ** Arithmetic of [number] *)

Lemma Qc_eq_iff (x y : Qc) : x = y ↔ (this x == this y)%Q.
Proof. split; [intros ->; reflexivity | apply Qc_is_canon]. Qed.

(** Moves a goal on canonical rationals to plain rationals, where [lra]
    applies. *)
Ltac qc_to_q :=
  repeat match goal with
  | H : @eq Qc ?x ?y |- _ => apply Qc_eq_iff in H
  | H : not (@eq Qc ?x ?y) |- _ => rewrite Qc_eq_iff in H
  | |- @eq Qc ?x ?y => apply Qc_eq_iff
  | |- not (@eq Qc ?x ?y) => rewrite Qc_eq_iff
  end;
  repeat progress
    (unfold Qcle, Qclt, Qcplus, Qcminus, Qcmult, Qcopp, Qc_of_Z, Q2Qc in *;
     cbn [this] in *);
  rewrite ?Qred_correct in *;
  change (inject_Z 0) with 0%Q in *;
  repeat match goal with
  | |- context [inject_Z (Zpos ?p)] => change (inject_Z (Zpos p)) with (Zpos p # 1)%Q in *
  | |- context [inject_Z (Zneg ?p)] => change (inject_Z (Zneg p)) with (Zneg p # 1)%Q in *
  | H : context [inject_Z (Zpos ?p)] |- _ =>
      change (inject_Z (Zpos p)) with (Zpos p # 1)%Q in *
  | H : context [inject_Z (Zneg ?p)] |- _ =>
      change (inject_Z (Zneg p)) with (Zneg p # 1)%Q in *
  end.

(** Turns the boolean tests on rationals into propositions. *)
Ltac qc_bool :=
  unfold Qc_ltb, Qc_leb, Qc_is_zero in *;
  repeat match goal with
  | H : bool_decide _ = true |- _ => apply bool_decide_eq_true in H
  | H : bool_decide _ = false |- _ => apply bool_decide_eq_false in H
  | |- bool_decide _ = true => apply bool_decide_eq_true
  | |- bool_decide _ = false => apply bool_decide_eq_false
  end.

Ltac qc_solve := qc_bool; qc_to_q; lra.

Lemma Fin_eq (x y : Qc) : (this x == this y)%Q → Fin x = Fin y.
Proof. intros E. f_equal. by apply Qc_is_canon. Qed.

Lemma num_sub_sub_cancel (q : Qc) (y : number) : (Fin q - (Fin q - y))%js = y.
Proof.
  destruct y as [| | |v]; try reflexivity.
  unfold num_sub; simpl. apply Fin_eq. qc_to_q. lra.
Qed.


Lemma Math_abs_finite (x : Qc) : ∃ v : Qc, Math_abs (Fin x) = Fin v ∧ (0 ≤ v)%Qc.
Proof.
  simpl. destruct (Qc_ltb x 0) eqn:E.
  - exists (- x)%Qc. split; [done|]. qc_solve.
  - exists x. split; [done|]. qc_solve.
Qed.

Lemma Qc_half (x : Qc) : (x / Qc_of_Z 2 = x * Q2Qc (1 # 2))%Qc.
Proof.
  unfold Qcdiv. f_equal.
Qed.


Lemma half_finite (x : Qc) : (0 ≤ x)%Qc → ∃ v : Qc, (Fin x / 2)%js = Fin v ∧ (0 ≤ v)%Qc.
Proof.
  intros Hx. exists (x * Q2Qc (1 # 2))%Qc. split.
  - unfold num_div, num_of_Z.
    replace (Qc_is_zero (Qc_of_Z 2)) with false by reflexivity.
    by rewrite Qc_half.
  - qc_solve.
Qed.

(** ** C8: the Y-flip *)

(** In exact arithmetic an infinite sheet height is where the double flip
    fails: [Infinity] is a positive height, the first flip yields
    [Infinity - 5 = Infinity] and the second [Infinity - Infinity = NaN]. *)
Lemma flipY_twice_infinite_height :
  (PosInf >? 0)%js = true ∧
  flipY (flipY (num_of_Z 5) PosInf) PosInf = NaN ∧
  flipY (flipY (num_of_Z 5) PosInf) PosInf ≠ num_of_Z 5.
Proof. repeat split; try reflexivity. discriminate. Qed.

(** The flip over binary64. *)
Lemma Binary64_positive (h : Binary64.double) :
  Binary64.ltb Binary64.zero h = true →
  Binary64.falsy h = false ∧ Binary64.is_NaN h = false ∧
  Binary64.leb h Binary64.zero = false.
Proof. by destruct h as [[]|[]| |[] m e]. Qed.

Lemma Binary64_flipY_positive (y h : Binary64.double) :
  Binary64.ltb Binary64.zero h = true → Binary64.flipY y h = Binary64.sub h y.
Proof.
  intros Hpos. apply Binary64_positive in Hpos as (Hfalsy & Hnan & Hle).
  unfold Binary64.flipY. by rewrite Hfalsy, Hnan, Hle.
Qed.

Lemma Binary64_sub_self (s : bool) (m : positive) (e : Z) :
  Binary64.sub (SpecFloat.S754_finite s m e) (SpecFloat.S754_finite s m e)
  = Binary64.zero.
Proof.
  unfold Binary64.sub, SpecFloat.SFsub. by rewrite Z.sub_diag.
Qed.

(** C8, as stated, fails on the numbers of the program.  For [y = 305.96]
    and the sheet height [1550] the first flip, [1550 - 305.96], is rounded
    to [1244.04], and the second, [1550 - 1244.04], to the double after
    [305.96], which prints as [305.96000000000004].  For the positive height
    [Infinity] flipping [5] twice gives [NaN]. *)
Lemma flipY_twice_is_rounded :
  let y := Binary64.decimal 30596 2 in
  let h := Binary64.of_Z 1550 in
  Binary64.ltb Binary64.zero h = true ∧
  Binary64.flipY (Binary64.flipY y h) h
  = SpecFloat.SFsucc Binary64.prec Binary64.emax y ∧
  Binary64.flipY (Binary64.flipY y h) h ≠ y ∧
  Binary64.ltb Binary64.zero Binary64.Infinity = true ∧
  Binary64.flipY (Binary64.flipY (Binary64.of_Z 5) Binary64.Infinity) Binary64.Infinity
  = SpecFloat.S754_nan.
Proof.
  cbv zeta. split; [reflexivity|]. split; [vm_compute; reflexivity|].
  split; [|split; reflexivity].
  apply (bool_decide_eq_false_1 _). vm_compute. reflexivity.
Qed.

(** C8 (amended): flipping with a sheet height that is zero, negative or
    [NaN] leaves every [y] unchanged.  With a positive sheet height [h] the
    flip of [y] is the rounded difference [h - y], so that flipping twice
    gives [h - (h - y)]: this is [y] again for [y = 0] and for [y = h] when
    [h] is finite, and for every [y] and finite [h] when the arithmetic is
    exact, but not for every [y] in binary64. *)
Theorem flipY_involution :
  (∀ y h, Binary64.falsy h = true ∨ Binary64.leb h Binary64.zero = true →
          Binary64.flipY y h = y) ∧
  (∀ y h, Binary64.ltb Binary64.zero h = true →
          Binary64.flipY y h = Binary64.sub h y ∧
          Binary64.flipY (Binary64.flipY y h) h = Binary64.sub h (Binary64.sub h y)) ∧
  (∀ h, Binary64.is_finite h = true → Binary64.ltb Binary64.zero h = true →
        Binary64.flipY (Binary64.flipY Binary64.zero h) h = Binary64.zero ∧
        Binary64.flipY (Binary64.flipY h h) h = h) ∧
  (∀ y h, Number_isFinite h = true → (h >? 0)%js = true → flipY (flipY y h) h = y) ∧
  (∀ y h, (h <=? 0)%js = true ∨ h = NaN → flipY y h = y).
Proof.
  split; [|split; [|split; [|split]]].
  - intros y h [Hfalsy | Hle]; unfold Binary64.flipY.
    + by rewrite Hfalsy.
    + rewrite Hle. by destruct (_ || _).
  - intros y h Hpos. by rewrite !Binary64_flipY_positive.
  - intros h Hfin Hpos. rewrite !Binary64_flipY_positive by done.
    destruct h as [[]|[]| |s m e]; try done.
    split.
    + change (Binary64.sub (SpecFloat.S754_finite s m e) Binary64.zero)
        with (SpecFloat.S754_finite s m e).
      apply Binary64_sub_self.
    + rewrite Binary64_sub_self. reflexivity.
  - intros y h. destruct h as [| | |q]; try discriminate. intros _ Hpos.
    assert (Hflip : ∀ v, flipY v (Fin q) = (Fin q - v)%js).
    { intros v. unfold flipY. simpl in *.
      replace (Qc_is_zero q) with false by (symmetry; qc_solve).
      replace (Qc_leb q (Qc_of_Z 0)) with false by (symmetry; qc_solve).
      reflexivity. }
    rewrite !Hflip. apply num_sub_sub_cancel.
  - intros y h [Hle | ->]; [|reflexivity].
    unfold flipY. rewrite Hle. by destruct (_ || _).
Qed.

Lemma flipY_involution_witness :
  Binary64.flipY (Binary64.decimal 30596 2) (Binary64.of_Z (-5)) = Binary64.decimal 30596 2 ∧
  Binary64.flipY (Binary64.flipY (Binary64.of_Z 1550) (Binary64.of_Z 1550)) (Binary64.of_Z 1550)
  = Binary64.of_Z 1550 ∧
  flipY (flipY (num_of_Z 30) (num_of_Z 500)) (num_of_Z 500) = num_of_Z 30 ∧
  flipY (num_of_Z 30) (num_of_Z (-5)) = num_of_Z 30.
Proof.
  destruct flipY_involution as (Hid & _ & Hends & Hexact & Hid').
  split; [|split; [|split]].
  - apply Hid. right. reflexivity.
  - apply (Hends (Binary64.of_Z 1550)); reflexivity.
  - apply Hexact; reflexivity.
  - apply Hid'. left. reflexivity.
Defined.

(** ** Areas *)

Lemma finite_is_Fin (a : number) : Number_isFinite a = true → ∃ q, a = Fin q.
Proof. destruct a; try discriminate. eauto. Qed.

Lemma shoelace_term_finite (p1 p2 : Vec2) (s : Qc) :
  finite_point p1 → finite_point p2 →
  ∃ q, (Fin s + (px p1 * py p2 - px p2 * py p1))%js = Fin q.
Proof.
  intros [H1x H1y] [H2x H2y].
  apply finite_is_Fin in H1x as [? ->]. apply finite_is_Fin in H1y as [? ->].
  apply finite_is_Fin in H2x as [? ->]. apply finite_is_Fin in H2y as [? ->].
  simpl. eauto.
Qed.

Lemma shoelace_sum_finite (path : list Vec2) (idx : list nat) (s : Qc) :
  Forall finite_point path →
  Forall (λ i, i < length path)%nat idx →
  ∃ q, foldl (λ sum i,
                let p1 := path !!! i in
                let p2 := path !!! ((i + 1) `mod` length path)%nat in
                (sum + (px p1 * py p2 - px p2 * py p1))%js)
             (Fin s) idx = Fin q.
Proof.
  intros Hfin Hidx. revert s.
  induction Hidx as [|i idx Hi _ IH]; intros s; cbn [foldl]; [eauto|].
  cbv zeta.
  assert (Hin : ∀ j, (j < length path)%nat → finite_point (path !!! j)).
  { intros j Hj. eapply Forall_forall; [exact Hfin|].
    by apply list_elem_of_lookup_total_2. }
  destruct (shoelace_term_finite (path !!! i)
              (path !!! ((i + 1) `mod` length path)%nat) s) as [q Hq].
  - by apply Hin.
  - apply Hin. apply Nat.mod_upper_bound. lia.
  - rewrite Hq. apply IH.
Qed.


Lemma polygonArea_finite (ring : list Vec2) :
  Forall finite_point ring → ∃ v : Qc, polygonArea ring = Fin v ∧ (0 ≤ v)%Qc.
Proof.
  intros Hfin. unfold polygonArea.
  destruct (shoelace_sum_finite ring (seq 0 (length ring)) (Qc_of_Z 0) Hfin) as [q Hq].
  { apply Forall_forall. intros i Hi. apply elem_of_seq in Hi. lia. }
  cbv zeta in Hq |- *. change (num_of_Z 0) with (Fin (Qc_of_Z 0)). rewrite Hq.
  destruct (Math_abs_finite q) as (v & -> & Hv).
  by apply half_finite.
Qed.

Lemma Fin_geb_0 (v : Qc) : (0 ≤ v)%Qc → (Fin v >=? 0)%js = true.
Proof. intros Hv. unfold num_geb. simpl. qc_solve. Qed.

Section RecoveryFacts.
Context `{JsRuntime} `{ClipperLib}.

Lemma attach_panel_polygon drills p : polygon (attach_panel drills p) = polygon p.
Proof.
  unfold attach_panel.
  by destruct (foldl (attach_hole p) (default [] (holes p), [], area p) drills) as [[? ?] ?].
Qed.

Lemma attach_panel_area_not_negative drills p :
  (area p <? 0)%js = false → (area (attach_panel drills p) <? 0)%js = false.
Proof.
  intros Hp. unfold attach_panel.
  destruct (foldl (attach_hole p) (default [] (holes p), [], area p) drills)
    as [[? ?] a]; simpl.
  destruct a as [| | |x]; simpl; try done.
  destruct (Qc_ltb x (Qc_of_Z 0)) eqn:E; simpl; qc_solve.
Qed.

Lemma attachDrillHolesToPanels_area_not_negative recovered drills :
  Forall (λ p, (area p <? 0)%js = false) recovered →
  Forall (λ p, (area p <? 0)%js = false) (attachDrillHolesToPanels recovered drills).
Proof.
  intros Hall. unfold attachDrillHolesToPanels.
  destruct (is_empty drills); [done|].
  apply Forall_fmap. eapply Forall_impl; [exact Hall|].
  intros p Hp. by apply attach_panel_area_not_negative.
Qed.


Lemma panel_of_piece_area_not_negative opts piece p :
  (minPanelArea opts >=? 0)%js = true →
  panel_of_piece opts piece = Some p →
  (area p <? 0)%js = false.
Proof.
  intros Hmin. unfold panel_of_piece.
  destruct (bool_decide _); [done|].
  set (a := foldl _ _ _).
  destruct (a <? minPanelArea opts)%js eqn:Ha; [done|].
  intros [= <-]. simpl.
  unfold num_geb in Hmin.
  destruct a as [| | |x], (minPanelArea opts) as [| | |m]; simpl in *; try done.
  qc_solve.
Qed.

Lemma finalPanels_subseteq labelPoints recovered :
  finalPanels labelPoints recovered ⊆ recovered.
Proof.
  unfold finalPanels, labeledPanels.
  destruct (negb (is_empty labelPoints)); simpl; [|done].
  destruct (is_empty (filter _ recovered)); simpl; [done|].
  intros p Hp. by apply list_elem_of_filter in Hp as [_ ?].
Qed.

End RecoveryFacts.

(** ** The runs of [recoverPanelsFromRouting] *)

Lemma is_empty_true {A} (l : list A) : is_empty l = true ↔ l = [].
Proof. by destruct l. Qed.

Lemma is_empty_false {A} (l : list A) : is_empty l = false ↔ l ≠ [].
Proof. by destruct l. Qed.

Section RecoveryRuns.
Context `{JsRuntime} `{ClipperLib}.

(** A normal return of [recoverPanelsFromRouting] is one of: the empty list
    for a sheet without positive dimensions; the whole sheet when there are
    no kerfs; the whole sheet when no piece survives; the final selection
    among the surviving pieces. *)
Lemma recover_cases opts doc res doc' :
  recoverPanelsFromRouting opts doc = (Normal res, doc') →
  let sheetW := default 0%js (sheet_width (metadata doc)) in
  let sheetH := default 0%js (sheet_height (metadata doc)) in
  let sheetT := default 0%js (sheet_thickness (metadata doc)) in
  let routing := default [] (routing_paths (metadata doc)) in
  let drills := default [] (drilling (metadata doc)) in
  ((sheetW <=? 0)%js || (sheetH <=? 0)%js = true ∧ res = [] ∧ doc' = doc) ∨
  ((sheetW <=? 0)%js || (sheetH <=? 0)%js = false ∧
   ((collectKerfs opts sheetT routing = Normal [] ∧
     res = attachDrillHolesToPanels [sheetPanel sheetW sheetH] drills ∧
     doc' = set_removed_polygons [] (set_kerf_polygons [] doc)) ∨
    (∃ kerfs remaining,
       collectKerfs opts sheetT routing = Normal kerfs ∧ kerfs ≠ [] ∧
       ((recoveredPanels opts remaining drills = [] ∧
         res = attachDrillHolesToPanels [sheetPanel sheetW sheetH] drills) ∨
        (recoveredPanels opts remaining drills ≠ [] ∧
         res = finalPanels (labelPointsOf doc) (recoveredPanels opts remaining drills)))))).
Proof.
  intros Hrun sheetW sheetH sheetT routing drills.
  unfold recoverPanelsFromRouting in Hrun.
  unfold mbind, JsM_bind, get_doc in Hrun.
  fold sheetW sheetH sheetT routing drills in Hrun.
  destruct ((sheetW <=? 0)%js || (sheetH <=? 0)%js) eqn:Hdims.
  { left. unfold mret, JsM_ret in Hrun. by injection Hrun as <- <-. }
  right. split; [done|].
  unfold lift in Hrun.
  destruct (collectKerfs opts sheetT routing) as [kerfs|e] eqn:Hkerfs; [|done].
  destruct (is_empty kerfs) eqn:Hempty.
  { apply is_empty_true in Hempty as ->. left.
    unfold modify_doc, mret, JsM_ret in Hrun. by injection Hrun as <- <-. }
  right. exists kerfs.
  destruct (unionPaths kerfs) as [kerfUnion|e] eqn:Hunion; [|done].
  unfold modify_doc at 1 in Hrun.
  destruct (remainingPieces _ _ _) as [[remaining|e] doc2] eqn:Hrem; [|done].
  exists remaining. split; [done|]. split; [by apply is_empty_false|].
  destruct (is_empty (recoveredPanels opts remaining drills)) eqn:Hrec.
  { left. apply is_empty_true in Hrec. split; [done|].
    unfold modify_doc, mret, JsM_ret in Hrun. by injection Hrun as <- _. }
  right. split; [by apply is_empty_false|].
  destruct (removedShapes _ _ _ _ _) as [[removed|e] doc3]; [|done].
  unfold modify_doc, mret, JsM_ret in Hrun. by injection Hrun as <- _.
Qed.

End RecoveryRuns.

(** ** C9: areas are never negative *)


(** Such rings do reach [polygonArea]: the circle that
    [attachDrillHolesToPanels] builds for a drill hole of infinite diameter
    has the point [(x + 1 * Infinity, y + 0 * Infinity)], and its area is
    [NaN]. *)
Example polygonArea_of_infinite_circle :
  polygonArea (@circlePath Sample.runtime (Sample.pt 500 250) (PosInf / 2)%js 40) = NaN.
Proof. vm_compute. reflexivity. Qed.







Section PanelAreas.
Context `{JsRuntime} `{ClipperLib}.





End PanelAreas.



(** ** C1: which panels claim a drill hole *)

Section DrillHoles.
Context `{JsRuntime} `{ClipperLib}.

Lemma circlePath_40_length center radius :
  Number_isFinite (px center) = true → Number_isFinite (py center) = true →
  (radius <=? 0)%js = false →
  length (circlePath center radius 40) = 40%nat.
Proof.
  intros Hx Hy Hr. unfold circlePath. rewrite Hx, Hy, Hr. simpl negb. simpl orb.
  cbv iota. by rewrite length_map, length_seq.
Qed.

Lemma attach_hole_assigned panel polyHoles assigned a hole :
  (attach_hole panel (polyHoles, assigned, a) hole).1.2
  = assigned ++ (if claimable panel hole then [hole] else []).
Proof.
  unfold attach_hole, claimable, hole_center.
  destruct (Number_isFinite (hole_x hole)) eqn:Hx; simpl; [|by rewrite app_nil_r].
  destruct (Number_isFinite (hole_y hole)) eqn:Hy; simpl; [|by rewrite app_nil_r].
  destruct (hole_diameter hole / 2 <=? 0)%js eqn:Hr; simpl; [by rewrite app_nil_r|].
  destruct (pointInPolygon _ (polygon panel)) eqn:Hin; simpl; [|by rewrite app_nil_r].
  rewrite circlePath_40_length by done.
  by rewrite bool_decide_eq_true_2 by lia.
Qed.

Lemma attach_fold_assigned panel drills st :
  (foldl (attach_hole panel) st drills).1.2
  = st.1.2 ++ filter (λ hole, claimable panel hole = true) drills.
Proof.
  revert st. induction drills as [|hole drills IH]; intros [[polyHoles assigned] a].
  { simpl. by rewrite app_nil_r. }
  cbn [foldl]. rewrite IH, attach_hole_assigned. cbn [fst snd].
  rewrite filter_cons. destruct (claimable panel hole) eqn:Hc.
  - rewrite decide_True by done. by rewrite <- app_assoc.
  - rewrite decide_False by done. by rewrite app_nil_r.
Qed.

(** A panel without drill holes claims exactly the holes that pass the test,
    in the order of the drilling list. *)
Lemma attach_panel_claimed drills panel :
  drillHoles panel = None →
  claimed (attach_panel drills panel)
  = filter (λ hole, claimable panel hole = true) drills.
Proof.
  intros Hnone. unfold claimed, attach_panel.
  pose proof (attach_fold_assigned panel drills (default [] (holes panel), [], area panel))
    as Hfold.
  destruct (foldl (attach_hole panel) _ drills) as [[polyHoles assigned] a].
  simpl in *. subst assigned. rewrite Hnone.
  by destruct (filter _ drills).
Qed.

Lemma claimable_attach_panel drills panel hole :
  claimable (attach_panel drills panel) hole = claimable panel hole.
Proof. unfold claimable. by rewrite attach_panel_polygon. Qed.

Lemma attachDrillHolesToPanels_claimed recovered drills :
  Forall (λ p, drillHoles p = None) recovered →
  Forall (λ p, claimed p = filter (λ hole, claimable p hole = true) drills)
         (attachDrillHolesToPanels recovered drills).
Proof.
  intros Hnone. unfold attachDrillHolesToPanels.
  destruct drills as [|hole drills]; simpl.
  - eapply Forall_impl; [exact Hnone|]. intros p Hp. unfold claimed. by rewrite Hp.
  - apply Forall_fmap. eapply Forall_impl; [exact Hnone|]. intros p Hp. simpl.
    rewrite attach_panel_claimed by done.
    apply list_filter_iff. intros h. by rewrite claimable_attach_panel.
Qed.

Lemma panel_of_piece_no_drillHoles opts piece p :
  panel_of_piece opts piece = Some p → drillHoles p = None.
Proof.
  unfold panel_of_piece. destruct (bool_decide _); [done|].
  destruct (_ <? _)%js; [done|]. by intros [= <-].
Qed.

End DrillHoles.

(** C1, as stated, fails: on the sheet of [Sample.ring_cut_doc] the cut-out
    rectangle and the frame around it are two recovered panels, the centre
    (500, 250) of the drill hole lies inside the outer ring of both, and
    both list the hole in their [drillHoles]. *)
Lemma drill_hole_claimed_by_two_panels :
  let run := @recoverPanelsFromRouting Sample.runtime Sample.ring_cut_clipper
               no_options Sample.ring_cut_doc in
  let hole := Sample.drill 500 250 8 in
  ∃ island frame,
    run.1 = Normal [island; frame] ∧
    polygon island
    = [Sample.pt 103 103; Sample.pt 897 103; Sample.pt 897 397; Sample.pt 103 397] ∧
    polygon frame
    = [Sample.pt 0 0; Sample.pt 1000 0; Sample.pt 1000 500; Sample.pt 0 500] ∧
    drillHoles island = Some [hole] ∧
    drillHoles frame = Some [hole].
Proof.
  intros run hole.
  exists (Sample.ring_cut_panels !!! 0%nat), (Sample.ring_cut_panels !!! 1%nat).
  apply (bool_decide_eq_true_1 _). vm_compute. reflexivity.
Qed.

(** The same on [attachDrillHolesToPanels] alone, given the two panels. *)
Example attach_claims_hole_for_both_panels :
  drillHoles <$> @attachDrillHolesToPanels Sample.runtime
                   [Sample.island_panel; Sample.frame_panel] [Sample.drill 500 250 8]
  = [Some [Sample.drill 500 250 8]; Some [Sample.drill 500 250 8]].
Proof. apply (bool_decide_eq_true_1 _). vm_compute. reflexivity. Qed.

(** C1 (amended): in one call to [recoverPanelsFromRouting] every returned
    panel claims exactly the drill holes with a finite centre and a
    positive radius whose centre lies inside its own outer ring, in the
    order of the drilling list and whatever the other panels claim.  Hence a
    drill hole is in the [drillHoles] of two distinct panels only if its
    centre lies inside the outer ring of both. *)
Theorem drill_holes_claimed_by_containing_panels
    (rt : JsRuntime) (clipper : ClipperLib) opts doc res doc' :
  recoverPanelsFromRouting opts doc = (Normal res, doc') →
  let drills := default [] (drilling (metadata doc)) in
  (∀ p, p ∈ res → claimed p = filter (λ hole, claimable p hole = true) drills) ∧
  (∀ (i j : nat) p q hole,
     i ≠ j → res !! i = Some p → res !! j = Some q →
     hole ∈ claimed p → hole ∈ claimed q →
     pointInPolygon (hole_center hole) (polygon p) = true ∧
     pointInPolygon (hole_center hole) (polygon q) = true).
Proof.
  intros Hrun drills.
  assert (Hall : Forall (λ p, claimed p = filter (λ hole, claimable p hole = true) drills) res).
  { apply recover_cases in Hrun. fold drills in Hrun.
    destruct Hrun as [(_ & -> & _) | (_ & [(_ & -> & _) | (kerfs & remaining & _ & _ & Hres)])].
    - constructor.
    - apply attachDrillHolesToPanels_claimed. by repeat constructor.
    - assert (Hrec : Forall (λ p, claimed p = filter (λ hole, claimable p hole = true) drills)
                            (recoveredPanels opts remaining drills)).
      { apply attachDrillHolesToPanels_claimed. apply Forall_forall. intros p Hp.
        apply list_elem_of_omap in Hp as (piece & _ & Hp).
        by eapply panel_of_piece_no_drillHoles. }
      destruct Hres as [(_ & ->) | (_ & ->)].
      + apply attachDrillHolesToPanels_claimed. by repeat constructor.
      + apply Forall_forall. intros p Hp. apply finalPanels_subseteq in Hp.
        revert p Hp. by apply Forall_forall. }
  split; [by apply Forall_forall|].
  intros i j p q hole _ Hp Hq Hhp Hhq.
  assert (Hin : ∀ k r, res !! k = Some r → hole ∈ claimed r →
                       pointInPolygon (hole_center hole) (polygon r) = true).
  { intros k r Hr Hhr. apply list_elem_of_lookup_2 in Hr.
    rewrite (proj1 (Forall_forall _ _) Hall r Hr) in Hhr.
    apply list_elem_of_filter in Hhr as [Hc _].
    unfold claimable in Hc. by apply andb_true_iff in Hc as [_ ?]. }
  split; eauto.
Qed.

Lemma drill_holes_claimed_witness :
  Forall (λ p, claimed p = filter (λ hole, claimable p hole = true) [Sample.drill 500 250 8])
         (Sample.panels_of (@recoverPanelsFromRouting Sample.runtime Sample.no_clipper
                              no_options Sample.drilled_sheet_doc)).
Proof.
  apply Forall_forall.
  apply (drill_holes_claimed_by_containing_panels Sample.runtime Sample.no_clipper
           no_options Sample.drilled_sheet_doc _
           (@recoverPanelsFromRouting Sample.runtime Sample.no_clipper
              no_options Sample.drilled_sheet_doc).2).
  vm_compute. reflexivity.
Defined.

(** ** C2: through-cuts and the fallback *)

Lemma filter_none {A} (P : A → Prop) `{∀ x, Decision (P x)} (l : list A) :
  (∀ x, x ∈ l → ¬ P x) → filter P l = [].
Proof.
  induction l as [|x l IH]; intros Hl; [done|].
  rewrite filter_cons_False by (apply Hl; left).
  apply IH. intros y Hy. apply Hl. by right.
Qed.

Section ThroughCuts.
Context `{JsRuntime} `{ClipperLib}.
Variable opts : RecoverOptions.

Lemma addKerfsForPaths_cons path paths kerfs :
  addKerfsForPaths opts (path :: paths) kerfs
  = kerfs' ← addKerfsForPaths opts [path] kerfs; addKerfsForPaths opts paths kerfs'.
Proof.
  simpl. destruct (bool_decide _); [done|].
  destruct (_ || _); [done|].
  by destruct (offsetOpenPath _ _).
Qed.

Lemma addThroughCutKerfs_filter sheetT routing kerfs :
  addThroughCutKerfs opts sheetT routing kerfs
  = addKerfsForPaths opts
      (filter (λ path, isThroughCut path sheetT (depthRatio opts) = true) routing) kerfs.
Proof.
  revert kerfs. induction routing as [|path routing IH]; intros kerfs; [done|].
  cbn [addThroughCutKerfs]. rewrite filter_cons.
  destruct (isThroughCut path sheetT (depthRatio opts)) eqn:Hcut; simpl negb; cbv iota.
  - rewrite decide_True by done.
    rewrite (addKerfsForPaths_cons path (filter _ routing)).
    destruct (addKerfsForPaths opts [path] kerfs); cbn [mbind outcome_bind]; [apply IH|done].
  - rewrite decide_False by done. apply IH.
Qed.

End ThroughCuts.

(** C2, as stated, fails for a negative sheet thickness: with thickness -18
    and ratio 0.8 a path of depth 0 satisfies [0 >= -18 * 0.8], yet
    [isThroughCut] answers by [0 > 0]. *)
Lemma negative_thickness_is_not_compared :
  let path := new_path in
  let sheetThickness := num_of_Z (-18) in
  let ratio := num_of_Q (8 # 10) in
  @pathDepth Sample.runtime path = 0%js ∧
  @isThroughCut Sample.runtime path sheetThickness ratio = false ∧
  stated_through_cut (@pathDepth Sample.runtime path) sheetThickness ratio = true.
Proof. repeat split; reflexivity. Qed.

(** C2 (amended): a routing path is a through-cut iff its derived depth is
    at least [sheetThickness * depthRatio], except that with a sheet
    thickness that is zero, negative or unknown (read as [0]) it is a
    through-cut iff its depth is greater than zero; when the through-cuts
    yield a kerf, the kerfs are theirs, in order; and whenever no path
    qualifies but the routing list is not empty, the kerfs are those of all
    routing paths.  (What happens when paths qualify and none of them yields
    a kerf is left out.) *)
Theorem through_cut_classification (rt : JsRuntime) (clipper : ClipperLib) opts :
  (∀ path sheetThickness ratio,
     ((sheetThickness <=? 0)%js = true →
        isThroughCut path sheetThickness ratio = (pathDepth path >? 0)%js) ∧
     ((sheetThickness <=? 0)%js = false →
        isThroughCut path sheetThickness ratio
        = (pathDepth path >=? sheetThickness * ratio)%js)) ∧
  (∀ path ratio, isThroughCut path (default 0%js None) ratio = (pathDepth path >? 0)%js) ∧
  (∀ sheetT routing kerfs,
     addKerfsForPaths opts
       (filter (λ path, isThroughCut path sheetT (depthRatio opts) = true) routing) []
     = Normal kerfs →
     kerfs ≠ [] →
     collectKerfs opts sheetT routing = Normal kerfs) ∧
  (∀ sheetT routing,
     routing ≠ [] →
     (∀ path, path ∈ routing → isThroughCut path sheetT (depthRatio opts) = false) →
     collectKerfs opts sheetT routing = addKerfsForPaths opts routing []).
Proof.
  split; [|split; [|split]].
  - intros path sheetThickness ratio. unfold isThroughCut. split; by intros ->.
  - intros path ratio. reflexivity.
  - intros sheetT routing kerfs Hcuts Hne. unfold collectKerfs.
    rewrite addThroughCutKerfs_filter, Hcuts. cbn [mbind outcome_bind].
    by destruct kerfs.
  - intros sheetT routing Hne Hnone. unfold collectKerfs.
    rewrite addThroughCutKerfs_filter.
    replace (filter _ routing) with (@nil RoutingPath).
    + simpl. by destruct routing.
    + symmetry. apply filter_none. intros path Hpath.
      by rewrite (Hnone path Hpath).
Qed.

(** The case left out.  A plunge of one point to full depth qualifies as a
    through-cut and yields no kerf; the kerf list is then empty, and the
    groove of depth 0 beside it is cut although it does not qualify.  The
    comment in the source reads: if nothing qualified as through-cut, assume
    all routing are cuts. *)
Example groove_cut_beside_a_plunge :
  @isThroughCut Sample.runtime Sample.point_cut (num_of_Z 18) (num_of_Q (8 # 10)) = true ∧
  @isThroughCut Sample.runtime Sample.shallow_cut (num_of_Z 18) (num_of_Q (8 # 10)) = false ∧
  @addKerfsForPaths Sample.split_cut_clipper no_options [Sample.point_cut] [] = Normal [] ∧
  @collectKerfs Sample.runtime Sample.split_cut_clipper no_options (num_of_Z 18)
     [Sample.point_cut; Sample.shallow_cut]
  = @addKerfsForPaths Sample.split_cut_clipper no_options [Sample.shallow_cut] [] ∧
  @addKerfsForPaths Sample.split_cut_clipper no_options [Sample.shallow_cut] []
  = Normal [Sample.irect 497000 0 503000 500000].
Proof. repeat split; reflexivity. Qed.

(** ** C3: degenerate documents *)

Lemma Qfloor_half (z : Z) (q : Q) : (q == inject_Z z)%Q → Qfloor (q + (1 # 2)) = z.
Proof.
  intros Hq.
  pose proof (Qfloor_le (q + (1 # 2))) as Hle.
  pose proof (Qlt_floor (q + (1 # 2))) as Hlt.
  set (f := Qfloor (q + (1 # 2))) in *.
  assert (f < z + 1)%Z.
  { rewrite Zlt_Qlt, inject_Z_plus. change (inject_Z 1) with 1%Q. lra. }
  assert (z < f + 1)%Z.
  { rewrite Zlt_Qlt. lra. }
  lia.
Qed.

Lemma round_trip_on_grid (a : number) :
  on_grid a → (Math_round (a * SCALE) / SCALE)%js = a.
Proof.
  intros [z ->]. unfold num_of_Q, SCALE.
  change (num_of_Z 1000) with (Fin (Qc_of_Z 1000)). cbn [num_mul Math_round].
  match goal with |- context [Qfloor ?e] => assert (Hfloor : Qfloor e = z) end.
  { apply Qfloor_half. unfold Qcmult, Q2Qc, Qc_of_Z. cbn [this].
    rewrite !Qred_correct. unfold Qeq, Qmult, inject_Z. simpl. lia. }
  rewrite Hfloor. unfold num_of_Z. cbn [num_div].
  replace (Qc_is_zero (Qc_of_Z 1000)) with false by reflexivity.
  apply Fin_eq. unfold Qcdiv, Qcmult, Qcinv, Q2Qc, Qc_of_Z. cbn [this].
  rewrite !Qred_correct. unfold Qeq, Qmult, Qinv, inject_Z. simpl. lia.
Qed.

Lemma round_trip_zero : (Math_round (0 * SCALE) / SCALE)%js = 0%js.
Proof. apply (round_trip_on_grid 0%js). exists 0%Z. by apply Fin_eq. Qed.

Lemma full_sheet_rectangle_round_trip (w h : number) :
  on_grid w → on_grid h →
  fromPath (toPath (full_sheet_rectangle w h)) = full_sheet_rectangle w h.
Proof.
  intros Hw Hh. unfold full_sheet_rectangle, toPath, fromPath.
  cbn [map List.map X Y px py].
  by rewrite round_trip_zero, !round_trip_on_grid.
Qed.

Lemma num_gtb_not_leb (a : number) : (a >? 0)%js = true → (a <=? 0)%js = false.
Proof.
  unfold num_gtb. destruct a as [| | |x]; simpl; try done. intros Hx. qc_solve.
Qed.

(** C3, as stated, fails twice over.  On a sheet of width 100.0004 the
    polygon of the returned panel is the rectangle [0,0]-[100,50]: its
    corners went through the integer grid of clipper.  On the 1000 x 500
    sheet with one drill hole and no routing the area of the returned panel
    is smaller than 1000 x 500: the circle of the hole was subtracted. *)
Lemma whole_sheet_panel_differs :
  let fractional := Sample.panels_of (@recoverPanelsFromRouting Sample.runtime
                      Sample.no_clipper no_options Sample.fractional_sheet_doc) in
  let drilled := Sample.panels_of (@recoverPanelsFromRouting Sample.runtime
                   Sample.no_clipper no_options Sample.drilled_sheet_doc) in
  (length fractional = 1%nat ∧
   polygon (fractional !!! 0%nat)
   = [Sample.pt 0 0; Sample.pt 100 0; Sample.pt 100 50; Sample.pt 0 50] ∧
   polygon (fractional !!! 0%nat)
   ≠ full_sheet_rectangle (num_of_Q (1000004 # 10000)) (num_of_Z 50)) ∧
  (length drilled = 1%nat ∧
   polygon (drilled !!! 0%nat) = full_sheet_rectangle (num_of_Z 1000) (num_of_Z 500) ∧
   (area (drilled !!! 0%nat) <? num_of_Z 1000 * num_of_Z 500)%js = true ∧
   area (drilled !!! 0%nat) ≠ (num_of_Z 1000 * num_of_Z 500)%js).
Proof.
  intros fractional drilled.
  apply (bool_decide_eq_true_1 _). vm_compute. reflexivity.
Qed.

(** C3 (amended): if sheet width or height is [<= 0] the call returns the
    empty list, without raising and without touching the document; if both
    are positive and there are no routing paths it returns exactly one
    panel, the whole-sheet panel with the drill holes attached: its polygon
    is the rectangle [0,0]-[width,height] with the corners rounded to
    multiples of 1/1000 (the rectangle itself when width and height are such
    multiples), and its area is width x height when the document has no
    drill holes. *)
Theorem degenerate_documents (rt : JsRuntime) (clipper : ClipperLib) opts doc :
  let sheetW := default 0%js (sheet_width (metadata doc)) in
  let sheetH := default 0%js (sheet_height (metadata doc)) in
  let drills := default [] (drilling (metadata doc)) in
  ((sheetW <=? 0)%js = true ∨ (sheetH <=? 0)%js = true →
     recoverPanelsFromRouting opts doc = (Normal [], doc)) ∧
  ((sheetW >? 0)%js = true → (sheetH >? 0)%js = true →
   default [] (routing_paths (metadata doc)) = [] →
     ∃ p doc',
       recoverPanelsFromRouting opts doc = (Normal [p], doc') ∧
       [p] = attachDrillHolesToPanels [sheetPanel sheetW sheetH] drills ∧
       polygon p = fromPath (toPath (full_sheet_rectangle sheetW sheetH)) ∧
       (on_grid sheetW → on_grid sheetH → polygon p = full_sheet_rectangle sheetW sheetH) ∧
       (drills = [] → area p = (sheetW * sheetH)%js)).
Proof.
  intros sheetW sheetH drills. split.
  - intros Hdims. unfold recoverPanelsFromRouting, mbind, JsM_bind, get_doc.
    fold sheetW sheetH.
    replace ((sheetW <=? 0)%js || (sheetH <=? 0)%js) with true; [done|].
    symmetry. apply orb_true_iff. tauto.
  - intros HW HH Hrouting.
    apply num_gtb_not_leb in HW, HH.
    unfold recoverPanelsFromRouting, mbind, JsM_bind, get_doc, lift.
    fold sheetW sheetH drills. rewrite HW, HH, Hrouting. simpl orb. cbv iota.
    change (collectKerfs opts _ []) with (@Normal Paths []). cbv iota beta.
    change (is_empty (@nil Path)) with true. cbv iota.
    unfold modify_doc, mret, JsM_ret.
    assert (Hpoly : polygon (sheetPanel sheetW sheetH)
                    = fromPath (toPath (full_sheet_rectangle sheetW sheetH))) by done.
    unfold attachDrillHolesToPanels. destruct drills as [|hole drills'] eqn:Hdrills.
    + exists (sheetPanel sheetW sheetH). eexists. split; [reflexivity|].
      split; [done|]. split; [done|]. split; [|done].
      intros. rewrite Hpoly. by apply full_sheet_rectangle_round_trip.
    + exists (attach_panel (hole :: drills') (sheetPanel sheetW sheetH)). eexists.
      split; [reflexivity|]. split; [done|]. rewrite attach_panel_polygon.
      split; [done|]. split; [|done].
      intros. rewrite Hpoly. by apply full_sheet_rectangle_round_trip.
Qed.

Lemma degenerate_documents_witness :
  @recoverPanelsFromRouting Sample.runtime Sample.no_clipper no_options Sample.flat_sheet_doc
  = (Normal [], Sample.flat_sheet_doc) ∧
  ∃ p doc',
    @recoverPanelsFromRouting Sample.runtime Sample.no_clipper no_options
       Sample.drilled_sheet_doc = (Normal [p], doc') ∧
    polygon p = full_sheet_rectangle (num_of_Z 1000) (num_of_Z 500).
Proof.
  split.
  - apply (proj1 (degenerate_documents Sample.runtime Sample.no_clipper no_options
                    Sample.flat_sheet_doc)).
    left. reflexivity.
  - destruct (proj2 (degenerate_documents Sample.runtime Sample.no_clipper no_options
                       Sample.drilled_sheet_doc))
      as (p & doc' & Hrun & _ & _ & Hgrid & _); try reflexivity.
    exists p, doc'. split; [exact Hrun|].
    apply Hgrid; [exists 1000000%Z | exists 500000%Z]; by apply Fin_eq.
Defined.

(** ** C6: the label filter *)

Lemma pointInPolygonWithHoles_spec pt poly holes :
  pointInPolygonWithHoles pt poly holes = true ↔
  pointInPolygon pt poly = true ∧
  ∀ hole, hole ∈ holes → hole ≠ [] → pointInPolygon pt hole = false.
Proof.
  unfold pointInPolygonWithHoles.
  destruct (pointInPolygon pt poly); simpl; [|by split; [|intros []]].
  rewrite forallb_forall. split.
  - intros Hall. split; [done|]. intros hole Hhole Hne.
    apply list_elem_of_In, Hall in Hhole.
    rewrite bool_decide_eq_true_2 in Hhole by done.
    by destruct (pointInPolygon pt hole).
  - intros [_ Hall] hole Hhole. apply list_elem_of_In in Hhole.
    destruct (decide (hole = [])) as [->|Hne]; [done|].
    rewrite bool_decide_eq_true_2 by done. by rewrite (Hall hole Hhole Hne).
Qed.

Lemma is_labeled_spec labelPoints panel :
  is_labeled labelPoints panel = true ↔
  ∃ pt, pt ∈ labelPoints ∧
        pointInPolygon pt (polygon panel) = true ∧
        ∀ hole, hole ∈ default [] (holes panel) → hole ≠ [] →
                pointInPolygon pt hole = false.
Proof.
  unfold is_labeled. rewrite existsb_exists. split.
  - intros (pt & Hpt & Hin). exists pt. split; [by apply list_elem_of_In|].
    by apply pointInPolygonWithHoles_spec.
  - intros (pt & Hpt & Hin). exists pt. split; [by apply list_elem_of_In|].
    by apply pointInPolygonWithHoles_spec.
Qed.

Lemma labelPointsOf_spec doc pt :
  pt ∈ labelPointsOf doc ↔
  ∃ label, label ∈ panels doc ∧
           Number_isFinite (x_position (panel_metadata label)) = true ∧
           Number_isFinite (y_position (panel_metadata label)) = true ∧
           pt = {| px := x_position (panel_metadata label);
                   py := y_position (panel_metadata label) |}.
Proof.
  unfold labelPointsOf. rewrite list_elem_of_omap. unfold labelPoint.
  split; intros (label & Hlabel & Hpt); exists label; (split; [done|]).
  - destruct (Number_isFinite (x_position _)), (Number_isFinite (y_position _));
      simpl in Hpt; try done. by injection Hpt as <-.
  - destruct Hpt as (Hx & Hy & ->). by rewrite Hx, Hy.
Qed.

Section LabelFilter.
Context `{JsRuntime} `{ClipperLib}.

(** The run of [recoverPanelsFromRouting] on which pieces survive. *)
Lemma recover_final_panels opts doc kerfs kerfUnion remaining doc2 :
  let sheetW := default 0%js (sheet_width (metadata doc)) in
  let sheetH := default 0%js (sheet_height (metadata doc)) in
  let sheetT := default 0%js (sheet_thickness (metadata doc)) in
  let routing := default [] (routing_paths (metadata doc)) in
  let drills := default [] (drilling (metadata doc)) in
  (sheetW <=? 0)%js || (sheetH <=? 0)%js = false →
  collectKerfs opts sheetT routing = Normal kerfs →
  kerfs ≠ [] →
  unionPaths kerfs = Normal kerfUnion →
  remainingPieces [sheetRect sheetW sheetH] kerfUnion
    (set_kerf_polygons (kerfPolygonsOf kerfUnion) doc) = (Normal remaining, doc2) →
  recoveredPanels opts remaining drills ≠ [] →
  ∃ doc',
    recoverPanelsFromRouting opts doc
    = (Normal (finalPanels (labelPointsOf doc) (recoveredPanels opts remaining drills)), doc').
Proof.
  intros sheetW sheetH sheetT routing drills Hdims Hkerfs Hne Hunion Hrem Hrec.
  unfold recoverPanelsFromRouting, mbind, JsM_bind, get_doc, lift.
  fold sheetW sheetH sheetT routing drills.
  rewrite Hdims, Hkerfs.
  apply is_empty_false in Hne, Hrec. rewrite Hne, Hunion.
  unfold modify_doc at 1. rewrite Hrem, Hrec.
  destruct (removedShapes _ _ _ _ _) as [[removed|err] doc3] eqn:Hremoved.
  - unfold modify_doc, mret, JsM_ret. eauto.
  - exfalso. revert Hremoved. unfold removedShapes, try_catch, mbind, JsM_bind, lift, mret, JsM_ret.
    destruct (negb _); [|done]. by destruct (differenceWithHoles _ _).
Qed.

Lemma finalPanels_spec labelPoints survivors :
  let kept := filter (λ panel, is_labeled labelPoints panel = true) survivors in
  (labelPoints ≠ [] → kept ≠ [] → finalPanels labelPoints survivors = kept) ∧
  (labelPoints ≠ [] → kept = [] → finalPanels labelPoints survivors = survivors) ∧
  (labelPoints = [] → finalPanels labelPoints survivors = survivors).
Proof.
  unfold finalPanels, labeledPanels.
  destruct labelPoints as [|pt pts]; simpl; [done|].
  by destruct (filter _ survivors).
Qed.

End LabelFilter.

(** C6: on the run of [recoverPanelsFromRouting] where pieces survive (the
    sheet has positive dimensions, there are kerfs, and the pieces left by
    the subtraction yield at least one panel), the call returns: if some
    label placement has finite coordinates, the survivors whose outer ring
    contains a label position that lies in none of their holes, unless no
    survivor is such; in that case, and when no label has finite
    coordinates, all survivors. *)
Theorem label_filter (rt : JsRuntime) (clipper : ClipperLib)
    opts doc kerfs kerfUnion remaining doc2 :
  let sheetW := default 0%js (sheet_width (metadata doc)) in
  let sheetH := default 0%js (sheet_height (metadata doc)) in
  let sheetT := default 0%js (sheet_thickness (metadata doc)) in
  let routing := default [] (routing_paths (metadata doc)) in
  let drills := default [] (drilling (metadata doc)) in
  let labelPoints := labelPointsOf doc in
  (sheetW <=? 0)%js || (sheetH <=? 0)%js = false →
  collectKerfs opts sheetT routing = Normal kerfs →
  kerfs ≠ [] →
  unionPaths kerfs = Normal kerfUnion →
  remainingPieces [sheetRect sheetW sheetH] kerfUnion
    (set_kerf_polygons (kerfPolygonsOf kerfUnion) doc) = (Normal remaining, doc2) →
  let survivors := recoveredPanels opts remaining drills in
  let kept := filter (λ panel, is_labeled labelPoints panel = true) survivors in
  survivors ≠ [] →
  (∃ res doc',
     recoverPanelsFromRouting opts doc = (Normal res, doc') ∧
     (labelPoints ≠ [] → kept ≠ [] → res = kept) ∧
     (labelPoints ≠ [] → kept = [] → res = survivors) ∧
     (labelPoints = [] → res = survivors)) ∧
  (labelPoints ≠ [] ↔
     ∃ label, label ∈ panels doc ∧
              Number_isFinite (x_position (panel_metadata label)) = true ∧
              Number_isFinite (y_position (panel_metadata label)) = true) ∧
  (∀ panel, is_labeled labelPoints panel = true ↔
            ∃ label, label ∈ panels doc ∧
                     Number_isFinite (x_position (panel_metadata label)) = true ∧
                     Number_isFinite (y_position (panel_metadata label)) = true ∧
                     let pt := {| px := x_position (panel_metadata label);
                                  py := y_position (panel_metadata label) |} in
                     pointInPolygon pt (polygon panel) = true ∧
                     ∀ hole, hole ∈ default [] (holes panel) → hole ≠ [] →
                             pointInPolygon pt hole = false).
Proof.
  intros sheetW sheetH sheetT routing drills labelPoints Hdims Hkerfs Hne Hunion Hrem
         survivors kept Hsurvivors.
  split; [|split].
  - destruct (recover_final_panels opts doc kerfs kerfUnion remaining doc2
                Hdims Hkerfs Hne Hunion Hrem Hsurvivors) as [doc' Hrun].
    exists (finalPanels labelPoints survivors), doc'. split; [exact Hrun|].
    apply finalPanels_spec.
  - split.
    + intros Hlabels. destruct labelPoints as [|pt pts] eqn:Hpts; [done|].
      assert (Hpt : pt ∈ labelPointsOf doc) by (fold labelPoints; rewrite Hpts; left).
      apply labelPointsOf_spec in Hpt as (label & ? & ? & ? & _). eauto.
    + intros (label & Hlabel & Hx & Hy) Hnil.
      assert (Hpt : {| px := x_position (panel_metadata label);
                       py := y_position (panel_metadata label) |} ∈ labelPointsOf doc).
      { apply labelPointsOf_spec. eauto 6. }
      fold labelPoints in Hpt. rewrite Hnil in Hpt. by apply elem_of_nil in Hpt.
  - intros panel. rewrite is_labeled_spec. split.
    + intros (pt & Hpt & Hin & Hholes).
      apply labelPointsOf_spec in Hpt as (label & ? & ? & ? & ->). eauto 8.
    + intros (label & Hlabel & Hx & Hy & Hin & Hholes).
      eexists. split; [apply labelPointsOf_spec; eauto 6|]. eauto.
Qed.

Lemma label_filter_witness :
  ∃ res doc',
    @recoverPanelsFromRouting Sample.runtime Sample.split_cut_clipper no_options
       Sample.split_cut_doc = (Normal res, doc') ∧
    (labelPointsOf Sample.split_cut_doc ≠ [] →
     filter (λ panel, is_labeled (labelPointsOf Sample.split_cut_doc) panel = true)
            (@recoveredPanels Sample.runtime Sample.split_cut_clipper no_options
               Sample.split_remaining.1 []) ≠ [] →
     res = filter (λ panel, is_labeled (labelPointsOf Sample.split_cut_doc) panel = true)
                  (@recoveredPanels Sample.runtime Sample.split_cut_clipper no_options
                     Sample.split_remaining.1 [])).
Proof.
  destruct (label_filter Sample.runtime Sample.split_cut_clipper no_options
              Sample.split_cut_doc Sample.split_kerfs Sample.split_kerfs
              Sample.split_remaining.1 Sample.split_remaining.2)
    as ((res & doc' & Hrun & Hkept & _) & _).
  - reflexivity.
  - vm_compute. reflexivity.
  - discriminate.
  - vm_compute. reflexivity.
  - vm_compute. reflexivity.
  - apply (bool_decide_eq_true_1 _). vm_compute. reflexivity.
  - exists res, doc'. split; [exact Hrun | exact Hkept].
Defined.

(** The scenario of the specification: two regions, one label inside the
    first; the final list is exactly the first region. *)
Example label_selects_left_panel :
  polygon <$> Sample.panels_of (@recoverPanelsFromRouting Sample.runtime
                Sample.split_cut_clipper no_options Sample.split_cut_doc)
  = [[Sample.pt 0 0; Sample.pt 497 0; Sample.pt 497 500; Sample.pt 0 500]].
Proof. apply (bool_decide_eq_true_1 _). vm_compute. reflexivity. Qed.

Lemma through_cut_classification_witness :
  @isThroughCut Sample.runtime Sample.ring_cut (num_of_Z (-18)) (num_of_Q (8 # 10))
  = (@pathDepth Sample.runtime Sample.ring_cut >? 0)%js ∧
  @isThroughCut Sample.runtime Sample.ring_cut (num_of_Z 18) (num_of_Q (8 # 10))
  = (@pathDepth Sample.runtime Sample.ring_cut >=? num_of_Z 18 * num_of_Q (8 # 10))%js ∧
  @collectKerfs Sample.runtime Sample.split_cut_clipper no_options (num_of_Z 18)
     [Sample.split_cut; Sample.shallow_cut]
  = Normal [Sample.irect 497000 0 503000 500000] ∧
  @collectKerfs Sample.runtime Sample.split_cut_clipper no_options (num_of_Z 18)
     [Sample.shallow_cut]
  = @addKerfsForPaths Sample.split_cut_clipper no_options [Sample.shallow_cut] [].
Proof.
  destruct (through_cut_classification Sample.runtime Sample.split_cut_clipper no_options)
    as (Hclass & _ & Hcuts & Hfallback).
  split; [|split; [|split]].
  - apply (proj1 (Hclass Sample.ring_cut (num_of_Z (-18)) (num_of_Q (8 # 10)))). reflexivity.
  - apply (proj2 (Hclass Sample.ring_cut (num_of_Z 18) (num_of_Q (8 # 10)))). reflexivity.
  - apply Hcuts; [reflexivity | discriminate].
  - apply Hfallback; [discriminate|].
    intros path Hpath. apply list_elem_of_singleton in Hpath as ->. reflexivity.
Defined.

(** ** The parser never throws *)

Section ParserFacts.
Context `{JsRuntime}.



(** [parseContent] returns normally on every content and every document. *)
Lemma parseContent_normal content cix :
  ∃ cix', parseContent content cix = (Normal tt, cix').
Proof.
  unfold parseContent, mbind, JsM_bind, modify_doc, mret, JsM_ret.
  destruct (bool_decide _); eauto.
Qed.



Lemma parseContent_routing content cix :
  let lines := split content newline in
  routing_paths (metadata (parseContent content cix).2)
  = Some (parseRoutingPaths lines (default 0%js (parseMaindata lines !! "LPY"))).
Proof.
  unfold parseContent, mbind, JsM_bind, modify_doc, mret, JsM_ret.
  destruct (bool_decide _); done.
Qed.

Lemma push_panels_filename labels cix :
  filename (foldl (λ cix panel, push_panel panel cix) cix labels) = filename cix.
Proof. revert cix. induction labels as [|l labels IH]; intros cix; [done|]. simpl. by rewrite IH. Qed.

Lemma push_panels_raw_content labels cix :
  raw_content (foldl (λ cix panel, push_panel panel cix) cix labels) = raw_content cix.
Proof. revert cix. induction labels as [|l labels IH]; intros cix; [done|]. simpl. by rewrite IH. Qed.

Lemma parseContent_identity content cix :
  filename (parseContent content cix).2 = filename cix ∧
  raw_content (parseContent content cix).2 = raw_content cix.
Proof.
  unfold parseContent, mbind, JsM_bind, modify_doc, mret, JsM_ret.
  destruct (bool_decide _); simpl;
    by rewrite push_panels_filename, push_panels_raw_content.
Qed.

Lemma parse_run content name :
  parse content name
  = Normal (parseContent content (new_document content name)).2.
Proof.
  unfold parse, parse_with, try_catch.
  destruct (parseContent_normal content (new_document content name)) as [cix' Hrun].
  by rewrite Hrun.
Qed.

End ParserFacts.

(** An infinite sheet height can come out of [parse]: [Number.parseFloat]
    reads the literal [Infinity]. *)
Example infinite_height_is_parsed :
  ∃ doc,
    @parse Sample.runtime Sample.unbounded_text "sheet.cix" = Normal doc ∧
    sheet_height (metadata doc) = Some PosInf.
Proof. eexists. split; [apply parse_run|]. vm_compute. reflexivity. Qed.

(** ** [parse] and its handler *)

(** Where the text handed to [eval] does nothing but return or throw, as it
    does in this model: whatever the body of [parseContent] does -- return,
    or throw after having filled the document in part -- [parse] returns a
    document: the document as the body left it, with the message of the
    exception appended to [parse_errors] when the body threw.  (Text that
    [eval] runs can do more: once it has replaced [Array.prototype.push] by
    a function that throws, the [push] of the handler throws as well and
    [parse] raises.) *)
Lemma parse_returns_in_the_model (rt : JsRuntime) :
  (∀ (body : string → JsM unit) content name,
     ∃ doc,
       parse_with body content name = Normal doc ∧
       match body content (new_document content name) with
       | (Normal _, partial) => doc = partial
       | (Thrown err, partial) =>
           doc = push_parse_error (message_of None err) partial ∧
           parse_errors doc = parse_errors partial ++ [message_of None err] ∧
           metadata doc = metadata partial ∧ panels doc = panels partial
       end) ∧
  (∀ content name,
     ∃ doc,
       parse content name = Normal doc ∧
       filename doc = name ∧ raw_content doc = content).
Proof.
  split.
  - intros body content name. unfold parse_with, try_catch.
    destruct (body content (new_document content name)) as [[[]|err] partial].
    + by exists partial.
    + exists (push_parse_error (message_of None err) partial). by repeat split.
  - intros content name. rewrite parse_run. eexists. split; [done|].
    by destruct (parseContent_identity content (new_document content name)) as [-> ->].
Qed.

(** A body that stores the sheet size and then throws: the document comes
    back with the size and with the message. *)
Example parse_keeps_partial_result :
  let body (_ : string) : JsM unit :=
    _ ← modify_doc (set_sheet (num_of_Z 1000) (num_of_Z 500) (num_of_Z 18));
    lift (Thrown (ThrownError "boom")) in
  ∃ doc,
    parse_with body EmptyString "a.cix" = Normal doc ∧
    sheet_width (metadata doc) = Some (num_of_Z 1000) ∧
    parse_errors doc = ["boom"].
Proof. eexists. repeat split. Qed.

(** ** C10: the sheet metadata and its defaults *)

Section Maindata.
Context `{JsRuntime}.



(** Only the three sheet keys are stored, and never with [NaN]. *)
Lemma maindata_entry_key line key v :
  maindata_entry line = Some (key, v) → key ∈ sheet_keys ∧ v ≠ NaN.
Proof.
  unfold maindata_entry. destruct (includes line "="); [|done].
  destruct (split_limit line "=" 2) as [|keyRaw [|valueRaw ?]]; try done.
  destruct (bool_decide _) eqn:Hkey; [|done].
  apply bool_decide_eq_true in Hkey.
  destruct (Number_parseFloat _) eqn:Hparsed; simpl; try done;
    intros [= <- <-]; by split.
Qed.

End Maindata.



(** ** C7: the expansion of a repeated BV macro *)


Section Drilling.
Context `{JsRuntime}.







End Drilling.




(** The scenario of the specification: NRP=3, DX=50, DY=0 at (100,100) with
    diameter 8 on a sheet of height 500 gives three holes at x = 100, 150,
    200, all at the flipped y = 400. *)
Example bv_scenario :
  ∃ doc,
    @parse Sample.runtime Sample.sample_text "sheet.cix" = Normal doc ∧
    (λ hole, (hole_x hole, hole_y hole, hole_diameter hole)) <$> default [] (drilling (metadata doc))
    = [ (num_of_Z 100, num_of_Z 400, num_of_Z 8);
        (num_of_Z 150, num_of_Z 400, num_of_Z 8);
        (num_of_Z 200, num_of_Z 400, num_of_Z 8) ].
Proof.
  eexists. split; [apply parse_run|].
  apply (bool_decide_eq_true_1 _). vm_compute. reflexivity.
Qed.

(** ** C5: the derived depth *)

Lemma nonneg_0 : nonneg 0%js.
Proof. reflexivity. Qed.

Lemma Math_abs_nonneg (a : number) : a ≠ NaN → nonneg (Math_abs a).
Proof.
  unfold nonneg. destruct a as [| | |x]; simpl; try done. intros _.
  match goal with |- context [Qc_ltb x ?z] => destruct (Qc_ltb x z) eqn:E end; qc_solve.
Qed.

Lemma Math_abs_of_nonneg (a : number) : nonneg a → Math_abs a = a.
Proof.
  unfold nonneg. destruct a as [| | |x]; simpl; try done. intros Hx.
  match goal with |- context [Qc_ltb x ?z] => replace (Qc_ltb x z) with false end;
    [done|]. symmetry. qc_solve.
Qed.

Lemma num_leb_refl (a : number) : nonneg a → (a <=? a)%js = true.
Proof. unfold nonneg. destruct a as [| | |x]; simpl; try done. intros _. qc_solve. Qed.

Lemma num_leb_trans (a b c : number) :
  (a <=? b)%js = true → (b <=? c)%js = true → (a <=? c)%js = true.
Proof.
  destruct a as [| | |x], b as [| | |y], c as [| | |z]; simpl; try done.
  intros Hxy Hyz. qc_solve.
Qed.

Lemma Math_max_nonneg (a b : number) :
  nonneg a → nonneg b →
  nonneg (Math_max a b) ∧
  (a <=? Math_max a b)%js = true ∧ (b <=? Math_max a b)%js = true ∧
  (Math_max a b = a ∨ Math_max a b = b).
Proof.
  unfold nonneg.
  destruct a as [| | |x], b as [| | |y]; simpl; try done; try (intros; tauto).
  intros Hx Hy. destruct (Qc_ltb x y) eqn:E;
    repeat split; try done; try qc_solve; auto.
Qed.

Lemma Math_max_0_r (a : number) : nonneg a → Math_max a 0%js = a.
Proof.
  unfold nonneg. destruct a as [| | |x]; simpl; try done. intros Hx.
  replace (Qc_ltb x (Qc_of_Z 0)) with false; [done|]. symmetry. qc_solve.
Qed.

Lemma is_maximum_snoc (m v : number) (l : list number) :
  nonneg m → nonneg v → is_maximum m l → is_maximum (Math_max m v) (l ++ [v]).
Proof.
  intros Hm Hv [Hin Hub].
  destruct (Math_max_nonneg m v Hm Hv) as (_ & Hle_m & Hle_v & Hcase).
  split.
  - rewrite elem_of_app, list_elem_of_singleton. destruct Hcase as [-> | ->]; auto.
  - intros x Hx. apply elem_of_app in Hx as [Hx | Hx].
    + eapply num_leb_trans; [by apply Hub | done].
    + by apply list_elem_of_singleton in Hx as ->.
Qed.

Section Depth.
Context `{JsRuntime}.

(** [tryParse] of a parameter is its source when it is present and finite,
    and [0] otherwise. *)
Lemma tryParse_depth_parameter path key :
  tryParse (params path !! key) = default 0%js (depth_parameter path key) ∧
  (∀ v, depth_parameter path key = Some v → nonneg v).
Proof.
  unfold tryParse, depth_parameter.
  destruct (params path !! key) as [s|]; simpl; [|done].
  destruct (Number_of_string s) as [| | |x] eqn:Hn; simpl; try done.
  split; [done|]. intros v [= <-]. by apply (Math_abs_nonneg (Fin x)).
Qed.

Lemma fold_sources path keys m l :
  nonneg m → is_maximum m l →
  let m' := foldl (λ depth key, Math_max depth (tryParse (params path !! key))) m keys in
  nonneg m' ∧ is_maximum m' (l ++ omap (depth_parameter path) keys).
Proof.
  revert m l. induction keys as [|key keys IH]; intros m l Hm Hmax; simpl.
  { by rewrite app_nil_r. }
  destruct (tryParse_depth_parameter path key) as [-> Hnonneg].
  destruct (depth_parameter path key) as [v|]; simpl.
  - specialize (Hnonneg v eq_refl).
    destruct (Math_max_nonneg m v Hm Hnonneg) as (Hm' & _).
    destruct (IH (Math_max m v) (l ++ [v]) Hm' (is_maximum_snoc m v l Hm Hnonneg Hmax))
      as [? Hmax'].
    split; [done|]. by rewrite <- app_assoc in Hmax'.
  - rewrite Math_max_0_r by done. by apply IH.
Qed.

(** The derived depth is the maximum of its sources. *)
Lemma pathDepth_is_maximum path :
  nonneg (max_depth path) → is_maximum (pathDepth path) (depth_sources path).
Proof.
  intros Hm.
  change (pathDepth path)
    with (foldl (λ depth key, Math_max depth (tryParse (params path !! key)))
                (Math_abs (max_depth path)) ["PR"; "DP"; "ZE"; "Z"]).
  rewrite Math_abs_of_nonneg by done.
  apply (fold_sources path _ (max_depth path) [max_depth path]); [done|].
  split; [by left|]. intros x Hx. apply list_elem_of_singleton in Hx as ->.
  by apply num_leb_refl.
Qed.

End Depth.

(** *** What the routing pass records *)

Lemma depth_of_points_snoc pts p :
  depth_of_points (pts ++ [p])
  = match rp_z p with
    | Some z => if (z <? 0)%js then Math_max (depth_of_points pts) (Math_abs z)
                else depth_of_points pts
    | None => depth_of_points pts
    end.
Proof. unfold depth_of_points. by rewrite foldl_app. Qed.

Lemma fold_depths pts m l :
  nonneg m → is_maximum m l →
  let m' := foldl (λ depth p,
                     match rp_z p with
                     | Some z => if (z <? 0)%js then Math_max depth (Math_abs z) else depth
                     | None => depth
                     end) m pts in
  nonneg m' ∧ is_maximum m' (l ++ negative_depths pts).
Proof.
  revert m l. induction pts as [|p pts IH]; intros m l Hm Hmax; simpl.
  { by rewrite app_nil_r. }
  unfold negative_depths. cbn [omap list_omap]. fold (negative_depths pts).
  destruct (rp_z p) as [z|]; simpl; [|by apply IH].
  destruct (z <? 0)%js eqn:Hz; [|by apply IH].
  assert (Hv : nonneg (Math_abs z)) by (apply Math_abs_nonneg; by intros ->).
  destruct (Math_max_nonneg m (Math_abs z) Hm Hv) as (Hm' & _).
  destruct (IH (Math_max m (Math_abs z)) (l ++ [Math_abs z]) Hm'
              (is_maximum_snoc m (Math_abs z) l Hm Hv Hmax)) as [? Hmax'].
  split; [done|]. by rewrite <- app_assoc in Hmax'.
Qed.

(** The depth recorded by a list of points is the largest of [0] and the
    depths of its points below the surface. *)
Lemma depth_of_points_is_maximum pts :
  is_maximum (depth_of_points pts) (0%js :: negative_depths pts).
Proof.
  apply (fold_depths pts 0%js [0%js]); [done|].
  split; [by left|]. intros x Hx. by apply list_elem_of_singleton in Hx as ->.
Qed.

Lemma depth_recorded_new_path : depth_recorded new_path.
Proof. by split. Qed.

Lemma depth_recorded_set_param name value p :
  depth_recorded p → depth_recorded (set_param name value p).
Proof. by intros []. Qed.

Lemma depth_recorded_set_diameter dia p :
  depth_recorded p → depth_recorded (set_diameter dia p).
Proof. by intros []. Qed.

Lemma depth_recorded_set_id pathId p :
  depth_recorded p → depth_recorded (set_id pathId p).
Proof. by intros []. Qed.

Lemma depth_recorded_push_start sheetHeight x y p :
  depth_recorded p → depth_recorded (push_start sheetHeight x y p).
Proof.
  intros [Hdepth Hnonneg]. split; [|done].
  unfold push_start. cbn [max_depth points]. by rewrite depth_of_points_snoc.
Qed.

Lemma depth_recorded_push_segment sheetHeight kind xe ye ze center p :
  depth_recorded p → depth_recorded (push_segment sheetHeight kind xe ye ze center p).
Proof.
  intros [Hdepth Hnonneg]. unfold depth_recorded, push_segment. cbn [max_depth points].
  rewrite depth_of_points_snoc. cbn [rp_z]. rewrite <- Hdepth.
  split; [done|].
  destruct (ze <? 0)%js eqn:Hze; [|done].
  apply Math_max_nonneg; [done|]. apply Math_abs_nonneg. by intros ->.
Qed.

Section RoutingPass.
Context `{JsRuntime}.

Lemma rout_header_depth_recorded lines cur :
  depth_recorded cur → depth_recorded (rout_header lines cur).1.
Proof.
  revert cur. induction lines as [|raw lines IH]; intros cur Hcur; [done|]. simpl.
  destruct (startsWith (trim raw) "END MACRO"); [done|].
  match goal with |- context [rout_header lines ?c] =>
    assert (Hnext : depth_recorded c); [|specialize (IH c Hnext);
                                         by destruct (rout_header lines c)] end.
  destruct (startsWith (trim raw) "PARAM"); [|done].
  destruct (named_value _) as [[name value]|]; [|done].
  destruct (String.eqb name "DIA"); [|by apply depth_recorded_set_param].
  destruct (negb _);
    [apply depth_recorded_set_diameter|]; by apply depth_recorded_set_param.
Qed.

Lemma paths_satisfy_map_current (f : RoutingPath → RoutingPath) st b :
  (∀ p, depth_recorded p → depth_recorded (f p)) →
  paths_satisfy depth_recorded st →
  paths_satisfy depth_recorded
    {| routing := routing st; inRout := b; current := f <$> current st |}.
Proof.
  intros Hf [Hrouting Hcurrent]. split; [done|]. cbn [current].
  intros cur Hcur. destruct (current st) as [c|]; [|done].
  injection Hcur as <-. by apply Hf, Hcurrent.
Qed.

Lemma routing_step_depth_recorded sheetHeight st raw rest :
  paths_satisfy depth_recorded st →
  paths_satisfy depth_recorded (routing_step sheetHeight st raw rest).1.
Proof.
  intros Hst. unfold routing_step.
  destruct (startsWith (trim raw) "BEGIN MACRO").
  { destruct (_ && _); [|done].
    pose proof (rout_header_depth_recorded rest new_path depth_recorded_new_path) as Hcur.
    destruct (rout_header rest new_path) as [cur n]. split; [apply Hst|].
    cbn [fst current]. by intros ? [= <-]. }
  destruct (inRout st && includes (trim raw) "NAME=START_POINT").
  { destruct (scan_block _ rest ∅) as [vals n]. cbn [fst].
    apply paths_satisfy_map_current; [|done].
    intros p. apply depth_recorded_push_start. }
  destruct (inRout st && includes (trim raw) "NAME=LINE_EP").
  { destruct (scan_block _ rest ∅) as [vals n]. cbn [fst].
    apply paths_satisfy_map_current; [|done].
    intros p. apply depth_recorded_push_segment. }
  destruct (inRout st && (_ || _)).
  { destruct (scan_block _ rest ∅) as [vals n]. cbn [fst].
    apply paths_satisfy_map_current; [|done].
    intros p. apply depth_recorded_push_segment. }
  destruct (inRout st && includes (trim raw) "NAME=ARC_EPCE").
  { destruct (scan_block _ rest ∅) as [vals n]. cbn [fst].
    apply paths_satisfy_map_current; [|done].
    intros p. apply depth_recorded_push_segment. }
  destruct (inRout st && includes (trim raw) "NAME=ENDPATH"); [|done].
  destruct (scan_block _ rest ∅) as [vals n]. cbn [fst].
  destruct Hst as [Hrouting Hcurrent]. split; [|done]. cbn [routing].
  destruct (current st) as [cur|]; [|done].
  destruct (negb _); [|done].
  apply Forall_app. split; [done|].
  constructor; [|constructor]. by apply depth_recorded_set_id, Hcurrent.
Qed.

Lemma parseRoutingPaths_loop_depth_recorded sheetHeight skip st lines :
  paths_satisfy depth_recorded st →
  Forall depth_recorded (parseRoutingPaths_loop sheetHeight skip st lines).
Proof.
  revert skip st. induction lines as [|raw rest IH]; intros skip st Hst; simpl.
  { apply Hst. }
  destruct skip as [|k]; [|by apply IH].
  pose proof (routing_step_depth_recorded sheetHeight st raw rest Hst) as Hstep.
  destruct (routing_step sheetHeight st raw rest) as [st' n]. by apply IH.
Qed.

Lemma parseRoutingPaths_depth_recorded lines sheetHeight :
  Forall depth_recorded (parseRoutingPaths lines sheetHeight).
Proof.
  apply parseRoutingPaths_loop_depth_recorded. split; [constructor|done].
Qed.

End RoutingPass.

(** C5: every path that the routing pass returns has as [max_depth] the
    largest [|z|] among the negative [z] of its points ([0] when there is
    none), and its derived depth is the maximum of all its sources at once:
    that [max_depth] and the absolute values of the parameters PR, DP, ZE
    and Z that are present and finite.  The second fact holds for every
    path whose [max_depth] is [>= 0]. *)
Theorem derived_depth (rt : JsRuntime) :
  (∀ lines sheetHeight path,
     path ∈ parseRoutingPaths lines sheetHeight →
     is_maximum (max_depth path) (0%js :: negative_depths (points path)) ∧
     is_maximum (pathDepth path) (depth_sources path)) ∧
  (∀ path, nonneg (max_depth path) → is_maximum (pathDepth path) (depth_sources path)).
Proof.
  split; [|exact pathDepth_is_maximum].
  intros lines sheetHeight path Hpath.
  pose proof (parseRoutingPaths_depth_recorded lines sheetHeight) as Hall.
  destruct (proj1 (Forall_forall _ _) Hall path Hpath) as [Hdepth Hnonneg].
  split; [|by apply pathDepth_is_maximum].
  rewrite Hdepth. apply depth_of_points_is_maximum.
Qed.

Lemma derived_depth_witness :
  (is_maximum (max_depth Sample.sample_route)
              (0%js :: negative_depths (points Sample.sample_route)) ∧
   is_maximum (@pathDepth Sample.runtime Sample.sample_route)
              (@depth_sources Sample.runtime Sample.sample_route)) ∧
  is_maximum (@pathDepth Sample.runtime Sample.ring_cut)
             (@depth_sources Sample.runtime Sample.ring_cut).
Proof.
  destruct (derived_depth Sample.runtime) as [Hparsed Hany]. split.
  - apply (Hparsed (split Sample.sample_text newline) (num_of_Z 500)).
    apply (list_elem_of_lookup_2 _ 0%nat). vm_compute. reflexivity.
  - apply Hany. reflexivity.
Defined.

(** In [Sample.sample_text] the routed line goes down to [z = -18] and the
    macro carries [DP=12]: the derived depth is 18. *)
Example derived_depth_of_sample_route :
  max_depth Sample.sample_route = num_of_Z 18 ∧
  negative_depths (points Sample.sample_route) = [num_of_Z 18] ∧
  @depth_sources Sample.runtime Sample.sample_route = [num_of_Z 18; num_of_Z 12] ∧
  @pathDepth Sample.runtime Sample.sample_route = num_of_Z 18.
Proof. apply (bool_decide_eq_true_1 _). vm_compute. reflexivity. Qed.
(** * Further properties of the code *)

(** ** The integer grid of clipper ([toPath], [fromPath]) *)

Lemma Math_round_integer (x : Qc) (z : Z) :
  (this x == inject_Z z)%Q → Math_round (Fin x) = num_of_Z z.
Proof. intros Hx. cbn [Math_round]. f_equal. by apply Qfloor_half. Qed.

Lemma scale_is_not_zero : Qc_is_zero (Qc_of_Z 1000) = false.
Proof. reflexivity. Qed.

Lemma unscale_rescale (z : Z) :
  Math_round (num_of_Z z / SCALE * SCALE) = num_of_Z z.
Proof.
  unfold SCALE, num_of_Z. cbn [num_div]. rewrite scale_is_not_zero. cbn [num_mul].
  apply Math_round_integer.
  unfold Qcdiv, Qcmult, Qcinv, Q2Qc, Qc_of_Z. cbn [this].
  rewrite !Qred_correct. unfold Qeq, Qmult, Qinv, inject_Z. simpl. lia.
Qed.

Lemma toPath_integer (pts : list Vec2) :
  Forall finite_point pts → Forall integer_point (toPath pts).
Proof.
  intros Hfin. unfold toPath. apply Forall_fmap.
  eapply Forall_impl; [exact Hfin|].
  intros [x y] [Hx Hy]. simpl in *.
  apply finite_is_Fin in Hx as [qx ->]. apply finite_is_Fin in Hy as [qy ->].
  unfold SCALE, num_of_Z. cbn [num_mul Math_round]. by eexists _, _.
Qed.

Lemma toPath_fromPath (path : Path) :
  Forall integer_point path → toPath (fromPath path) = path.
Proof.
  intros Hint. unfold toPath, fromPath. rewrite <- list_fmap_compose.
  rewrite <- (list_fmap_id path) at 2.
  apply Forall_fmap_ext_1. eapply Forall_impl; [exact Hint|].
  intros p (x & y & ->). unfold compose. cbn [X Y px py id].
  by rewrite !unscale_rescale.
Qed.

(** X1: the conversion to the integer grid of clipper and back.  A path
    with integer coordinates survives [fromPath] followed by [toPath]
    unchanged; [toPath] of points with finite coordinates is such a path;
    hence snapping finite points to the grid ([toPath] followed by
    [fromPath]) a second time changes nothing. *)
Theorem clipper_grid_round_trip :
  (∀ path, Forall integer_point path → toPath (fromPath path) = path) ∧
  (∀ pts, Forall finite_point pts → Forall integer_point (toPath pts)) ∧
  (∀ pts, Forall finite_point pts →
     fromPath (toPath (fromPath (toPath pts))) = fromPath (toPath pts)).
Proof.
  split; [exact toPath_fromPath|]. split; [exact toPath_integer|].
  intros pts Hfin. by rewrite toPath_fromPath by by apply toPath_integer.
Qed.

Lemma clipper_grid_round_trip_witness :
  toPath (fromPath (Sample.irect 0 0 1000000 500000)) = Sample.irect 0 0 1000000 500000 ∧
  fromPath (toPath (fromPath (toPath [ {| px := num_of_Q (1000004 # 10000); py := num_of_Z 50 |} ])))
  = fromPath (toPath [ {| px := num_of_Q (1000004 # 10000); py := num_of_Z 50 |} ]).
Proof.
  destruct clipper_grid_round_trip as (Hback & _ & Hsnap). split.
  - apply Hback. repeat constructor; by eexists _, _.
  - apply Hsnap. repeat constructor.
Defined.

Lemma snap_within (q : Qc) :
  within (num_of_Q (1 # 2000)) (Math_round (Fin q * SCALE) / SCALE) (Fin q).
Proof.
  unfold within, SCALE, num_of_Z, num_of_Q. cbn [num_mul Math_round].
  unfold num_of_Z. cbn [num_div]. rewrite scale_is_not_zero.
  unfold num_sub. cbn [num_opp num_add Math_abs num_leb].
  match goal with |- context [Qfloor ?e] => set (x := e) end.
  pose proof (Qfloor_le x) as Hle. pose proof (Qlt_floor x) as Hlt.
  set (z := Qfloor x) in *.
  assert (Hx : (x == this q * 1000 + (1 # 2))%Q).
  { unfold x, Qcmult, Q2Qc, Qc_of_Z. cbn [this]. rewrite !Qred_correct.
    change (inject_Z 1000) with 1000%Q. reflexivity. }
  rewrite Hx in Hle, Hlt. rewrite inject_Z_plus in Hlt. change (inject_Z 1) with 1%Q in Hlt.
  assert (Hd : (this (Qc_of_Z z / Qc_of_Z 1000 + - q)%Qc == inject_Z z * (1 # 1000) - this q)%Q).
  { unfold Qcdiv, Qcplus, Qcmult, Qcinv, Qcopp, Q2Qc, Qc_of_Z. cbn [this].
    rewrite !Qred_correct. change (/ inject_Z 1000)%Q with (1 # 1000)%Q. ring. }
  destruct (Qc_ltb _ _) eqn:E; qc_bool.
  - unfold Qcle, Qclt in *. unfold Qcopp at 1. unfold Q2Qc in *. cbn [this] in *.
    rewrite !Qred_correct in *. rewrite Hd in *. change (this (Q2Qc 0)) with 0%Q in E. lra.
  - unfold Qcle, Qclt in *. unfold Q2Qc in *. cbn [this] in *.
    rewrite !Qred_correct in *. rewrite Hd in *. lra.
Qed.

(** X2: the error of the grid.  Snapping points with finite coordinates to
    the integer grid and back ([fromPath (toPath pts)]) keeps their number
    and order and moves each coordinate by at most 0.0005. *)
Theorem clipper_grid_error (pts : list Vec2) :
  Forall finite_point pts →
  Forall2 (λ p p', within (num_of_Q (1 # 2000)) (px p') (px p) ∧
                   within (num_of_Q (1 # 2000)) (py p') (py p))
          pts (fromPath (toPath pts)).
Proof.
  intros Hfin. unfold fromPath, toPath. rewrite <- list_fmap_compose.
  apply Forall2_fmap_r, Forall_Forall2_diag.
  eapply Forall_impl; [exact Hfin|].
  intros [x y] [Hx Hy]. simpl in *.
  apply finite_is_Fin in Hx as [qx ->]. apply finite_is_Fin in Hy as [qy ->].
  split; apply snap_within.
Qed.

Lemma clipper_grid_error_witness :
  Forall2 (λ p p', within (num_of_Q (1 # 2000)) (px p') (px p) ∧
                   within (num_of_Q (1 # 2000)) (py p') (py p))
          [ {| px := num_of_Q (1000004 # 10000); py := num_of_Z 50 |} ]
          (fromPath (toPath [ {| px := num_of_Q (1000004 # 10000); py := num_of_Z 50 |} ])).
Proof. apply clipper_grid_error. repeat constructor. Defined.
(** ** The shoelace formula ([polygonArea]) *)

Lemma finite_points_of (ring : list Vec2) :
  Forall finite_point ring → ∃ qs, ring = point_of <$> qs.
Proof.
  induction 1 as [|[x y] ring [Hx Hy] _ [qs ->]]; [by exists []|].
  simpl in *. apply finite_is_Fin in Hx as [qx ->]. apply finite_is_Fin in Hy as [qy ->].
  by exists ((qx, qy) :: qs).
Qed.

Lemma path_sum_cons (a b : Qc * Qc) (l : list (Qc * Qc)) :
  path_sum (a :: b :: l) = (cross_term a b + path_sum (b :: l))%Qc.
Proof. reflexivity. Qed.

Lemma path_sum_snoc (l : list (Qc * Qc)) (x y : Qc * Qc) :
  path_sum (l ++ [x; y]) = (path_sum (l ++ [x]) + cross_term x y)%Qc.
Proof.
  induction l as [|a [|b l] IH].
  - simpl. ring.
  - simpl. ring.
  - change (path_sum (a :: b :: (l ++ [x; y]))
            = (path_sum (a :: b :: (l ++ [x])) + cross_term x y)%Qc).
    rewrite !path_sum_cons. change (b :: l ++ [x; y]) with ((b :: l) ++ [x; y]).
    rewrite IH. simpl. ring.
Qed.

(** The sum around a ring does not depend on the point at which it starts. *)
Lemma path_sum_closed_step (a : Qc * Qc) (t : list (Qc * Qc)) :
  path_sum (closed (t ++ [a])) = path_sum (closed (a :: t)).
Proof.
  destruct t as [|b t]; [done|].
  assert (Hl : closed ((b :: t) ++ [a]) = (b :: t) ++ [a; b]).
  { unfold closed. cbn [take app]. by rewrite <- app_assoc. }
  assert (Hr : closed (a :: b :: t) = a :: (b :: t) ++ [a]) by done.
  rewrite Hl, Hr, path_sum_snoc. cbn [app]. rewrite path_sum_cons. ring.
Qed.

Lemma path_sum_closed_app (l1 l2 : list (Qc * Qc)) :
  path_sum (closed (l1 ++ l2)) = path_sum (closed (l2 ++ l1)).
Proof.
  revert l2. induction l1 as [|a l1 IH]; intros l2; [by rewrite app_nil_r|].
  cbn [app]. rewrite <- path_sum_closed_step.
  rewrite <- app_assoc, IH. by rewrite <- app_assoc.
Qed.

Lemma path_sum_reverse (c : list (Qc * Qc)) :
  path_sum (reverse c) = (- path_sum c)%Qc.
Proof.
  induction c as [|a [|b c] IH].
  - simpl. ring.
  - simpl. ring.
  - rewrite path_sum_cons, !reverse_cons, <- app_assoc. cbn [app].
    rewrite path_sum_snoc, <- reverse_cons, IH. unfold cross_term. ring.
Qed.

Lemma path_sum_closed_reverse (qs : list (Qc * Qc)) :
  path_sum (closed (reverse qs)) = (- path_sum (closed qs))%Qc.
Proof.
  destruct qs as [|a t]; [simpl; ring|].
  rewrite reverse_cons, path_sum_closed_step, <- path_sum_reverse.
  f_equal. unfold closed. cbn [take app].
  by rewrite reverse_cons, reverse_app.
Qed.

Lemma path_sum_shift (dx dy : Qc) (a : Qc * Qc) (c : list (Qc * Qc)) :
  let z := default a (last (a :: c)) in
  path_sum (shift dx dy <$> a :: c)
  = (path_sum (a :: c) + dx * (z.2 - a.2) - dy * (z.1 - a.1))%Qc.
Proof.
  revert a. induction c as [|b c IH]; intros a; cbn zeta.
  - simpl. ring.
  - rewrite !fmap_cons, path_sum_cons, <- fmap_cons, IH, path_sum_cons.
    change (last (a :: b :: c)) with (last (b :: c)).
    assert (Hlast : ∀ d, default d (last (b :: c)) = default b (last (b :: c))).
    { intros d. by destruct (last_is_Some (b :: c)) as [_ [z ->]]. }
    rewrite (Hlast a). unfold cross_term, shift. cbn [fst snd]. ring.
Qed.

Lemma path_sum_closed_shift (dx dy : Qc) (qs : list (Qc * Qc)) :
  path_sum (closed (shift dx dy <$> qs)) = path_sum (closed qs).
Proof.
  destruct qs as [|a t]; [done|].
  change (closed (a :: t)) with (a :: t ++ [a]).
  replace (closed (shift dx dy <$> a :: t)) with (shift dx dy <$> a :: t ++ [a])
    by (by rewrite !fmap_cons, fmap_app).
  rewrite path_sum_shift. cbn zeta.
  replace (last (a :: t ++ [a])) with (Some a)
    by (symmetry; apply (last_snoc (A:=Qc * Qc) a (a :: t))).
  cbn [default from_option id]. ring.
Qed.

(** The sum of [cross_term] over the indices [l] of a poly-line. *)
Lemma index_sum_path_sum (c : list (Qc * Qc)) (s : Qc) :
  foldl (λ s i, s + cross_term (c !!! i) (c !!! (i + 1)%nat))%Qc s (seq 0 (length c - 1))
  = (s + path_sum c)%Qc.
Proof.
  revert s. induction c as [|a [|b c] IH]; intros s.
  - simpl. ring.
  - simpl. ring.
  - replace (length (a :: b :: c) - 1)%nat with (S (length (b :: c) - 1))
      by (simpl; lia).
    rewrite <- cons_seq, <- fmap_S_seq. cbn [foldl].
    rewrite foldl_fmap.
    change (foldl (λ s i, s + cross_term ((b :: c) !!! i) ((b :: c) !!! (i + 1)%nat))%Qc
                  (s + cross_term a b)%Qc (seq 0 (length (b :: c) - 1))
            = (s + path_sum (a :: b :: c))%Qc).
    rewrite IH, path_sum_cons. ring.
Qed.

Lemma closed_lookup (qs : list (Qc * Qc)) (i : nat) :
  (i < length qs)%nat →
  closed qs !!! i = qs !!! i ∧
  closed qs !!! (i + 1)%nat = qs !!! ((i + 1) `mod` length qs)%nat.
Proof.
  intros Hi. unfold closed. split; [by apply lookup_total_app_l|].
  destruct (decide (i + 1 < length qs)%nat) as [Hlt|Hge].
  - rewrite Nat.mod_small by done. by apply lookup_total_app_l.
  - assert (Hn : (i + 1 = length qs)%nat) by lia.
    rewrite Hn, Nat.Div0.mod_same.
    rewrite lookup_total_app_r by lia. rewrite Nat.sub_diag.
    destruct qs; [simpl in Hi; lia|done].
Qed.

Lemma shoelace_index_sum (qs : list (Qc * Qc)) (l : list nat) (s : Qc) :
  Forall (λ i, i < length qs)%nat l →
  let path := point_of <$> qs in
  foldl (λ sum i,
           let p1 := path !!! i in
           let p2 := path !!! ((i + 1) `mod` length path)%nat in
           (sum + (px p1 * py p2 - px p2 * py p1))%js)
        (Fin s) l
  = Fin (foldl (λ s i, s + cross_term (closed qs !!! i) (closed qs !!! (i + 1)%nat))%Qc s l).
Proof.
  intros Hl path. revert s. induction Hl as [|i l Hi _ IH]; intros s; [done|].
  cbn [foldl]. cbv zeta. rewrite <- IH. f_equal.
  destruct (closed_lookup qs i Hi) as [-> ->].
  unfold path. rewrite length_fmap.
  rewrite !(list_lookup_total_fmap point_of qs)
    by (try done; apply Nat.mod_upper_bound; lia).
  reflexivity.
Qed.

Lemma polygonArea_closed (qs : list (Qc * Qc)) :
  polygonArea (point_of <$> qs) = (Math_abs (Fin (path_sum (closed qs))) / 2)%js.
Proof.
  unfold polygonArea. f_equal. f_equal. cbv zeta.
  change (num_of_Z 0) with (Fin (Qc_of_Z 0)).
  rewrite shoelace_index_sum.
  - rewrite length_fmap.
    destruct qs as [|a t].
    { by apply Fin_eq. }
    replace (length (a :: t)) with (length (closed (a :: t)) - 1)%nat.
    + rewrite index_sum_path_sum. apply Fin_eq. qc_to_q. lra.
    + unfold closed. rewrite length_app. simpl. lia.
  - rewrite length_fmap. apply Forall_forall. intros i Hi. apply elem_of_seq in Hi. lia.
Qed.

Lemma Math_abs_opp (s : Qc) : Math_abs (Fin (- s)) = Math_abs (Fin s).
Proof.
  cbn [Math_abs]. apply Fin_eq.
  destruct (Qc_ltb (- s) _) eqn:E1, (Qc_ltb s _) eqn:E2; qc_bool; qc_to_q; lra.
Qed.

Lemma rotate_closed_sum (k : nat) (qs : list (Qc * Qc)) :
  path_sum (closed (rotate k qs)) = path_sum (closed qs).
Proof.
  unfold rotate. rewrite path_sum_closed_app. by rewrite take_drop.
Qed.

Lemma rotate_fmap {A B} (f : A → B) (k : nat) (l : list A) :
  rotate k (f <$> l) = f <$> rotate k l.
Proof. unfold rotate. by rewrite length_fmap, fmap_app, fmap_drop, fmap_take. Qed.

Lemma translate_point_of (dx dy : Qc) (qs : list (Qc * Qc)) :
  translate (Fin dx) (Fin dy) <$> (point_of <$> qs) = point_of <$> (shift dx dy <$> qs).
Proof. by rewrite <- !list_fmap_compose. Qed.

(** X3: the area does not depend on the direction in which the ring is
    listed, nor on the vertex at which the list starts.  For every ring of
    points with finite coordinates, [polygonArea] of the reversed ring and
    of the ring rotated by any number of places is the area of the ring. *)
Theorem polygonArea_winding_and_start (ring : list Vec2) :
  Forall finite_point ring →
  polygonArea (reverse ring) = polygonArea ring ∧
  ∀ k, polygonArea (rotate k ring) = polygonArea ring.
Proof.
  intros Hfin. destruct (finite_points_of ring Hfin) as [qs ->]. split.
  - rewrite <- fmap_reverse, !polygonArea_closed, path_sum_closed_reverse.
    by rewrite Math_abs_opp.
  - intros k. rewrite rotate_fmap, !polygonArea_closed.
    by rewrite rotate_closed_sum.
Qed.

Lemma polygonArea_winding_and_start_witness :
  polygonArea (reverse [Sample.pt 0 0; Sample.pt 4 0; Sample.pt 0 3])
  = polygonArea [Sample.pt 0 0; Sample.pt 4 0; Sample.pt 0 3] ∧
  polygonArea (rotate 1 [Sample.pt 0 0; Sample.pt 4 0; Sample.pt 0 3])
  = polygonArea [Sample.pt 0 0; Sample.pt 4 0; Sample.pt 0 3].
Proof.
  destruct (polygonArea_winding_and_start [Sample.pt 0 0; Sample.pt 4 0; Sample.pt 0 3])
    as [Hrev Hrot]; [repeat constructor|].
  split; [exact Hrev | exact (Hrot 1%nat)].
Defined.

(** X4: the area does not depend on where the ring lies.  Moving every
    point of a ring with finite coordinates by the same finite offset
    leaves [polygonArea] unchanged. *)
Theorem polygonArea_translation (ring : list Vec2) (dx dy : number) :
  Forall finite_point ring →
  Number_isFinite dx = true → Number_isFinite dy = true →
  polygonArea (translate dx dy <$> ring) = polygonArea ring.
Proof.
  intros Hfin Hdx Hdy. destruct (finite_points_of ring Hfin) as [qs ->].
  apply finite_is_Fin in Hdx as [qx ->]. apply finite_is_Fin in Hdy as [qy ->].
  by rewrite translate_point_of, !polygonArea_closed, path_sum_closed_shift.
Qed.

Lemma polygonArea_translation_witness :
  polygonArea (translate (num_of_Z 100) (num_of_Z (-7))
                 <$> [Sample.pt 0 0; Sample.pt 4 0; Sample.pt 0 3])
  = polygonArea [Sample.pt 0 0; Sample.pt 4 0; Sample.pt 0 3].
Proof. apply polygonArea_translation; [repeat constructor | reflexivity | reflexivity]. Defined.

Lemma half_of_abs (s v : Qc) :
  (this v == (if Qc_ltb s (Q2Qc 0) then - this s else this s) * (1 # 2))%Q →
  (Math_abs (Fin s) / 2)%js = Fin v.
Proof.
  intros Hv. cbn [Math_abs]. unfold num_of_Z. cbn [num_div].
  replace (Qc_is_zero (Qc_of_Z 2)) with false by reflexivity.
  apply Fin_eq. rewrite Hv, Qc_half.
  destruct (Qc_ltb s _); qc_to_q; lra.
Qed.

(** X5: what the shoelace formula gives on the simplest rings.  The area of
    the axis-aligned rectangle with finite corners [(x0,y0)] and [(x1,y1)]
    is [|x1 - x0| * |y1 - y0|], and a ring of fewer than three points with
    finite coordinates has area [0]. *)
Theorem polygonArea_of_rectangle :
  (∀ x0 y0 x1 y1,
     Number_isFinite x0 = true → Number_isFinite y0 = true →
     Number_isFinite x1 = true → Number_isFinite y1 = true →
     polygonArea (rectangle x0 y0 x1 y1) = (Math_abs (x1 - x0) * Math_abs (y1 - y0))%js) ∧
  (∀ ring, Forall finite_point ring → (length ring < 3)%nat → polygonArea ring = 0%js).
Proof.
  split.
  - intros x0 y0 x1 y1 Hx0 Hy0 Hx1 Hy1.
    apply finite_is_Fin in Hx0 as [a ->]. apply finite_is_Fin in Hy0 as [b ->].
    apply finite_is_Fin in Hx1 as [c ->]. apply finite_is_Fin in Hy1 as [d ->].
    change (rectangle (Fin a) (Fin b) (Fin c) (Fin d))
      with (point_of <$> [(a, b); (c, b); (c, d); (a, d)]).
    rewrite polygonArea_closed.
    unfold num_sub. cbn [num_opp num_add Math_abs num_mul].
    apply half_of_abs.
    assert (Hs : (this (path_sum (closed [(a, b); (c, b); (c, d); (a, d)]))
                  == 2 * (this c - this a) * (this d - this b))%Q).
    { unfold closed. cbn [take app path_sum]. unfold cross_term. cbn [fst snd].
      qc_to_q. rewrite ?Qred_correct. ring. }
    destruct (Qc_ltb (path_sum _) _) eqn:E1, (Qc_ltb (c + - a) _) eqn:E2,
             (Qc_ltb (d + - b) _) eqn:E3;
      qc_bool; qc_to_q; rewrite ?Qred_correct in *; rewrite ?Hs in *; nra.
  - intros ring Hfin Hlen. destruct (finite_points_of ring Hfin) as [qs ->].
    rewrite length_fmap in Hlen. rewrite polygonArea_closed.
    change 0%js with (Fin (Qc_of_Z 0)). apply half_of_abs.
    assert (Hs : (this (path_sum (closed qs)) == 0)%Q).
    { destruct qs as [|p [|q [|r qs]]]; [| | |simpl in Hlen; lia];
        unfold closed; cbn [take app path_sum]; unfold cross_term; cbn [fst snd];
        qc_to_q; rewrite ?Qred_correct; try reflexivity; ring. }
    destruct (Qc_ltb _ _); rewrite Hs; reflexivity.
Qed.

Lemma polygonArea_of_rectangle_witness :
  polygonArea (rectangle (num_of_Z 103) (num_of_Z 103) (num_of_Z 897) (num_of_Z 397))
  = (Math_abs (num_of_Z 897 - num_of_Z 103) * Math_abs (num_of_Z 397 - num_of_Z 103))%js ∧
  polygonArea [Sample.pt 0 0; Sample.pt 4 3] = 0%js.
Proof.
  destruct polygonArea_of_rectangle as [Hrect Hsmall]. split.
  - by apply Hrect.
  - apply Hsmall; [repeat constructor | simpl; lia].
Defined.

(** ** The bounding box ([bounds]) *)

Lemma Math_min_cases (a b : number) :
  a ≠ NaN → b ≠ NaN →
  (Math_min a b = a ∨ Math_min a b = b) ∧
  (Math_min a b <=? a)%js = true ∧ (Math_min a b <=? b)%js = true.
Proof.
  destruct a as [| | |x], b as [| | |y]; simpl; try done; intros _ _;
    try (repeat split; auto; unfold Qc_leb; by apply bool_decide_eq_true).
  destruct (Qc_ltb y x) eqn:E; simpl; repeat split; auto; qc_solve.
Qed.

Lemma Math_max_cases (a b : number) :
  a ≠ NaN → b ≠ NaN →
  (Math_max a b = a ∨ Math_max a b = b) ∧
  (a <=? Math_max a b)%js = true ∧ (b <=? Math_max a b)%js = true.
Proof.
  destruct a as [| | |x], b as [| | |y]; simpl; try done; intros _ _;
    try (repeat split; auto; unfold Qc_leb; by apply bool_decide_eq_true).
  destruct (Qc_ltb x y) eqn:E; simpl; repeat split; auto; qc_solve.
Qed.

Lemma num_leb_same (a : number) : a ≠ NaN → (a <=? a)%js = true.
Proof. destruct a as [| | |x]; simpl; try done. intros _. qc_solve. Qed.

Lemma fold_Math_min (xs : list number) (acc : number) :
  acc ≠ NaN → Forall (λ x, Number_isFinite x = true) xs →
  let m := foldl Math_min acc xs in
  (m = acc ∨ m ∈ xs) ∧ (m <=? acc)%js = true ∧ ∀ x, x ∈ xs → (m <=? x)%js = true.
Proof.
  intros Hacc Hfin. revert acc Hacc.
  induction Hfin as [|x xs Hx _ IH]; intros acc Hacc; cbn zeta.
  - split; [by left|]. split; [by apply num_leb_same|].
    intros x Hx. by apply elem_of_nil in Hx.
  - cbn [foldl].
    assert (Hxn : x ≠ NaN) by (by destruct x).
    destruct (Math_min_cases acc x Hacc Hxn) as (Hcase & Hle1 & Hle2).
    assert (Hmn : Math_min acc x ≠ NaN) by (by destruct Hcase as [-> | ->]).
    destruct (IH (Math_min acc x) Hmn) as (Hin & Hle & Hall).
    split; [|split].
    + destruct Hin as [-> | Hin]; [|right; by right].
      destruct Hcase as [-> | ->]; [by left | right; by left].
    + by eapply num_leb_trans.
    + intros y Hy. apply elem_of_cons in Hy as [-> | Hy]; [|by apply Hall].
      by eapply num_leb_trans.
Qed.

Lemma fold_Math_max (xs : list number) (acc : number) :
  acc ≠ NaN → Forall (λ x, Number_isFinite x = true) xs →
  let m := foldl Math_max acc xs in
  (m = acc ∨ m ∈ xs) ∧ (acc <=? m)%js = true ∧ ∀ x, x ∈ xs → (x <=? m)%js = true.
Proof.
  intros Hacc Hfin. revert acc Hacc.
  induction Hfin as [|x xs Hx _ IH]; intros acc Hacc; cbn zeta.
  - split; [by left|]. split; [by apply num_leb_same|].
    intros x Hx. by apply elem_of_nil in Hx.
  - cbn [foldl].
    assert (Hxn : x ≠ NaN) by (by destruct x).
    destruct (Math_max_cases acc x Hacc Hxn) as (Hcase & Hle1 & Hle2).
    assert (Hmn : Math_max acc x ≠ NaN) by (by destruct Hcase as [-> | ->]).
    destruct (IH (Math_max acc x) Hmn) as (Hin & Hle & Hall).
    split; [|split].
    + destruct Hin as [-> | Hin]; [|right; by right].
      destruct Hcase as [-> | ->]; [by left | right; by left].
    + by eapply num_leb_trans.
    + intros y Hy. apply elem_of_cons in Hy as [-> | Hy]; [|by apply Hall].
      by eapply num_leb_trans.
Qed.

Lemma Math_min_list_is_minimum (xs : list number) :
  Forall (λ x, Number_isFinite x = true) xs → xs ≠ [] →
  is_minimum (Math_min_list xs) xs.
Proof.
  intros Hfin Hne. unfold Math_min_list.
  destruct (fold_Math_min xs PosInf) as (Hin & _ & Hall); [done | done |].
  split; [|done]. destruct Hin as [Hinf | Hin]; [|done].
  destruct xs as [|x xs]; [done|].
  specialize (Hall x). rewrite Hinf in Hall.
  apply Forall_cons in Hfin as [Hx _]. destruct x; try done.
  by specialize (Hall ltac:(left)).
Qed.

Lemma Math_max_list_is_maximum (xs : list number) :
  Forall (λ x, Number_isFinite x = true) xs → xs ≠ [] →
  is_maximum (Math_max_list xs) xs.
Proof.
  intros Hfin Hne. unfold Math_max_list.
  destruct (fold_Math_max xs NegInf) as (Hin & _ & Hall); [done | done |].
  split; [|done]. destruct Hin as [Hinf | Hin]; [|done].
  destruct xs as [|x xs]; [done|].
  specialize (Hall x). rewrite Hinf in Hall.
  apply Forall_cons in Hfin as [Hx _]. destruct x; try done.
  by specialize (Hall ltac:(left)).
Qed.

(** X6: the bounding box.  For a ring that is not empty and whose
    coordinates are finite, the four numbers that [bounds] returns are the
    least and the greatest x and y among its points: each is the coordinate
    of some point, and every point lies between them.  For the empty ring
    they are [Infinity, Infinity, -Infinity, -Infinity]. *)
Theorem bounds_enclose :
  (∀ ring, Forall finite_point ring → ring ≠ [] →
     let '(x0, y0, x1, y1) := polygon_bounds ring in
     is_minimum x0 (px <$> ring) ∧ is_minimum y0 (py <$> ring) ∧
     is_maximum x1 (px <$> ring) ∧ is_maximum y1 (py <$> ring)) ∧
  polygon_bounds [] = (PosInf, PosInf, NegInf, NegInf).
Proof.
  split; [|done]. intros ring Hfin Hne. unfold polygon_bounds.
  assert (Hx : Forall (λ x, Number_isFinite x = true) (px <$> ring)).
  { apply Forall_fmap. eapply Forall_impl; [exact Hfin|]. by intros p []. }
  assert (Hy : Forall (λ x, Number_isFinite x = true) (py <$> ring)).
  { apply Forall_fmap. eapply Forall_impl; [exact Hfin|]. by intros p []. }
  assert (Hnx : px <$> ring ≠ []) by (by destruct ring).
  assert (Hny : py <$> ring ≠ []) by (by destruct ring).
  repeat split;
    first [ by apply Math_min_list_is_minimum | by apply Math_max_list_is_maximum ].
Qed.

Lemma bounds_enclose_witness :
  let ring := [Sample.pt 4 0; Sample.pt 0 3; Sample.pt (-2) 1] in
  is_minimum (polygon_bounds ring).1.1.1 (px <$> ring) ∧
  is_maximum (polygon_bounds ring).2 (py <$> ring).
Proof.
  intros ring.
  pose proof (proj1 bounds_enclose ring) as Hb.
  destruct (polygon_bounds ring) as [[[x0 y0] x1] y1].
  destruct Hb as (Hx0 & _ & _ & Hy1); [repeat constructor | done |].
  by split.
Defined.

(** ** Points and polygons ([pointInPolygon]) *)

Lemma pointInPolygon_edge_on_edge (pt a b : Vec2) (inside : bool) :
  on_edge pt a b = true → pointInPolygon_edge pt a b inside = inl true.
Proof. unfold pointInPolygon_edge, on_edge. cbv zeta. by intros ->. Qed.

Lemma pointInPolygon_edge_inl (pt a b : Vec2) (inside r : bool) :
  pointInPolygon_edge pt a b inside = inl r → r = true.
Proof.
  unfold pointInPolygon_edge. cbv zeta. destruct (_ && _); [|done]. by intros [= <-].
Qed.

(** The loop answers [true] as soon as one of its edges passes the boundary
    test. *)
Lemma pointInPolygon_loop_hit (pt : Vec2) (polygon : list Vec2)
    (before after : list nat) (i j : nat) (inside : bool) :
  on_edge pt (polygon !!! i) (polygon !!! default j (last before)) = true →
  pointInPolygon_loop pt polygon (before ++ i :: after) j inside = true.
Proof.
  revert j inside. induction before as [|k before IH]; intros j inside Hedge.
  - simpl in *. by rewrite pointInPolygon_edge_on_edge.
  - cbn [app pointInPolygon_loop].
    destruct (pointInPolygon_edge _ _ _ _) as [r|inside'] eqn:Hk.
    + by apply pointInPolygon_edge_inl in Hk.
    + apply IH. destruct before as [|k' before]; [done|].
      rewrite last_cons_cons in Hedge.
      by destruct (last_is_Some (k' :: before)) as [_ [z Hz]]; [|rewrite Hz in *].
Qed.

Lemma abs_ltb_spec (c e : Qc) :
  (Math_abs (Fin c) <? Fin e)%js = true ↔ (- this e < this c)%Q ∧ (this c < this e)%Q.
Proof.
  cbn [Math_abs num_ltb].
  destruct (Qc_ltb c _) eqn:E; split; intros; qc_bool; qc_to_q; lra.
Qed.

Lemma min_sub_leb_spec (a b e x : Qc) :
  (Math_min (Fin a) (Fin b) - Fin e <=? Fin x)%js = true ↔
  (this a - this e <= this x)%Q ∨ (this b - this e <= this x)%Q.
Proof.
  unfold num_sub. cbn [Math_min num_ltb num_opp].
  destruct (Qc_ltb b a) eqn:E; cbn [num_add num_leb]; split; intros; qc_bool; qc_to_q; lra.
Qed.

Lemma leb_max_add_spec (a b e x : Qc) :
  (Fin x <=? Math_max (Fin a) (Fin b) + Fin e)%js = true ↔
  (this x <= this a + this e)%Q ∨ (this x <= this b + this e)%Q.
Proof.
  cbn [Math_max num_ltb].
  destruct (Qc_ltb a b) eqn:E; cbn [num_add num_leb]; split; intros; qc_bool; qc_to_q; lra.
Qed.

(** The boundary test on points with finite coordinates, in terms of
    rationals. *)
Lemma on_edge_spec (p a b : Qc * Qc) :
  on_edge (point_of p) (point_of a) (point_of b) = true ↔
  let c := ((this p.2 - this a.2) * (this b.1 - this a.1)
            - (this p.1 - this a.1) * (this b.2 - this a.2))%Q in
  let e := (1 # 1000000000)%Q in
  ((- e < c)%Q ∧ (c < e)%Q) ∧
  ((this a.1 - e <= this p.1)%Q ∨ (this b.1 - e <= this p.1)%Q) ∧
  ((this p.1 <= this a.1 + e)%Q ∨ (this p.1 <= this b.1 + e)%Q) ∧
  ((this a.2 - e <= this p.2)%Q ∨ (this b.2 - e <= this p.2)%Q) ∧
  ((this p.2 <= this a.2 + e)%Q ∨ (this p.2 <= this b.2 + e)%Q).
Proof.
  destruct p as [x y], a as [ax ay], b as [bx b_y].
  unfold on_edge, point_of, eps9, num_of_Q. cbn [px py fst snd].
  rewrite !andb_true_iff, !min_sub_leb_spec, !leb_max_add_spec.
  unfold num_sub. cbn [num_opp num_add num_mul]. rewrite abs_ltb_spec.
  cbv zeta.
  assert (He : (this (Q2Qc (1 # 1000000000)) == 1 # 1000000000)%Q) by apply Qred_correct.
  assert (Hc : (this ((y + - ay) * (bx + - ax) + - ((x + - ax) * (b_y + - ay)))%Qc
                == (this y - this ay) * (this bx - this ax)
                   - (this x - this ax) * (this b_y - this ay))%Q).
  { qc_to_q. rewrite ?Qred_correct. ring. }
  rewrite !He, !Hc. tauto.
Qed.

Lemma on_edge_along (a b : Qc * Qc) (t : Qc) :
  (0 ≤ t)%Qc → (t ≤ 1)%Qc →
  on_edge (along (point_of a) (point_of b) (Fin t)) (point_of b) (point_of a) = true.
Proof.
  intros Ht0 Ht1. destruct a as [ax ay], b as [bx b_y].
  change (along (point_of (ax, ay)) (point_of (bx, b_y)) (Fin t))
    with (point_of ((ax + t * (bx + - ax))%Qc, (ay + t * (b_y + - ay))%Qc)).
  apply on_edge_spec. cbv zeta. cbn [fst snd].
  assert (Hx : (this (ax + t * (bx + - ax))%Qc == this ax + this t * (this bx - this ax))%Q).
  { qc_to_q. rewrite ?Qred_correct. ring. }
  assert (Hy : (this (ay + t * (b_y + - ay))%Qc == this ay + this t * (this b_y - this ay))%Q).
  { qc_to_q. rewrite ?Qred_correct. ring. }
  rewrite !Hx, !Hy.
  assert (Ht0' : (0 <= this t)%Q) by (clear -Ht0; qc_to_q; lra).
  assert (Ht1' : (this t <= 1)%Q) by (clear -Ht1; qc_to_q; lra).
  set (dx := (this bx - this ax)%Q). set (dy := (this b_y - this ay)%Q).
  assert (Hc : ((this ay + this t * dy - this b_y) * (this ax - this bx)
                - (this ax + this t * dx - this bx) * (this ay - this b_y) == 0)%Q).
  { unfold dx, dy. ring. }
  rewrite Hc.
  assert (Hdx : (0 <= dx)%Q ∨ (dx <= 0)%Q) by lra.
  assert (Hdy : (0 <= dy)%Q ∨ (dy <= 0)%Q) by lra.
  assert (Htx : (0 <= dx → 0 <= this t * dx ∧ this t * dx <= dx)%Q) by (intros; nra).
  assert (Htx' : (dx <= 0 → dx <= this t * dx ∧ this t * dx <= 0)%Q) by (intros; nra).
  assert (Hty : (0 <= dy → 0 <= this t * dy ∧ this t * dy <= dy)%Q) by (intros; nra).
  assert (Hty' : (dy <= 0 → dy <= this t * dy ∧ this t * dy <= 0)%Q) by (intros; nra).
  set (tx := (this t * dx)%Q) in *. set (ty := (this t * dy)%Q) in *.
  unfold dx, dy in *. clearbody tx ty.
  split; [lra|].
  destruct Hdx as [Hdx | Hdx], Hdy as [Hdy | Hdy];
    [ destruct (Htx Hdx), (Hty Hdy) | destruct (Htx Hdx), (Hty' Hdy)
    | destruct (Htx' Hdx), (Hty Hdy) | destruct (Htx' Hdx), (Hty' Hdy) ];
    repeat split; lra.
Qed.

Lemma last_seq (m : nat) : last (seq 0 (S m)) = Some m.
Proof. rewrite seq_S. apply last_snoc. Qed.

Lemma pointInPolygon_on_segment (polygon : list Vec2) (i : nat) (a b : Qc * Qc) (t : Qc) :
  polygon !! i = Some (point_of a) →
  polygon !! ((i + 1) `mod` length polygon)%nat = Some (point_of b) →
  (0 ≤ t)%Qc → (t ≤ 1)%Qc →
  pointInPolygon (along (point_of a) (point_of b) (Fin t)) polygon = true.
Proof.
  intros Ha Hb Ht0 Ht1. unfold pointInPolygon.
  set (n := length polygon). set (i' := ((i + 1) `mod` n)%nat).
  assert (Hi : (i < n)%nat) by by eapply lookup_lt_Some.
  assert (Hi' : (i' < n)%nat) by by eapply lookup_lt_Some.
  replace (seq 0 n) with (seq 0 i' ++ i' :: seq (S i') (n - S i')).
  2:{ rewrite cons_seq, <- seq_app. f_equal. lia. }
  apply pointInPolygon_loop_hit.
  rewrite (list_lookup_total_correct _ _ _ Hb).
  assert (Hprev : default (n - 1)%nat (last (seq 0 i')) = i).
  { destruct (decide (i + 1 < n)%nat) as [Hlt|Hge].
    - unfold i'. rewrite Nat.mod_small by done.
      replace (i + 1)%nat with (S i) by lia. by rewrite last_seq.
    - assert (Hn : (i + 1 = n)%nat) by lia.
      unfold i'. rewrite Hn, Nat.Div0.mod_same. simpl. lia. }
  rewrite Hprev, (list_lookup_total_correct _ _ _ Ha).
  by apply on_edge_along.
Qed.

(** X7: the boundary counts as inside.  If [a] and [b] are consecutive
    vertices of a polygon (the last vertex is followed by the first) and
    both have finite coordinates, then [pointInPolygon] answers [true] for
    every point of the segment from [a] to [b], the two vertices included,
    whatever the other vertices are. *)
Theorem boundary_is_inside (polygon : list Vec2) (i : nat) (a b : Vec2) :
  polygon !! i = Some a →
  polygon !! ((i + 1) `mod` length polygon)%nat = Some b →
  finite_point a → finite_point b →
  (∀ t, Number_isFinite t = true → (0 <=? t)%js = true → (t <=? 1)%js = true →
        pointInPolygon (along a b t) polygon = true) ∧
  pointInPolygon a polygon = true ∧
  pointInPolygon b polygon = true.
Proof.
  intros Ha Hb [Hax Hay] [Hbx Hby].
  destruct a as [ax ay], b as [bx b_y]. simpl in *.
  apply finite_is_Fin in Hax as [qax ->]. apply finite_is_Fin in Hay as [qay ->].
  apply finite_is_Fin in Hbx as [qbx ->]. apply finite_is_Fin in Hby as [qby ->].
  change {| px := Fin qax; py := Fin qay |} with (point_of (qax, qay)) in *.
  change {| px := Fin qbx; py := Fin qby |} with (point_of (qbx, qby)) in *.
  assert (Hseg : ∀ t : Qc, (0 ≤ t)%Qc → (t ≤ 1)%Qc →
            pointInPolygon (along (point_of (qax, qay)) (point_of (qbx, qby)) (Fin t))
                           polygon = true).
  { intros t. by apply pointInPolygon_on_segment with i. }
  split; [|split].
  - intros t Ht Ht0 Ht1. apply finite_is_Fin in Ht as [q ->].
    apply Hseg; simpl in *; qc_solve.
  - replace (point_of (qax, qay))
      with (along (point_of (qax, qay)) (point_of (qbx, qby)) (Fin (Qc_of_Z 0))) at 1.
    + apply Hseg; qc_solve.
    + unfold along, point_of. simpl. f_equal; apply Fin_eq; qc_to_q; lra.
  - replace (point_of (qbx, qby))
      with (along (point_of (qax, qay)) (point_of (qbx, qby)) (Fin (Qc_of_Z 1))) at 1.
    + apply Hseg; qc_solve.
    + unfold along, point_of. simpl. f_equal; apply Fin_eq; qc_to_q; lra.
Qed.

Lemma boundary_is_inside_witness :
  pointInPolygon (along (Sample.pt 4 0) (Sample.pt 0 3) (num_of_Q (1 # 4)))
                 [Sample.pt 0 0; Sample.pt 4 0; Sample.pt 0 3] = true ∧
  pointInPolygon (Sample.pt 4 0) [Sample.pt 0 0; Sample.pt 4 0; Sample.pt 0 3] = true.
Proof.
  destruct (boundary_is_inside [Sample.pt 0 0; Sample.pt 4 0; Sample.pt 0 3] 1
              (Sample.pt 4 0) (Sample.pt 0 3)) as (Hseg & Ha & _);
    [reflexivity | reflexivity | by split | by split |].
  split; [by apply Hseg | exact Ha].
Defined.

Lemma pointInPolygon_edge_cases (pt a b : Vec2) (inside : bool) :
  pointInPolygon_edge pt a b inside
  = if on_edge pt a b then inl true
    else inr (if crosses pt a b then negb inside else inside).
Proof. reflexivity. Qed.

(** A point that passes the boundary test of an edge lies within [1e-9] of
    the bounding box of the edge. *)
Lemma on_edge_range (p a b : Qc * Qc) (lox hix loy hiy : Qc) :
  on_edge (point_of p) (point_of a) (point_of b) = true →
  (lox ≤ a.1)%Qc → (lox ≤ b.1)%Qc → (a.1 ≤ hix)%Qc → (b.1 ≤ hix)%Qc →
  (loy ≤ a.2)%Qc → (loy ≤ b.2)%Qc → (a.2 ≤ hiy)%Qc → (b.2 ≤ hiy)%Qc →
  (lox - Q2Qc (1 # 1000000000) ≤ p.1)%Qc ∧ (p.1 ≤ hix + Q2Qc (1 # 1000000000))%Qc ∧
  (loy - Q2Qc (1 # 1000000000) ≤ p.2)%Qc ∧ (p.2 ≤ hiy + Q2Qc (1 # 1000000000))%Qc.
Proof.
  intros Hedge. apply on_edge_spec in Hedge. cbv zeta in Hedge.
  destruct Hedge as (_ & Hx0 & Hx1 & Hy0 & Hy1).
  intros. qc_to_q. rewrite ?Qred_correct. repeat split; lra.
Qed.

Lemma crosses_vertical (x y X ya yb : Qc) :
  ya ≠ yb →
  crosses (point_of (x, y)) (point_of (X, ya)) (point_of (X, yb))
  = negb (eqb (Qc_ltb y ya) (Qc_ltb y yb)) && Qc_ltb x X.
Proof.
  intros Hne. unfold crosses, point_of, num_gtb, num_sub, num_or.
  cbn [px py fst snd num_opp num_add num_mul num_ltb falsy].
  replace (Qc_is_zero (yb + - ya)) with false.
  2:{ symmetry. qc_bool. intros E. apply Hne.
      apply Qc_is_canon. apply Qc_eq_iff in E. qc_to_q. lra. }
  cbn [num_div]. replace (Qc_is_zero (yb + - ya)) with false.
  2:{ symmetry. qc_bool. intros E. apply Hne.
      apply Qc_is_canon. apply Qc_eq_iff in E. qc_to_q. lra. }
  cbn [num_add num_ltb].
  replace ((X + - X) * (y + - ya) / (yb + - ya) + X)%Qc with X; [done|].
  unfold Qcdiv. ring.
Qed.

Lemma crosses_horizontal (x y xa xb Y : Qc) :
  crosses (point_of (x, y)) (point_of (xa, Y)) (point_of (xb, Y)) = false.
Proof.
  unfold crosses, point_of. cbn [px py fst snd]. by rewrite eqb_reflx.
Qed.

(** [pointInPolygon] on a rectangle, edge by edge: the left, the bottom, the
    right and the top edge, in the order of the loop. *)
Lemma pointInPolygon_rectangle_edges (pt p0 p1 p2 p3 : Vec2) :
  pointInPolygon pt [p0; p1; p2; p3]
  = if on_edge pt p0 p3 then true
    else if on_edge pt p1 p0 then true
    else if on_edge pt p2 p1 then true
    else if on_edge pt p3 p2 then true
    else xorb (xorb (xorb (crosses pt p0 p3) (crosses pt p1 p0)) (crosses pt p2 p1))
              (crosses pt p3 p2).
Proof.
  unfold pointInPolygon.
  cbn [length seq Nat.sub pointInPolygon_loop lookup_total list_lookup_total].
  rewrite pointInPolygon_edge_cases. destruct (on_edge pt p0 p3); [done|].
  rewrite pointInPolygon_edge_cases. destruct (on_edge pt p1 p0); [done|].
  rewrite pointInPolygon_edge_cases. destruct (on_edge pt p2 p1); [done|].
  rewrite pointInPolygon_edge_cases. destruct (on_edge pt p3 p2); [done|].
  by destruct (crosses pt p0 p3), (crosses pt p1 p0), (crosses pt p2 p1), (crosses pt p3 p2).
Qed.

Lemma on_edge_horizontal (x y xa xb : Qc) :
  (xa ≤ x)%Qc → (x ≤ xb)%Qc →
  on_edge (point_of (x, y)) (point_of (xa, y)) (point_of (xb, y)) = true ∧
  on_edge (point_of (x, y)) (point_of (xb, y)) (point_of (xa, y)) = true.
Proof.
  intros Ha Hb.
  assert (Ha' : (this xa <= this x)%Q) by (clear -Ha; qc_to_q; lra).
  assert (Hb' : (this x <= this xb)%Q) by (clear -Hb; qc_to_q; lra).
  split; apply on_edge_spec; cbv zeta; cbn [fst snd];
    match goal with
    | |- (_ < ?c ∧ _)%Q ∧ _ => assert (Hc : (c == 0)%Q) by ring; rewrite Hc
    end; repeat split; lra.
Qed.

Lemma on_edge_vertical (x y ya yb : Qc) :
  (ya ≤ y)%Qc → (y ≤ yb)%Qc →
  on_edge (point_of (x, y)) (point_of (x, ya)) (point_of (x, yb)) = true ∧
  on_edge (point_of (x, y)) (point_of (x, yb)) (point_of (x, ya)) = true.
Proof.
  intros Ha Hb.
  assert (Ha' : (this ya <= this y)%Q) by (clear -Ha; qc_to_q; lra).
  assert (Hb' : (this y <= this yb)%Q) by (clear -Hb; qc_to_q; lra).
  split; apply on_edge_spec; cbv zeta; cbn [fst snd];
    match goal with
    | |- (_ < ?c ∧ _)%Q ∧ _ => assert (Hc : (c == 0)%Q) by ring; rewrite Hc
    end; repeat split; lra.
Qed.

(** X8: [pointInPolygon] on an axis-aligned rectangle.  For the rectangle
    with the finite corners [(x0,y0)] and [(x1,y1)], [x0 < x1] and
    [y0 < y1], listed as the recovery lists the corners of the sheet, and
    for a point with finite coordinates: the answer is [true] when the
    point lies in the closed rectangle, and [false] when it lies outside by
    more than the tolerance [1e-9] in x or in y. *)
Theorem pointInPolygon_rectangle (x0 y0 x1 y1 x y : Qc) :
  (x0 < x1)%Qc → (y0 < y1)%Qc →
  let pt := {| px := Fin x; py := Fin y |} in
  let ring := rectangle (Fin x0) (Fin y0) (Fin x1) (Fin y1) in
  ((x0 ≤ x)%Qc ∧ (x ≤ x1)%Qc ∧ (y0 ≤ y)%Qc ∧ (y ≤ y1)%Qc →
   pointInPolygon pt ring = true) ∧
  ((x < x0 - Q2Qc (1 # 1000000000))%Qc ∨ (x1 + Q2Qc (1 # 1000000000) < x)%Qc ∨
   (y < y0 - Q2Qc (1 # 1000000000))%Qc ∨ (y1 + Q2Qc (1 # 1000000000) < y)%Qc →
   pointInPolygon pt ring = false).
Proof.
  intros Hx01 Hy01 pt ring. unfold ring, rectangle.
  rewrite pointInPolygon_rectangle_edges.
  change pt with (point_of (x, y)).
  change {| px := Fin x0; py := Fin y0 |} with (point_of (x0, y0)).
  change {| px := Fin x1; py := Fin y0 |} with (point_of (x1, y0)).
  change {| px := Fin x1; py := Fin y1 |} with (point_of (x1, y1)).
  change {| px := Fin x0; py := Fin y1 |} with (point_of (x0, y1)).
  assert (Hy10 : y1 ≠ y0) by (intros E; rewrite E in Hy01; qc_to_q; lra).
  assert (Hy01' : y0 ≠ y1) by (intros E; rewrite E in Hy01; qc_to_q; lra).
  rewrite (crosses_vertical x y x0 y0 y1 Hy01'), (crosses_vertical x y x1 y1 y0 Hy10).
  rewrite !crosses_horizontal.
  split.
  - intros (Hx0 & Hx1 & Hy0 & Hy1).
    destruct (on_edge _ (point_of (x0, y0)) _); [done|].
    destruct (on_edge _ (point_of (x1, y0)) _); [done|].
    destruct (on_edge _ (point_of (x1, y1)) (point_of (x1, y0))) eqn:Hright; [done|].
    destruct (on_edge _ (point_of (x0, y1)) (point_of (x1, y1))) eqn:Htop; [done|].
    destruct (decide (y = y1)) as [->|Hy].
    { by rewrite (proj1 (on_edge_horizontal x y1 x0 x1 Hx0 Hx1)) in Htop. }
    destruct (decide (x = x1)) as [->|Hx].
    { by rewrite (proj2 (on_edge_vertical x1 y y0 y1 Hy0 Hy1)) in Hright. }
    assert (Hylt : (y < y1)%Qc).
    { rewrite Qc_eq_iff in Hy. qc_to_q. lra. }
    assert (Hxlt : (x < x1)%Qc).
    { rewrite Qc_eq_iff in Hx. qc_to_q. lra. }
    replace (Qc_ltb y y0) with false by (symmetry; qc_solve).
    replace (Qc_ltb y y1) with true by (symmetry; qc_solve).
    replace (Qc_ltb x x0) with false by (symmetry; qc_solve).
    replace (Qc_ltb x x1) with true by (symmetry; qc_solve).
    reflexivity.
  - intros Hout.
    assert (Hno : ∀ a b,
              (x0 ≤ a.1)%Qc → (x0 ≤ b.1)%Qc → (a.1 ≤ x1)%Qc → (b.1 ≤ x1)%Qc →
              (y0 ≤ a.2)%Qc → (y0 ≤ b.2)%Qc → (a.2 ≤ y1)%Qc → (b.2 ≤ y1)%Qc →
              on_edge (point_of (x, y)) (point_of a) (point_of b) = false).
    { intros a b ? ? ? ? ? ? ? ?.
      destruct (on_edge _ _ _) eqn:Hedge; [exfalso|done].
      destruct (on_edge_range (x, y) a b x0 x1 y0 y1 Hedge) as (? & ? & ? & ?);
        try done.
      cbn [fst snd] in *. clear Hedge. qc_to_q. lra. }
    rewrite !Hno by (cbn [fst snd]; qc_to_q; lra).
    destruct (Qc_ltb y y0) eqn:?, (Qc_ltb y y1) eqn:?,
             (Qc_ltb x x0) eqn:?, (Qc_ltb x x1) eqn:?;
      try reflexivity; exfalso; qc_bool; qc_to_q; lra.
Qed.

Lemma pointInPolygon_rectangle_witness :
  pointInPolygon (Sample.pt 500 250)
    (rectangle (num_of_Z 0) (num_of_Z 0) (num_of_Z 1000) (num_of_Z 500)) = true ∧
  pointInPolygon (Sample.pt 1000 500)
    (rectangle (num_of_Z 0) (num_of_Z 0) (num_of_Z 1000) (num_of_Z 500)) = true ∧
  pointInPolygon (Sample.pt 1001 250)
    (rectangle (num_of_Z 0) (num_of_Z 0) (num_of_Z 1000) (num_of_Z 500)) = false.
Proof.
  split; [|split].
  - apply (pointInPolygon_rectangle (Qc_of_Z 0) (Qc_of_Z 0) (Qc_of_Z 1000) (Qc_of_Z 500)
             (Qc_of_Z 500) (Qc_of_Z 250)); [reflexivity | reflexivity |].
    repeat split; discriminate.
  - apply (pointInPolygon_rectangle (Qc_of_Z 0) (Qc_of_Z 0) (Qc_of_Z 1000) (Qc_of_Z 500)
             (Qc_of_Z 1000) (Qc_of_Z 500)); [reflexivity | reflexivity |].
    repeat split; discriminate.
  - apply (pointInPolygon_rectangle (Qc_of_Z 0) (Qc_of_Z 0) (Qc_of_Z 1000) (Qc_of_Z 500)
             (Qc_of_Z 1001) (Qc_of_Z 250)); [reflexivity | reflexivity |].
    right. left. reflexivity.
Defined.

(** ** Drill holes and panels ([attachDrillHolesToPanels]) *)

Lemma sub_abs_at_most (a v c : number) :
  at_most a v → at_most a (v - Math_abs c)%js.
Proof.
  intros [-> | Hv]; [by left|].
  destruct v as [| | |x], c as [| | |y], a as [| | |z];
    unfold at_most, num_sub; simpl in *; try done; try (by left); try (by right).
  right. destruct (Qc_ltb y _) eqn:E; qc_solve.
Qed.

Section AttachFacts.
Context `{JsRuntime}.

Lemma attach_hole_state panel polyHoles assigned a hole :
  attach_hole panel (polyHoles, assigned, a) hole
  = if claimable panel hole
    then (polyHoles ++ [circle_of hole], assigned ++ [hole],
          (a - Math_abs (polygonArea (circle_of hole)))%js)
    else (polyHoles, assigned, a).
Proof.
  unfold attach_hole, claimable, circle_of, hole_center.
  destruct (Number_isFinite (hole_x hole)) eqn:Hx; simpl; [|done].
  destruct (Number_isFinite (hole_y hole)) eqn:Hy; simpl; [|done].
  destruct (hole_diameter hole / 2 <=? 0)%js eqn:Hr; simpl; [done|].
  destruct (pointInPolygon _ (polygon panel)) eqn:Hin; simpl; [|done].
  rewrite circlePath_40_length by done.
  by rewrite bool_decide_eq_true_2 by lia.
Qed.

Lemma attach_fold_state panel drills polyHoles assigned a limit :
  at_most limit a →
  ∃ a',
    foldl (attach_hole panel) (polyHoles, assigned, a) drills
    = (polyHoles ++ (circle_of <$> filter (λ hole, claimable panel hole = true) drills),
       assigned ++ filter (λ hole, claimable panel hole = true) drills, a') ∧
    at_most limit a'.
Proof.
  revert polyHoles assigned a.
  induction drills as [|hole drills IH]; intros polyHoles assigned a Ha.
  { exists a. simpl. by rewrite !app_nil_r. }
  cbn [foldl]. rewrite attach_hole_state, filter_cons.
  destruct (claimable panel hole) eqn:Hc.
  - rewrite decide_True by done.
    destruct (IH (polyHoles ++ [circle_of hole]) (assigned ++ [hole])
                (a - Math_abs (polygonArea (circle_of hole)))%js) as (a' & -> & Ha').
    { by apply sub_abs_at_most. }
    exists a'. split; [|done]. by rewrite fmap_cons, <- !app_assoc.
  - rewrite decide_False by done.
    by apply IH.
Qed.

Lemma attach_panel_frame drills panel :
  let p' := attach_panel drills panel in
  let claimed_now := filter (λ hole, claimable panel hole = true) drills in
  polygon p' = polygon panel ∧ coords p' = coords panel ∧
  width p' = width panel ∧ height p' = height panel ∧ bounds p' = bounds panel ∧
  default [] (holes p') = default [] (holes panel) ++ (circle_of <$> claimed_now) ∧
  (nonneg (area panel) → nonneg (area p') ∧ (area p' <=? area panel)%js = true).
Proof.
  cbv zeta. unfold attach_panel.
  destruct (attach_fold_state panel drills (default [] (holes panel)) [] (area panel)
              (area panel)) as (a' & Hfold & Ha').
  { destruct (area panel) as [| | |x] eqn:E; [by left|right..]; simpl; try done. qc_solve. }
  rewrite Hfold.
  cbn [polygon coords width height bounds holes area].
  do 5 (split; [done|]). split.
  - destruct (default [] (holes panel) ++ _) eqn:E; simpl; [|done].
    by apply app_eq_nil in E as [E1 E2].
  - intros Hnn.
    assert (Hself : (area panel <=? area panel)%js = true).
    { apply num_leb_same. intros E. by rewrite E in Hnn. }
    destruct Ha' as [-> | Ha']; [by split|].
    destruct a' as [| | |x]; try (by split). simpl. unfold nonneg in *.
    destruct (area panel) as [| | |y]; simpl in *; try done;
      destruct (Qc_ltb x _) eqn:E; simpl; split; try done; qc_solve.
Qed.

End AttachFacts.

(** X9: what attaching drill holes does to a panel.
    [attachDrillHolesToPanels] returns as many panels as it was given, in
    the same order; it never changes the polygon, the coordinates, the
    width, the height or the bounds of a panel; the holes of a panel
    afterwards are its holes before, followed by one circle of 40 points
    for each drill hole that the panel claims; and a panel whose area was
    [>= 0] has afterwards an area that is [>= 0] and not larger. *)
Theorem attach_changes_only_holes_and_area (rt : JsRuntime)
    (recovered : list RecoveredPanel) (drills : list DrillHole) :
  Forall2
    (λ p p',
       polygon p' = polygon p ∧ coords p' = coords p ∧
       width p' = width p ∧ height p' = height p ∧ bounds p' = bounds p ∧
       default [] (holes p')
       = default [] (holes p)
         ++ (circle_of <$> filter (λ hole, claimable p hole = true) drills) ∧
       Forall (λ circle, length circle = 40%nat)
              (circle_of <$> filter (λ hole, claimable p hole = true) drills) ∧
       (nonneg (area p) → nonneg (area p') ∧ (area p' <=? area p)%js = true))
    recovered (attachDrillHolesToPanels recovered drills).
Proof.
  assert (Hcircles : ∀ p : RecoveredPanel,
            Forall (λ circle, length circle = 40%nat)
                   (circle_of <$> filter (λ hole, claimable p hole = true) drills)).
  { intros p. apply Forall_fmap, Forall_forall. intros hole Hhole.
    apply list_elem_of_filter in Hhole as [Hc _]. unfold claimable in Hc.
    repeat (apply andb_true_iff in Hc as [Hc ?]).
    apply circlePath_40_length; try done. by apply negb_true_iff. }
  unfold attachDrillHolesToPanels. destruct drills as [|hole drills].
  - apply Forall_Forall2_diag, Forall_forall. intros p _. simpl.
    rewrite app_nil_r. repeat split; try done.
    apply num_leb_same. by intros E; rewrite E in *.
  - cbn [is_empty]. apply Forall2_fmap_r, Forall_Forall2_diag, Forall_forall.
    intros p _.
    destruct (attach_panel_frame (hole :: drills) p) as (? & ? & ? & ? & ? & ? & ?).
    repeat split; try done; by apply Hcircles || tauto.
Qed.

Lemma attach_changes_only_holes_and_area_witness :
  Forall2
    (λ p p',
       polygon p' = polygon p ∧
       default [] (holes p')
       = default [] (holes p)
         ++ (@circle_of Sample.runtime
               <$> filter (λ hole, @claimable p hole = true) [Sample.drill 500 250 8]))
    [Sample.island_panel; Sample.frame_panel]
    (@attachDrillHolesToPanels Sample.runtime [Sample.island_panel; Sample.frame_panel]
       [Sample.drill 500 250 8]).
Proof.
  eapply Forall2_impl;
    [apply (attach_changes_only_holes_and_area Sample.runtime)|].
  intros p p' (? & _ & _ & _ & _ & ? & _). by split.
Defined.

(** ** The recovery and the document ([recoverPanelsFromRouting]) *)

Lemma kerfPolygonsOf_rings (kerfUnion : Paths) :
  Forall (λ poly, 3 ≤ length poly)%nat (kerfPolygonsOf kerfUnion).
Proof.
  unfold kerfPolygonsOf. destruct (is_empty kerfUnion); [constructor|].
  apply Forall_forall. intros poly Hpoly.
  apply list_elem_of_filter in Hpoly as [Hring _].
  unfold has_ring in Hring. by apply bool_decide_eq_true in Hring.
Qed.

Lemma kerf_removed_rings (kerfPolygons : list (list Vec2)) :
  Forall proper_rings (kerf_removed kerfPolygons).
Proof.
  unfold kerf_removed. apply Forall_fmap, Forall_forall. intros poly Hpoly.
  apply list_elem_of_filter in Hpoly as [Hring _].
  unfold has_ring in Hring. apply bool_decide_eq_true in Hring.
  split; [done|constructor].
Qed.

Lemma removed_of_piece_rings (piece : Piece) (r : RemovedPolygon) :
  removed_of_piece piece = Some r → proper_rings r.
Proof.
  unfold removed_of_piece. destruct (bool_decide _) eqn:Hlen; [done|].
  apply bool_decide_eq_false in Hlen. intros [= <-]. split; [simpl; lia|].
  simpl. apply Forall_forall. intros hole Hhole.
  apply list_elem_of_filter in Hhole as [Hring _].
  unfold has_ring in Hring. by apply bool_decide_eq_true in Hring.
Qed.

Lemma sheetRect_length (w h : number) : length (fromPath (sheetRect w h)) = 4%nat.
Proof. reflexivity. Qed.

Section RecoveryDocument.
Context `{JsRuntime} `{ClipperLib}.

Lemma remainingPieces_effect sheetPath kerfUnion d :
  (remainingPieces sheetPath kerfUnion d).2 = d ∨
  ∃ msg, (remainingPieces sheetPath kerfUnion d).2 = push_parse_error msg d.
Proof.
  unfold remainingPieces, try_catch, mbind, JsM_bind, lift, modify_doc, mret, JsM_ret.
  destruct (differenceWithHoles sheetPath kerfUnion) as [remaining|err].
  - destruct (is_empty remaining); [|by left].
    destruct (difference sheetPath kerfUnion) as [fallback|err]; by left.
  - destruct (difference sheetPath kerfUnion); [right; eauto | by left].
Qed.

(** The computation of the removed shapes never throws and never touches
    the document. *)
Lemma removedShapes_effect sheetW sheetH kerfPolygons final d :
  ∃ removed,
    removedShapes sheetW sheetH kerfPolygons final d = (Normal removed, d) ∧
    Forall proper_rings removed.
Proof.
  unfold removedShapes, try_catch, mbind, JsM_bind, lift, mret, JsM_ret.
  destruct (negb _).
  - destruct (differenceWithHoles _ _) as [pieces|err].
    + eexists. split; [done|]. apply Forall_forall. intros r Hr.
      apply list_elem_of_omap in Hr as (piece & _ & Hr).
      by eapply removed_of_piece_rings.
    + eexists. split; [done|]. apply kerf_removed_rings.
  - eexists. split; [done|]. constructor; [|constructor].
    split; [simpl; lia | constructor].
Qed.

Lemma attach_panel_proper drills p : proper_panel p → proper_panel (attach_panel drills p).
Proof.
  intros (Hlen & Hcoords & Hholes). unfold proper_panel, attach_panel.
  destruct (foldl _ _ _) as [[polyHoles assigned] a]. simpl.
  split; [done|]. split; [done|]. by destruct (is_empty polyHoles).
Qed.

Lemma attachDrillHolesToPanels_proper recovered drills :
  Forall proper_panel recovered →
  Forall proper_panel (attachDrillHolesToPanels recovered drills).
Proof.
  intros Hall. unfold attachDrillHolesToPanels. destruct (is_empty drills); [done|].
  apply Forall_fmap. eapply Forall_impl; [exact Hall|].
  intros p. apply attach_panel_proper.
Qed.

Lemma sheetPanel_proper sheetW sheetH : proper_panel (sheetPanel sheetW sheetH).
Proof. split; [simpl; lia|]. by split. Qed.

Lemma panel_of_piece_proper opts piece p :
  panel_of_piece opts piece = Some p → proper_panel p.
Proof.
  unfold panel_of_piece. destruct (bool_decide _) eqn:Hlen; [done|].
  apply bool_decide_eq_false in Hlen.
  destruct (_ <? _)%js; [done|]. intros [= <-]. split; [simpl; lia|]. by split.
Qed.

Lemma finalPanels_not_empty labelPoints recovered :
  recovered ≠ [] → finalPanels labelPoints recovered ≠ [].
Proof.
  intros Hne. unfold finalPanels.
  destruct (is_empty (labeledPanels labelPoints recovered)) eqn:E; simpl; [done|].
  by apply is_empty_false.
Qed.

Lemma recover_document opts doc :
  let run := recoverPanelsFromRouting opts doc in
  let sheetW := default 0%js (sheet_width (metadata doc)) in
  let sheetH := default 0%js (sheet_height (metadata doc)) in
  same_inputs doc run.2 ∧
  (∃ errs, parse_errors run.2 = parse_errors doc ++ errs ∧ (length errs ≤ 1)%nat) ∧
  ((sheetW <=? 0)%js || (sheetH <=? 0)%js = true → run = (Normal [], doc)) ∧
  ((sheetW <=? 0)%js || (sheetH <=? 0)%js = false →
   ∀ res, run.1 = Normal res →
     ∃ kerfPolygons removed,
       kerf_polygons (metadata run.2) = Some kerfPolygons ∧
       removed_polygons (metadata run.2) = Some removed ∧
       Forall (λ poly, 3 ≤ length poly)%nat kerfPolygons ∧
       Forall proper_rings removed).
Proof.
  intros run sheetW sheetH. unfold run. clear run.
  destruct (recoverPanelsFromRouting opts doc) as [out doc'] eqn:Hrun. cbn [fst snd].
  unfold recoverPanelsFromRouting, mbind, JsM_bind, get_doc, lift in Hrun.
  fold sheetW sheetH in Hrun.
  assert (Hsame : same_inputs doc doc) by by repeat split.
  assert (Hnone : ∃ errs, parse_errors doc = parse_errors doc ++ errs ∧ (length errs ≤ 1)%nat).
  { exists []. split; [by rewrite app_nil_r | simpl; lia]. }
  destruct ((sheetW <=? 0)%js || (sheetH <=? 0)%js) eqn:Hdims.
  { unfold mret, JsM_ret in Hrun. injection Hrun as <- <-. by repeat split. }
  destruct (collectKerfs _ _ _) as [kerfs|err].
  2:{ injection Hrun as <- <-. by repeat split. }
  destruct (is_empty kerfs).
  { unfold modify_doc, mret, JsM_ret in Hrun. injection Hrun as <- <-.
    split; [by repeat split|]. split; [exact Hnone|]. split; [done|].
    intros _ res _. exists [], []. by repeat split. }
  destruct (unionPaths kerfs) as [kerfUnion|err].
  2:{ injection Hrun as <- <-. by repeat split. }
  unfold modify_doc at 1 in Hrun.
  set (doc1 := set_kerf_polygons (kerfPolygonsOf kerfUnion) doc) in *.
  pose proof (remainingPieces_effect [sheetRect sheetW sheetH] kerfUnion doc1) as Hrem.
  destruct (remainingPieces _ _ doc1) as [[remaining|err] doc2]. cbn [snd] in Hrem.
  2:{ injection Hrun as <- <-. cbn [snd] in Hrem.
      split; [|split; [|split]]; try done.
      - by destruct Hrem as [-> | [msg ->]].
      - destruct Hrem as [-> | [msg ->]]; [exact Hnone|].
        exists [msg]. split; [done | simpl; lia]. }
  assert (Hdoc2 : same_inputs doc doc2 ∧
            (∃ errs, parse_errors doc2 = parse_errors doc ++ errs ∧ (length errs ≤ 1)%nat) ∧
            kerf_polygons (metadata doc2) = Some (kerfPolygonsOf kerfUnion)).
  { destruct Hrem as [-> | [msg ->]]; (split; [by repeat split|]); (split; [|done]);
      [exact Hnone | exists [msg]; split; [done | simpl; lia]]. }
  destruct Hdoc2 as (Hsame2 & Herrs2 & Hkerf2).
  pose proof (kerfPolygonsOf_rings kerfUnion) as Hrings.
  destruct (is_empty (recoveredPanels _ _ _)).
  { unfold modify_doc, mret, JsM_ret in Hrun. injection Hrun as <- <-.
    split; [exact Hsame2|]. split; [exact Herrs2|]. split; [done|].
    intros _ res _. eexists _, _. split; [exact Hkerf2|]. split; [done|].
    split; [done|]. apply kerf_removed_rings. }
  destruct (removedShapes_effect sheetW sheetH (kerfPolygonsOf kerfUnion)
              (finalPanels (labelPointsOf doc)
                 (recoveredPanels opts remaining
                    (default [] (drilling (metadata doc))))) doc2)
    as (removed & Hshapes & Hremoved).
  rewrite Hshapes in Hrun.
  unfold modify_doc, mret, JsM_ret in Hrun. injection Hrun as <- <-.
  split; [exact Hsame2|]. split; [exact Herrs2|]. split; [done|].
  intros _ res _. exists (kerfPolygonsOf kerfUnion), removed. by repeat split.
Qed.

End RecoveryDocument.

(** X10: the panels that the recovery returns.  On a sheet of positive
    width and height a normal return of [recoverPanelsFromRouting] holds at
    least one panel, and every panel it holds has an outer ring of at least
    three points, [coords] equal to that ring, and a list of holes. *)
Theorem recovered_panels_are_proper (rt : JsRuntime) (clipper : ClipperLib)
    opts doc res doc' :
  recoverPanelsFromRouting opts doc = (Normal res, doc') →
  (default 0%js (sheet_width (metadata doc)) <=? 0)%js
  || (default 0%js (sheet_height (metadata doc)) <=? 0)%js = false →
  res ≠ [] ∧ Forall proper_panel res.
Proof.
  intros Hrun Hdims. apply recover_cases in Hrun.
  assert (Hsheet : ∀ w h drills,
            attachDrillHolesToPanels [sheetPanel w h] drills ≠ [] ∧
            Forall proper_panel (attachDrillHolesToPanels [sheetPanel w h] drills)).
  { intros w h drills. split.
    - unfold attachDrillHolesToPanels. by destruct (is_empty drills).
    - apply attachDrillHolesToPanels_proper. repeat constructor; simpl; eauto; lia. }
  destruct Hrun as [(Hno & _) | (_ & [(_ & -> & _) | (kerfs & remaining & _ & _ & Hres)])].
  - by rewrite Hdims in Hno.
  - apply Hsheet.
  - destruct Hres as [(_ & ->) | (Hne & ->)]; [apply Hsheet|].
    split; [by apply finalPanels_not_empty|].
    apply Forall_forall. intros p Hp. apply finalPanels_subseteq in Hp.
    revert p Hp. apply Forall_forall. apply attachDrillHolesToPanels_proper.
    apply Forall_forall. intros q Hq.
    apply list_elem_of_omap in Hq as (piece & _ & Hq).
    by eapply panel_of_piece_proper.
Qed.

Lemma recovered_panels_are_proper_witness :
  Sample.ring_cut_panels ≠ [] ∧ Forall proper_panel Sample.ring_cut_panels.
Proof.
  apply (recovered_panels_are_proper Sample.runtime Sample.ring_cut_clipper no_options
           Sample.ring_cut_doc Sample.ring_cut_panels
           (@recoverPanelsFromRouting Sample.runtime Sample.ring_cut_clipper no_options
              Sample.ring_cut_doc).2).
  - assert (Hres : (@recoverPanelsFromRouting Sample.runtime Sample.ring_cut_clipper
                      no_options Sample.ring_cut_doc).1 = Normal Sample.ring_cut_panels).
    { apply (bool_decide_eq_true_1 _). vm_compute. reflexivity. }
    rewrite <- Hres. apply surjective_pairing.
  - reflexivity.
Defined.

(** X11: what the recovery does to the document.  Whether it returns or
    throws, [recoverPanelsFromRouting] leaves the file name, the sheet
    identifier, the labels, the raw content, the sheet dimensions, the
    routing paths, the drilling list and [recovered_panels] of the document
    as they were, and appends at most one message to [parse_errors]; on a
    sheet whose width or height is not positive it returns the empty list
    and leaves the whole document as it was. *)
Theorem recovery_leaves_inputs (rt : JsRuntime) (clipper : ClipperLib) opts doc :
  let run := recoverPanelsFromRouting opts doc in
  same_inputs doc run.2 ∧
  (∃ errs, parse_errors run.2 = parse_errors doc ++ errs ∧ (length errs ≤ 1)%nat) ∧
  ((default 0%js (sheet_width (metadata doc)) <=? 0)%js
   || (default 0%js (sheet_height (metadata doc)) <=? 0)%js = true →
   run = (Normal [], doc)).
Proof.
  intros run. destruct (recover_document opts doc) as (Hsame & Herrs & Hflat & _).
  split; [exact Hsame|]. split; [exact Herrs | exact Hflat].
Qed.

Lemma recovery_leaves_inputs_witness :
  @recoverPanelsFromRouting Sample.runtime Sample.no_clipper no_options Sample.flat_sheet_doc
  = (Normal [], Sample.flat_sheet_doc).
Proof.
  apply (recovery_leaves_inputs Sample.runtime Sample.no_clipper no_options
           Sample.flat_sheet_doc).
  reflexivity.
Defined.

(** X12: the shapes that the recovery stores.  After a normal return on a
    sheet of positive width and height, [kerf_polygons] and
    [removed_polygons] of the document are both set; every kerf polygon has
    at least three points, and every removed polygon has an outer ring of
    at least three points and holes of at least three points each. *)
Theorem stored_shapes_are_rings (rt : JsRuntime) (clipper : ClipperLib)
    opts doc res doc' :
  recoverPanelsFromRouting opts doc = (Normal res, doc') →
  (default 0%js (sheet_width (metadata doc)) <=? 0)%js
  || (default 0%js (sheet_height (metadata doc)) <=? 0)%js = false →
  ∃ kerfPolygons removed,
    kerf_polygons (metadata doc') = Some kerfPolygons ∧
    removed_polygons (metadata doc') = Some removed ∧
    Forall (λ poly, 3 ≤ length poly)%nat kerfPolygons ∧
    Forall proper_rings removed.
Proof.
  intros Hrun Hdims.
  destruct (recover_document opts doc) as (_ & _ & _ & Hshapes).
  rewrite Hrun in Hshapes. by apply (Hshapes Hdims res).
Qed.

Lemma stored_shapes_are_rings_witness :
  ∃ kerfPolygons removed,
    kerf_polygons (metadata (@recoverPanelsFromRouting Sample.runtime Sample.ring_cut_clipper
                               no_options Sample.ring_cut_doc).2) = Some kerfPolygons ∧
    removed_polygons (metadata (@recoverPanelsFromRouting Sample.runtime
                                  Sample.ring_cut_clipper no_options Sample.ring_cut_doc).2)
    = Some removed ∧
    Forall (λ poly, 3 ≤ length poly)%nat kerfPolygons ∧
    Forall proper_rings removed.
Proof.
  apply (stored_shapes_are_rings Sample.runtime Sample.ring_cut_clipper no_options
           Sample.ring_cut_doc Sample.ring_cut_panels).
  - assert (Hres : (@recoverPanelsFromRouting Sample.runtime Sample.ring_cut_clipper
                      no_options Sample.ring_cut_doc).1 = Normal Sample.ring_cut_panels).
    { apply (bool_decide_eq_true_1 _). vm_compute. reflexivity. }
    rewrite <- Hres. apply surjective_pairing.
  - reflexivity.
Defined.

(** ** The pieces of a clipper tree ([differenceWithHoles]) *)

(** Induction on a tree through the list of its children. *)
Lemma PolyNode_forest_ind (P : PolyNode → Prop) :
  (∀ contour is_hole childs, Forall P childs → P (mkPolyNode contour is_hole childs)) →
  ∀ node, P node.
Proof.
  intros Hnode. fix IH 1. intros [contour is_hole childs].
  apply Hnode. induction childs as [|child childs IHchilds]; constructor.
  - apply IH.
  - exact IHchilds.
Qed.

Lemma visit_nodes (node : PolyNode) :
  visit node = piece_of <$> filter (λ n, solid n = true) (nodes node).
Proof.
  induction node as [contour is_hole childs IH] using PolyNode_forest_ind.
  assert (Hchilds : flat_map visit childs
                    = piece_of <$> filter (λ n, solid n = true) (flat_map nodes childs)).
  { induction IH as [|child childs Hchild _ IHchilds]; [done|].
    cbn [flat_map]. by rewrite filter_app, fmap_app, Hchild, IHchilds. }
  cbn [visit nodes]. rewrite filter_app, fmap_app, <- Hchilds.
  rewrite filter_cons, filter_nil.
  destruct (decide (solid (mkPolyNode contour is_hole childs) = true)) as [Hs|Hs];
    unfold solid in Hs; cbn [Contour IsHole] in Hs.
  - apply andb_true_iff in Hs as [Hc Hh]. apply negb_true_iff in Hc, Hh.
    by rewrite Hc, Hh.
  - destruct (is_empty contour); [by rewrite fmap_nil, app_nil_r|].
    destruct is_hole; [done|]. by exfalso; apply Hs.
Qed.

(** X13: which pieces [differenceWithHoles] returns.  With no subject path
    it returns no piece and does not call clipper.  Otherwise its pieces
    are, in the order children-before-parent, exactly the nodes of the
    clipper tree that have a contour and are not holes, at any depth of
    nesting; the piece of such a node has the contour of the node as its
    outer ring and, as its holes, the contours of those children of the
    node that are holes.  A contour of a hole is never the outer ring of a
    piece. *)
Theorem pieces_are_the_solid_nodes (clipper : ClipperLib)
    (subject clip : Paths) :
  differenceWithHoles [] clip = Normal [] ∧
  (subject ≠ [] →
   differenceWithHoles subject clip
   = tree ← Clipper_difference_tree subject clip;
     Normal (piece_of <$> filter (λ n, solid n = true) (flat_map nodes tree))) ∧
  (∀ pieces piece,
     differenceWithHoles subject clip = Normal pieces → piece ∈ pieces →
     piece_outer piece ≠ [] ∧ Forall (λ hole, hole ≠ []) (piece_holes piece)).
Proof.
  assert (Hforest : ∀ tree,
            flat_map visit tree
            = piece_of <$> filter (λ n, solid n = true) (flat_map nodes tree)).
  { induction tree as [|node tree IH]; [done|].
    cbn [flat_map]. by rewrite filter_app, fmap_app, visit_nodes, IH. }
  split; [done|]. split.
  - intros Hne. unfold differenceWithHoles.
    apply is_empty_false in Hne. rewrite Hne.
    destruct (Clipper_difference_tree subject clip) as [tree|err]; [|done].
    cbn [mbind outcome_bind]. by rewrite Hforest.
  - intros pieces piece. unfold differenceWithHoles.
    destruct (is_empty subject).
    { intros [= <-] Hin. by apply elem_of_nil in Hin. }
    destruct (Clipper_difference_tree subject clip) as [tree|err]; [|done].
    cbn [mbind outcome_bind]. intros [= <-]. rewrite Hforest.
    intros Hin. apply list_elem_of_fmap in Hin as (node & -> & Hnode).
    apply list_elem_of_filter in Hnode as [Hsolid _].
    unfold solid in Hsolid. apply andb_true_iff in Hsolid as [Hcontour _].
    apply negb_true_iff, is_empty_false in Hcontour.
    split; [done|]. unfold piece_of, hole_contours. cbn [piece_holes].
    apply Forall_forall. intros hole Hhole.
    apply list_elem_of_In, in_flat_map in Hhole as (child & _ & Hhole).
    destruct (IsHole child); [|done].
    destruct (is_empty (Contour child)) eqn:E; [done|].
    apply is_empty_false in E. by destruct Hhole as [<- | []].
Qed.

Lemma pieces_are_the_solid_nodes_witness :
  @differenceWithHoles Sample.ring_cut_clipper
    [Sample.irect 0 0 1000000 500000] Sample.kerf_band
  = Normal (piece_of <$> filter (λ n, solid n = true)
                           (flat_map nodes Sample.frame_and_island)).
Proof.
  apply (proj1 (proj2 (pieces_are_the_solid_nodes Sample.ring_cut_clipper
                         [Sample.irect 0 0 1000000 500000] Sample.kerf_band))).
  discriminate.
Defined.

(** ** Paths that cut and paths that do not ([addKerfsForPaths], [isThroughCut]) *)

Section Kerfs.
Context `{JsRuntime} `{ClipperLib}.
Variable opts : RecoverOptions.

Lemma addKerfsForPaths_skip path paths kerfs :
  cuttable opts path = false →
  addKerfsForPaths opts (path :: paths) kerfs = addKerfsForPaths opts paths kerfs.
Proof.
  unfold cuttable. cbv zeta. intros Hcut. cbn [addKerfsForPaths].
  rewrite length_fmap.
  destruct (decide (length (points path) < 2)%nat) as [Hlen|Hlen].
  { by rewrite bool_decide_eq_true_2. }
  rewrite bool_decide_eq_false_2 by done.
  rewrite bool_decide_eq_true_2 in Hcut by lia. cbn [andb] in Hcut.
  destruct (Number_isFinite _); [|done]. cbn [andb negb orb] in *.
  apply negb_false_iff in Hcut. by rewrite Hcut.
Qed.

Lemma addKerfsForPaths_uncuttable paths kerfs :
  Forall (λ path, cuttable opts path = false) paths →
  addKerfsForPaths opts paths kerfs = Normal kerfs.
Proof.
  induction 1 as [|path paths Hpath _ IH]; [done|].
  by rewrite addKerfsForPaths_skip.
Qed.

Lemma collectKerfs_uncuttable sheetT routing :
  Forall (λ path, cuttable opts path = false) routing →
  collectKerfs opts sheetT routing = Normal [].
Proof.
  intros Hall. unfold collectKerfs. rewrite addThroughCutKerfs_filter.
  rewrite addKerfsForPaths_uncuttable.
  - cbn [mbind outcome_bind is_empty andb].
    destruct (negb (is_empty routing)); [|done].
    by apply addKerfsForPaths_uncuttable.
  - apply Forall_forall. intros path Hpath.
    apply list_elem_of_filter in Hpath as [_ Hpath].
    revert path Hpath. by apply Forall_forall.
Qed.

End Kerfs.

(** X14: routing that cannot cut.  If every routing path of a document has
    fewer than two points or a tool radius (half the diameter of the path,
    or of the default bit, times the kerf scale) that is not a positive
    finite number, then on a sheet of positive width and height
    [recoverPanelsFromRouting] returns the whole-sheet panel with the drill
    holes attached, stores empty lists of kerf and removed polygons, and
    never calls clipper: the result is the same whatever clipper does. *)
Theorem uncuttable_routing_keeps_sheet (rt : JsRuntime) (clipper : ClipperLib) opts doc :
  let sheetW := default 0%js (sheet_width (metadata doc)) in
  let sheetH := default 0%js (sheet_height (metadata doc)) in
  (sheetW <=? 0)%js || (sheetH <=? 0)%js = false →
  Forall (λ path, cuttable opts path = false) (default [] (routing_paths (metadata doc))) →
  recoverPanelsFromRouting opts doc
  = (Normal (attachDrillHolesToPanels [sheetPanel sheetW sheetH]
               (default [] (drilling (metadata doc)))),
     set_removed_polygons [] (set_kerf_polygons [] doc)).
Proof.
  intros sheetW sheetH Hdims Hall.
  unfold recoverPanelsFromRouting, mbind, JsM_bind, get_doc, lift.
  fold sheetW sheetH. rewrite Hdims.
  by rewrite collectKerfs_uncuttable.
Qed.

Lemma uncuttable_routing_keeps_sheet_witness :
  let doc := Sample.sheet_doc (num_of_Z 1000) (num_of_Z 500) (num_of_Z 18)
               [new_path] [Sample.drill 500 250 8] [] in
  @recoverPanelsFromRouting Sample.runtime Sample.no_clipper no_options doc
  = (Normal (@attachDrillHolesToPanels Sample.runtime
               [sheetPanel (num_of_Z 1000) (num_of_Z 500)] [Sample.drill 500 250 8]),
     set_removed_polygons [] (set_kerf_polygons [] doc)).
Proof.
  intros doc.
  apply (uncuttable_routing_keeps_sheet Sample.runtime Sample.no_clipper no_options doc).
  - reflexivity.
  - repeat constructor.
Defined.

Section DepthFacts.
Context `{JsRuntime}.

Lemma tryParse_not_NaN v : tryParse v ≠ NaN.
Proof.
  unfold tryParse. destruct (Number_isFinite _) eqn:E; [|done].
  apply finite_is_Fin in E as [q ->]. done.
Qed.

Lemma Math_max_at_least (a b : number) :
  a ≠ NaN → b ≠ NaN → Math_max a b ≠ NaN ∧ (a <=? Math_max a b)%js = true.
Proof.
  intros Ha Hb. destruct (Math_max_cases a b Ha Hb) as ([-> | ->] & ? & ?); by split.
Qed.

Lemma pathDepth_at_least path :
  max_depth path ≠ NaN → (Math_abs (max_depth path) <=? pathDepth path)%js = true.
Proof.
  intros Hmd. unfold pathDepth. cbv zeta.
  assert (H0 : Math_abs (max_depth path) ≠ NaN) by by destruct (max_depth path).
  pose proof (tryParse_not_NaN (params path !! "PR")) as HPR.
  pose proof (tryParse_not_NaN (params path !! "DP")) as HDP.
  pose proof (tryParse_not_NaN (params path !! "ZE")) as HZE.
  pose proof (tryParse_not_NaN (params path !! "Z")) as HZ.
  destruct (Math_max_at_least _ _ H0 HPR) as [H1 L1].
  destruct (Math_max_at_least _ _ H1 HDP) as [H2 L2].
  destruct (Math_max_at_least _ _ H2 HZE) as [H3 L3].
  destruct (Math_max_at_least _ _ H3 HZ) as [H4 L4].
  eapply num_leb_trans; [exact L1|]. eapply num_leb_trans; [exact L2|].
  eapply num_leb_trans; [exact L3|exact L4].
Qed.

End DepthFacts.

(** X15: a cut through the whole sheet is a through-cut.  For a sheet of
    finite positive thickness and a depth ratio that is at most [1], a
    routing path whose recorded [max_depth] is at least the thickness in
    absolute value is classified as a through-cut, whatever its
    parameters. *)
Theorem full_depth_is_through_cut (rt : JsRuntime) (path : RoutingPath)
    (sheetThickness ratio : number) :
  Number_isFinite sheetThickness = true → (sheetThickness >? 0)%js = true →
  (ratio <=? 1)%js = true →
  (sheetThickness <=? Math_abs (max_depth path))%js = true →
  isThroughCut path sheetThickness ratio = true.
Proof.
  intros Hfin Hpos Hratio Hdeep. unfold isThroughCut. cbv zeta.
  rewrite (num_gtb_not_leb _ Hpos). unfold num_geb.
  assert (Hmd : max_depth path ≠ NaN).
  { intros E. rewrite E in Hdeep. by destruct sheetThickness. }
  eapply num_leb_trans; [|by apply pathDepth_at_least].
  eapply num_leb_trans; [|exact Hdeep].
  apply finite_is_Fin in Hfin as [t ->].
  destruct ratio as [| | |r]; simpl in *; try done.
  - unfold scale_inf.
    replace (Qc_is_zero t) with false by (symmetry; qc_solve).
    by replace (Qc_ltb 0 t) with true by (symmetry; unfold num_gtb in Hpos; simpl in Hpos; qc_solve).
  - unfold num_gtb in Hpos. simpl in Hpos. qc_bool. qc_to_q. nra.
Qed.

Lemma full_depth_is_through_cut_witness :
  @isThroughCut Sample.runtime Sample.ring_cut (num_of_Z 18) (num_of_Q (8 # 10)) = true.
Proof. by apply full_depth_is_through_cut. Defined.

(** ** What [parse] returns *)

Section ParseFacts.
Context `{JsRuntime}.





End ParseFacts.



(** ** The sheet identifier *)

Lemma has_char_app (c : ascii) (s t : string) :
  has_char c (s ++ t)%string = has_char c s || has_char c t.
Proof.
  induction s as [|d s IH]; [done|]. simpl. rewrite IH. by rewrite orb_assoc.
Qed.





Lemma append_empty (s : string) : (s ++ EmptyString)%string = s.
Proof.
  induction s as [|c s IH]; [done|].
  change (String c s ++ EmptyString)%string with (String c (s ++ EmptyString)%string).
  by rewrite IH.
Qed.





(** ** The blocks of a CIX text ([parseMaindata], [parseMacros]) *)

Lemma prefix_head (a c : ascii) (p s : string) :
  String.prefix (String a p) (String c s) = true → a = c.
Proof. cbn [String.prefix]. by destruct (ascii_dec a c). Qed.

Lemma prefix_head_ne (a c : ascii) (p s : string) :
  a ≠ c → String.prefix (String a p) (String c s) = false.
Proof. intros Hne. cbn [String.prefix]. by destruct (ascii_dec a c). Qed.

Lemma closes_is_not_opens_maindata (raw : string) :
  closes_maindata raw = true → opens_maindata raw = false.
Proof.
  unfold closes_maindata, opens_maindata, startsWith.
  destruct (trim raw) as [|c s]; [done|]. intros Hc.
  apply prefix_head in Hc as <-. by apply prefix_head_ne.
Qed.

Lemma closes_is_not_opens_macro (raw : string) :
  closes_macro raw = true → opens_macro raw = false.
Proof.
  unfold closes_macro, opens_macro, startsWith.
  destruct (trim raw) as [|c s]; [done|]. intros Hc.
  apply prefix_head in Hc as <-. by apply prefix_head_ne.
Qed.

Section Blocks.
Context `{JsRuntime}.

Lemma parseMaindata_loop_stops pre e post inMain maindata :
  closes_maindata e = true →
  parseMaindata_loop (pre ++ e :: post) inMain maindata
  = parseMaindata_loop (pre ++ [e]) inMain maindata.
Proof.
  intros He. pose proof (closes_is_not_opens_maindata e He) as Hno.
  unfold closes_maindata, opens_maindata in *.
  revert inMain maindata. induction pre as [|raw pre IH]; intros inMain maindata.
  - cbn [app parseMaindata_loop]. by rewrite Hno, He.
  - cbn [app parseMaindata_loop].
    destruct (startsWith (trim raw) "BEGIN MAINDATA"); [apply IH|].
    destruct (startsWith (trim raw) "END MAINDATA"); [done|].
    destruct (negb inMain); [apply IH|].
    destruct (maindata_entry (trim raw)) as [[key parsed]|]; apply IH.
Qed.

Lemma parseMaindata_loop_skips pre rest maindata :
  Forall (λ raw, opens_maindata raw = false ∧ closes_maindata raw = false) pre →
  parseMaindata_loop (pre ++ rest) false maindata
  = parseMaindata_loop rest false maindata.
Proof.
  unfold opens_maindata, closes_maindata.
  induction 1 as [|raw pre [Ho Hc] _ IH]; [done|].
  cbn [app parseMaindata_loop]. by rewrite Ho, Hc.
Qed.

Lemma parseMaindata_loop_entries lines inMain maindata :
  (∀ key v, maindata !! key = Some v → key ∈ sheet_keys ∧ v ≠ NaN) →
  ∀ key v, parseMaindata_loop lines inMain maindata !! key = Some v →
           key ∈ sheet_keys ∧ v ≠ NaN.
Proof.
  revert inMain maindata.
  induction lines as [|raw lines IH]; intros inMain maindata Hm; [done|].
  cbn [parseMaindata_loop].
  destruct (startsWith (trim raw) "BEGIN MAINDATA"); [by apply IH|].
  destruct (startsWith (trim raw) "END MAINDATA"); [done|].
  destruct (negb inMain); [by apply IH|].
  destruct (maindata_entry (trim raw)) as [[key' parsed]|] eqn:Hentry; [|by apply IH].
  apply IH. intros key v Hkey.
  apply lookup_insert_Some in Hkey as [(<- & <-) | (_ & Hkey)]; [|by apply Hm].
  by eapply maindata_entry_key.
Qed.

Lemma parseMacros_loop_acc lines inMacro cur macros :
  parseMacros_loop lines inMacro cur macros
  = macros ++ parseMacros_loop lines inMacro cur [].
Proof.
  revert inMacro cur macros.
  induction lines as [|raw lines IH]; intros inMacro cur macros.
  { by rewrite app_nil_r. }
  cbn [parseMacros_loop].
  destruct (startsWith (trim raw) "BEGIN MACRO"); [apply IH|].
  destruct (startsWith (trim raw) "END MACRO").
  { destruct cur as [m|]; [|apply IH].
    rewrite IH, (IH _ _ ([] ++ [m])). by rewrite <- app_assoc. }
  destruct cur as [m|]; [|apply IH].
  destruct (negb inMacro); [apply IH|].
  destruct (startsWith (trim raw) "NAME="); [apply IH|].
  destruct (startsWith (trim raw) "PARAM"); [|apply IH].
  destruct (named_value _) as [[name value]|]; apply IH.
Qed.

Lemma parseMacros_loop_resumes pre e post inMacro cur macros :
  closes_macro e = true →
  parseMacros_loop (pre ++ e :: post) inMacro cur macros
  = parseMacros_loop post false None (parseMacros_loop (pre ++ [e]) inMacro cur macros).
Proof.
  intros He. pose proof (closes_is_not_opens_macro e He) as Hno.
  unfold closes_macro, opens_macro in *.
  revert inMacro cur macros. induction pre as [|raw pre IH]; intros inMacro cur macros.
  - cbn [app parseMacros_loop]. by rewrite Hno, He.
  - cbn [app parseMacros_loop].
    destruct (startsWith (trim raw) "BEGIN MACRO"); [apply IH|].
    destruct (startsWith (trim raw) "END MACRO"); [apply IH|].
    destruct cur as [m|]; [|apply IH].
    destruct (negb inMacro); [apply IH|].
    destruct (startsWith (trim raw) "NAME="); [apply IH|].
    destruct (startsWith (trim raw) "PARAM"); [|apply IH].
    destruct (named_value _) as [[name value]|]; apply IH.
Qed.

Lemma parseMacros_loop_open lines inMacro cur :
  Forall (λ raw, closes_macro raw = false) lines →
  parseMacros_loop lines inMacro cur [] = [].
Proof.
  unfold closes_macro. intros Hall. revert inMacro cur.
  induction Hall as [|raw lines Hraw _ IH]; intros inMacro cur; [done|].
  cbn [parseMacros_loop]. rewrite Hraw.
  destruct (startsWith (trim raw) "BEGIN MACRO"); [apply IH|].
  destruct cur as [m|]; [|apply IH].
  destruct (negb inMacro); [apply IH|].
  destruct (startsWith (trim raw) "NAME="); [apply IH|].
  destruct (startsWith (trim raw) "PARAM"); [|apply IH].
  destruct (named_value _) as [[name value]|]; apply IH.
Qed.

End Blocks.

(** X19: [parseMaindata] reads the MAINDATA block and nothing else.  Lines
    in front of the block (lines that neither open nor close it) and
    everything behind the first line that closes it have no effect on the
    result; the result holds no key but LPX, LPY and LPZ, and no value that
    is [NaN]. *)
Theorem maindata_reads_the_block_only (rt : JsRuntime) :
  (∀ pre e post,
     closes_maindata e = true →
     parseMaindata (pre ++ e :: post) = parseMaindata (pre ++ [e])) ∧
  (∀ pre rest,
     Forall (λ raw, opens_maindata raw = false ∧ closes_maindata raw = false) pre →
     parseMaindata (pre ++ rest) = parseMaindata rest) ∧
  (∀ lines key v,
     parseMaindata lines !! key = Some v → key ∈ sheet_keys ∧ v ≠ NaN).
Proof.
  split; [|split].
  - intros pre e post He. by apply parseMaindata_loop_stops.
  - intros pre rest Hpre. by apply parseMaindata_loop_skips.
  - intros lines. apply parseMaindata_loop_entries. intros key v Hkey.
    by rewrite lookup_empty in Hkey.
Qed.

Lemma maindata_reads_the_block_only_witness :
  @parseMaindata Sample.runtime
    (["BEGIN MAINDATA"; "LPX=1000"] ++ "END MAINDATA" :: ["LPX=5"; "BEGIN MAINDATA"; "LPY=7"])
  = @parseMaindata Sample.runtime (["BEGIN MAINDATA"; "LPX=1000"] ++ ["END MAINDATA"]) ∧
  @parseMaindata Sample.runtime (["LPX=3"; "NAME=LABEL"] ++ ["BEGIN MAINDATA"; "LPX=1000"])
  = @parseMaindata Sample.runtime ["BEGIN MAINDATA"; "LPX=1000"].
Proof.
  destruct (maindata_reads_the_block_only Sample.runtime) as (Hstop & Hskip & _).
  split; [by apply Hstop | apply Hskip; by repeat constructor].
Defined.

(** X20: [parseMacros] reads one macro block at a time.  A line that closes
    a macro ends everything that came before it: the macros of a text are
    the macros of the part up to such a line followed by the macros of the
    part behind it.  A macro that is opened but never closed is not
    returned: a text without a closing line yields no macro. *)
Theorem macros_are_read_block_by_block :
  (∀ pre e post,
     closes_macro e = true →
     parseMacros (pre ++ e :: post) = parseMacros (pre ++ [e]) ++ parseMacros post) ∧
  (∀ lines, Forall (λ raw, closes_macro raw = false) lines → parseMacros lines = []).
Proof.
  split.
  - intros pre e post He. unfold parseMacros.
    by rewrite parseMacros_loop_resumes, parseMacros_loop_acc.
  - intros lines Hopen. by apply parseMacros_loop_open.
Qed.

Lemma macros_are_read_block_by_block_witness :
  parseMacros
    (["BEGIN MACRO"; "NAME=LABEL"] ++ "END MACRO" :: ["BEGIN MACRO"; "NAME=BV"; "END MACRO"])
  = parseMacros (["BEGIN MACRO"; "NAME=LABEL"] ++ ["END MACRO"])
    ++ parseMacros ["BEGIN MACRO"; "NAME=BV"; "END MACRO"] ∧
  parseMacros ["BEGIN MACRO"; "NAME=LABEL"; "PARAM,NAME=ID,VALUE=P1"] = [].
Proof.
  destruct macros_are_read_block_by_block as (Hsplit & Hopen).
  split; [by apply Hsplit | apply Hopen; by repeat constructor].
Defined.

(** ** Parameter lines ([parseParamLine]) *)

Lemma string_app_cons (c : ascii) (s t : string) :
  (String c s ++ t)%string = String c (s ++ t)%string.
Proof. reflexivity. Qed.

Lemma string_app_assoc (s t u : string) :
  ((s ++ t) ++ u)%string = (s ++ (t ++ u))%string.
Proof.
  induction s as [|c s IH]; [done|]. by rewrite !string_app_cons, IH.
Qed.

Lemma prefix_single (c d : ascii) (s : string) :
  String.prefix (String c EmptyString) (String d s) = Ascii.eqb d c.
Proof.
  cbn [String.prefix]. destruct (ascii_dec c d) as [->|Hne].
  - rewrite Ascii.eqb_refl. by destruct s.
  - symmetry. apply Ascii.eqb_neq. congruence.
Qed.

Lemma split_from_plain (c : ascii) (cur s : string) :
  has_char c s = false →
  split_from (String c EmptyString) 0 cur s = [(cur ++ s)%string].
Proof.
  revert cur. induction s as [|d s IH]; intros cur Hno.
  { cbn [split_from]. by rewrite append_empty. }
  cbn [has_char] in Hno. apply orb_false_iff in Hno as [Hd Hs].
  cbn [split_from]. rewrite prefix_single, Hd.
  rewrite IH by done. by rewrite string_app_assoc.
Qed.

Lemma split_from_sep (c : ascii) (cur a rest : string) :
  has_char c a = false →
  split_from (String c EmptyString) 0 cur (a ++ String c rest)
  = (cur ++ a)%string :: split_from (String c EmptyString) 0 EmptyString rest.
Proof.
  revert cur. induction a as [|d a IH]; intros cur Hno.
  { change (EmptyString ++ String c rest)%string with (String c rest).
    cbn [split_from]. rewrite prefix_single, Ascii.eqb_refl.
    by rewrite append_empty. }
  cbn [has_char] in Hno. apply orb_false_iff in Hno as [Hd Ha].
  rewrite string_app_cons. cbn [split_from]. rewrite prefix_single, Hd.
  rewrite IH by done. by rewrite string_app_assoc.
Qed.

Lemma includes_sep (c : ascii) (a rest : string) :
  includes (a ++ String c rest) (String c EmptyString) = true.
Proof.
  induction a as [|d a IH].
  - change (EmptyString ++ String c rest)%string with (String c rest).
    cbn [includes]. by rewrite prefix_single, Ascii.eqb_refl.
  - rewrite string_app_cons. cbn [includes]. rewrite IH. apply orb_true_r.
Qed.

(** One rendered parameter is read back as its key and its value. *)
Lemma split_param (k v : string) :
  has_char "="%char k = false → has_char "="%char v = false →
  includes (k ++ String "="%char v) "=" = true ∧
  split_limit (k ++ String "="%char v) "=" 2 = [k; v].
Proof.
  intros Hk Hv. split; [apply includes_sep|].
  unfold split_limit, split. rewrite split_from_sep by done.
  by rewrite split_from_plain by done.
Qed.

Lemma split_rendered (head : string) (kvs : list (string * string)) :
  has_char ","%char head = false →
  Forall (λ kv, plain_text kv.1 ∧ plain_text kv.2) kvs →
  split (render_params head kvs) ","
  = head :: ((λ kv, kv.1 ++ String "="%char kv.2)%string <$> kvs).
Proof.
  intros Hhead Hall. revert head Hhead. unfold split, render_params.
  induction Hall as [|[k v] kvs [(Hk & _) (Hv & _)] _ IH]; intros head Hhead.
  - cbn [foldr]. rewrite append_empty. by rewrite split_from_plain.
  - cbn [foldr fmap list_fmap fst snd] in *. unfold render_param at 1. cbn [fst snd].
    rewrite string_app_cons, split_from_sep by done.
    f_equal. apply IH.
    rewrite has_char_app. cbn [has_char]. by rewrite Hk, Hv.
Qed.

Lemma parseParamLine_fold (parts : list (string * string)) (params : gmap string string) :
  Forall (λ kv, plain_text kv.1 ∧ plain_text kv.2) parts →
  foldl (λ (params : gmap string string) part,
           if negb (includes part "=") then params
           else
             match split_limit part "=" 2 with
             | k :: v :: _ => obj_set (trim k) (unquote (trim v)) params
             | _ => params
             end)
        params ((λ kv, kv.1 ++ String "="%char kv.2)%string <$> parts)
  = foldl (λ params kv, obj_set kv.1 kv.2 params) params parts.
Proof.
  intros Hall. revert params.
  induction Hall as [|[k v] parts [Hk Hv] _ IH]; intros params; [done|].
  cbn [fmap list_fmap foldl fst snd] in *.
  destruct Hk as (_ & Hk & Hktrim & _). destruct Hv as (_ & Hv & Hvtrim & Hvquote).
  destruct (split_param k v Hk Hv) as [-> ->]. cbn [negb].
  rewrite Hktrim, Hvtrim, Hvquote. apply IH.
Qed.

Lemma obj_set_fold_insert (kvs : list (string * string)) (params : gmap string string) :
  Forall (λ kv, kv.1 ≠ "__proto__") kvs →
  foldl (λ params kv, obj_set kv.1 kv.2 params) params kvs
  = foldl (λ params kv, <[kv.1 := kv.2]> params) params kvs.
Proof.
  intros Hall. revert params.
  induction Hall as [|[k v] kvs Hk _ IH]; intros params; [done|].
  cbn [foldl fst snd] in *. rewrite <- IH. f_equal. unfold obj_set.
  destruct (String.eqb k "__proto__") eqn:E; [|done].
  by apply String.eqb_eq in E.
Qed.

(** X21: [parseParamLine] reads back what a line lists.  For a line made of
    a head without comma followed by parameters [,key=value] whose keys and
    values are plain (no comma, no equals sign, no white space and no
    double quote at either end), the result is the object on which every
    key was assigned its value, in order: it maps every key to its value,
    the last one when a key occurs twice, except that the key [__proto__] is
    not stored; the head is ignored.  In particular the line
    [PARAM,NAME=n,VALUE=v] of a macro yields the pair [(n, v)] when [n] is
    not empty. *)
Theorem param_line_reads_back (head : string) (kvs : list (string * string)) :
  has_char ","%char head = false →
  Forall (λ kv, plain_text kv.1 ∧ plain_text kv.2) kvs →
  parseParamLine (render_params head kvs)
  = foldl (λ params kv, obj_set kv.1 kv.2 params) ∅ kvs ∧
  (Forall (λ kv, kv.1 ≠ "__proto__") kvs →
   parseParamLine (render_params head kvs)
   = foldl (λ params kv, <[kv.1 := kv.2]> params) ∅ kvs) ∧
  (∀ v, kvs = [("__proto__", v)] → parseParamLine (render_params head kvs) = ∅) ∧
  (∀ n v, kvs = [("NAME", n); ("VALUE", v)] → n ≠ EmptyString →
          named_value (parseParamLine (render_params head kvs)) = Some (n, v)).
Proof.
  intros Hhead Hall.
  assert (Hparse : parseParamLine (render_params head kvs)
                   = foldl (λ params kv, obj_set kv.1 kv.2 params) ∅ kvs).
  { unfold parseParamLine. rewrite split_rendered by done. cbn [drop].
    by apply parseParamLine_fold. }
  split; [exact Hparse|]. split; [|split].
  - intros Hkeys. rewrite Hparse. by apply obj_set_fold_insert.
  - intros v ->. rewrite Hparse. reflexivity.
  - intros n v -> Hn. rewrite Hparse. cbn [foldl fst snd]. unfold named_value.
    change (obj_set "NAME" n ∅) with (<["NAME" := n]> (∅ : gmap string string)).
    change (obj_set "VALUE" v (<["NAME" := n]> ∅))
      with (<["VALUE" := v]> (<["NAME" := n]> (∅ : gmap string string))).
    rewrite lookup_insert_ne by discriminate. rewrite !lookup_insert_eq.
    destruct (String.eqb n EmptyString) eqn:E; [|done].
    by apply String.eqb_eq in E.
Qed.

Lemma param_line_reads_back_witness :
  parseParamLine "PARAM,NAME=DIA,VALUE=6" = <["VALUE" := "6"]> (<["NAME" := "DIA"]> ∅) ∧
  parseParamLine "PARAM,__proto__=5" = ∅ ∧
  named_value (parseParamLine "PARAM,NAME=DIA,VALUE=6") = Some ("DIA", "6").
Proof.
  destruct (param_line_reads_back "PARAM" [("NAME", "DIA"); ("VALUE", "6")])
    as (_ & Hparse & _ & Hnamed); [reflexivity | by repeat constructor |].
  destruct (param_line_reads_back "PARAM" [("__proto__", "5")])
    as (_ & _ & Hproto & _); [reflexivity | by repeat constructor |].
  split; [|split].
  - apply Hparse. by repeat constructor.
  - by apply (Hproto "5").
  - by apply (Hnamed "DIA" "6").
Defined.

(** ** Routing paths and drill holes of the parser *)

Section RoutingFacts.
Context `{JsRuntime}.

(** A step changes the list of finished paths only at an ENDPATH line, and
    then only by appending a path that has points. *)
Lemma routing_step_routing sheetHeight st raw rest :
  let st' := (routing_step sheetHeight st raw rest).1 in
  routing st' = routing st ∨
  (includes (trim raw) "NAME=ENDPATH" = true ∧
   ∃ path, routing st' = routing st ++ [path] ∧ points path ≠ []).
Proof.
  cbv zeta. unfold routing_step.
  destruct (startsWith (trim raw) "BEGIN MACRO").
  { destruct (_ && _); [|by left]. destruct (rout_header rest new_path). by left. }
  destruct (inRout st && includes (trim raw) "NAME=START_POINT").
  { destruct (scan_block _ rest ∅). by left. }
  destruct (inRout st && includes (trim raw) "NAME=LINE_EP").
  { destruct (scan_block _ rest ∅). by left. }
  destruct (inRout st && (_ || _)).
  { destruct (scan_block _ rest ∅). by left. }
  destruct (inRout st && includes (trim raw) "NAME=ARC_EPCE").
  { destruct (scan_block _ rest ∅). by left. }
  destruct (inRout st && includes (trim raw) "NAME=ENDPATH") eqn:Hend; [|by left].
  apply andb_true_iff in Hend as [_ Hend].
  destruct (scan_block _ rest ∅) as [vals n]. cbn [fst routing].
  destruct (current st) as [cur|]; [|by left].
  destruct (is_empty (points cur)) eqn:E; cbn [negb]; [by left|].
  right. split; [done|]. eexists. split; [done|].
  cbn [set_id points]. by apply is_empty_false.
Qed.

Lemma parseRoutingPaths_loop_points sheetHeight skip st lines :
  Forall (λ path, points path ≠ []) (routing st) →
  Forall (λ path, points path ≠ []) (parseRoutingPaths_loop sheetHeight skip st lines).
Proof.
  revert skip st. induction lines as [|raw rest IH]; intros skip st Hst; [done|].
  cbn [parseRoutingPaths_loop]. destruct skip as [|k]; [|by apply IH].
  pose proof (routing_step_routing sheetHeight st raw rest) as Hstep. cbv zeta in Hstep.
  destruct (routing_step sheetHeight st raw rest) as [st' n]. cbn [fst] in Hstep.
  apply IH. destruct Hstep as [-> | (_ & path & -> & Hpath)]; [done|].
  apply Forall_app. split; [done|]. by repeat constructor.
Qed.

Lemma parseRoutingPaths_loop_unfinished sheetHeight skip st lines :
  Forall (λ raw, includes (trim raw) "NAME=ENDPATH" = false) lines →
  parseRoutingPaths_loop sheetHeight skip st lines = routing st.
Proof.
  intros Hall. revert skip st.
  induction Hall as [|raw rest Hraw _ IH]; intros skip st; [done|].
  cbn [parseRoutingPaths_loop]. destruct skip as [|k]; [|by apply IH].
  pose proof (routing_step_routing sheetHeight st raw rest) as Hstep. cbv zeta in Hstep.
  destruct (routing_step sheetHeight st raw rest) as [st' n]. cbn [fst] in Hstep.
  rewrite IH. destruct Hstep as [-> | (Hend & _)]; [done|]. by rewrite Hraw in Hend.
Qed.

End RoutingFacts.

(** X22: only finished paths with points are returned.  Every routing path
    that [parseRoutingPaths] returns has at least one point, and a text in
    which no line holds [NAME=ENDPATH] yields no routing path: a path that
    is opened but not ended is dropped. *)
Theorem routing_paths_are_finished (rt : JsRuntime) (lines : list string)
    (sheetHeight : number) :
  Forall (λ path, points path ≠ []) (parseRoutingPaths lines sheetHeight) ∧
  (Forall (λ raw, includes (trim raw) "NAME=ENDPATH" = false) lines →
   parseRoutingPaths lines sheetHeight = []).
Proof.
  split.
  - by apply parseRoutingPaths_loop_points.
  - intros Hall. unfold parseRoutingPaths.
    by rewrite parseRoutingPaths_loop_unfinished.
Qed.

Lemma routing_paths_are_finished_witness :
  @parseRoutingPaths Sample.runtime
    [ "BEGIN MACRO"; "NAME=ROUT"; "END MACRO";
      "BEGIN MACRO"; "NAME=START_POINT"; "PARAM,NAME=X,VALUE=1"; "END MACRO" ]
    (num_of_Z 500) = [].
Proof.
  apply (routing_paths_are_finished Sample.runtime). by repeat constructor.
Defined.

Section DrillingFacts.
Context `{JsRuntime}.

Lemma parseDrillingFromMacros_one currentSheetHeight macro :
  parseDrillingFromMacros currentSheetHeight [macro]
  = if bool_decide (macro !! "_MACRO_TYPE" = Some "BV")
    then push_records [] (holes_of_macro currentSheetHeight macro) else [].
Proof. reflexivity. Qed.

End DrillingFacts.

(** X23: the repeat count of a BV macro at its edges.  A macro whose type
    is not BV contributes no drill hole.  A BV macro whose repeat count
    does not parse to an integer contributes no drill hole either.  A BV
    macro whose repeat count parses to an integer below 1 (zero or
    negative) contributes exactly one hole, the one of the first
    repetition. *)
Theorem bv_repeat_edge_cases (rt : JsRuntime) (currentSheetHeight : number)
    (macro : gmap string string) :
  (macro !! "_MACRO_TYPE" ≠ Some "BV" →
   parseDrillingFromMacros currentSheetHeight [macro] = []) ∧
  (macro !! "_MACRO_TYPE" = Some "BV" →
   Number_parseInt10 (default "1" (macro !! "NRP")) = None →
   parseDrillingFromMacros currentSheetHeight [macro] = []) ∧
  (∀ N, macro !! "_MACRO_TYPE" = Some "BV" →
        Number_parseInt10 (default "1" (macro !! "NRP")) = Some N → (N < 1)%Z →
        parseDrillingFromMacros currentSheetHeight [macro]
        = [ {| hole_x := (parseFloat (macro !! "X")
                          + parseFloat (Some (default "0" (macro !! "DX"))) * 0)%js;
               hole_y := flipY (parseFloat (macro !! "Y")
                                + parseFloat (Some (default "0" (macro !! "DY"))) * 0)%js
                               currentSheetHeight;
               hole_diameter := parseFloat (Some (default "5" (macro !! "DIA")));
               hole_depth := parseFloat (Some (default "0" (macro !! "DP")));
               hole_id := macro !! "ID" |} ]).
Proof.
  rewrite parseDrillingFromMacros_one. split; [|split].
  - intros Htype. by rewrite bool_decide_eq_false_2.
  - intros Htype Hcount. rewrite bool_decide_eq_true_2 by done.
    unfold holes_of_macro. by rewrite Hcount.
  - intros N Htype Hcount HN. rewrite bool_decide_eq_true_2 by done.
    unfold holes_of_macro. rewrite Hcount. cbn [fmap option_fmap option_map].
    rewrite Z.max_l by lia. reflexivity.
Qed.

Lemma bv_repeat_edge_cases_witness :
  @parseDrillingFromMacros Sample.runtime (num_of_Z 500)
    [ <["NRP" := "many"]> Sample.bv_macro ] = [] ∧
  length (@parseDrillingFromMacros Sample.runtime (num_of_Z 500)
            [ <["NRP" := "0"]> Sample.bv_macro ]) = 1%nat.
Proof.
  split.
  - by apply (bv_repeat_edge_cases Sample.runtime (num_of_Z 500)
                (<["NRP" := "many"]> Sample.bv_macro)).
  - erewrite (proj2 (proj2 (bv_repeat_edge_cases Sample.runtime (num_of_Z 500)
                              (<["NRP" := "0"]> Sample.bv_macro))) 0%Z);
      [reflexivity | reflexivity | reflexivity | lia].
Defined.

(** ** The Y-flip as a mirror *)

Lemma flipY_finite (y h : Qc) :
  (0 < h)%Qc → flipY (Fin y) (Fin h) = Fin (h - y)%Qc.
Proof.
  intros Hh. unfold flipY. simpl.
  replace (Qc_is_zero h) with false by (symmetry; qc_solve).
  replace (Qc_leb h (Qc_of_Z 0)) with false by (symmetry; qc_solve).
  reflexivity.
Qed.

(** X24: the Y-flip mirrors the sheet onto itself.  For a finite positive
    sheet height [h] the flip sends a finite [y] to [h - y]: it maps the
    range from 0 to [h] onto itself, exchanges the two edges, reverses the
    order of two values and keeps their distance. *)
Theorem flipY_mirrors_the_sheet (h y1 y2 : Qc) :
  (0 < h)%Qc →
  flipY (Fin y1) (Fin h) = Fin (h - y1)%Qc ∧
  flipY 0%js (Fin h) = Fin h ∧ flipY (Fin h) (Fin h) = 0%js ∧
  ((0 ≤ y1)%Qc ∧ (y1 ≤ h)%Qc →
   (0 <=? flipY (Fin y1) (Fin h))%js = true ∧ (flipY (Fin y1) (Fin h) <=? Fin h)%js = true) ∧
  ((y1 ≤ y2)%Qc → (flipY (Fin y2) (Fin h) <=? flipY (Fin y1) (Fin h))%js = true) ∧
  Math_abs (flipY (Fin y1) (Fin h) - flipY (Fin y2) (Fin h))%js = Math_abs (Fin y1 - Fin y2)%js.
Proof.
  intros Hh. change 0%js with (Fin (Qc_of_Z 0)). rewrite !flipY_finite by done.
  split; [done|]. split; [apply Fin_eq; qc_to_q; lra|].
  split; [apply Fin_eq; qc_to_q; lra|].
  split; [|split].
  - intros [H0 H1]. simpl. split; qc_solve.
  - intros Hle. simpl. qc_solve.
  - unfold num_sub. cbn [num_opp num_add Math_abs]. apply Fin_eq.
    destruct (Qc_ltb (h - y1 + - (h - y2)) _) eqn:E1, (Qc_ltb (y1 + - y2) _) eqn:E2;
      qc_bool; qc_to_q; lra.
Qed.

Lemma flipY_mirrors_the_sheet_witness :
  flipY (num_of_Z 100) (num_of_Z 500) = num_of_Z 400 ∧
  (0 <=? flipY (num_of_Z 100) (num_of_Z 500))%js = true.
Proof.
  destruct (flipY_mirrors_the_sheet (Qc_of_Z 500) (Qc_of_Z 100) (Qc_of_Z 100))
    as (Hflip & _ & _ & Hrange & _); [reflexivity|].
  split.
  - unfold num_of_Z. rewrite Hflip. by apply Fin_eq.
  - apply Hrange. split; discriminate.
Defined.

(** ** The viewer: shapes and tool paths *)

Section ViewerFacts.
Context `{JsRuntime} `{ViewerRuntime}.

Lemma toArcPoints_tail_length start finish center :
  length (drop 1 (toArcPoints start finish center)) = 1%nat ∨
  length (drop 1 (toArcPoints start finish center)) = ARC_SEGMENTS.
Proof.
  unfold toArcPoints. cbv zeta. destruct (_ <? eps3)%js; [by left|].
  right. by rewrite length_drop, length_map, length_seq.
Qed.

Lemma toolpath_step_length st p :
  let st' := toolpath_step st p in
  (length st.1 + 1 ≤ length st'.1)%nat ∧
  (length st'.1 ≤ length st.1 + ARC_SEGMENTS)%nat ∧
  (∃ added, st'.1 = st.1 ++ added) ∧
  (straight p = true ∨ st.2 = None → st'.1 = st.1 ++ [lifted p]).
Proof.
  destruct st as [pts last]. cbv zeta. unfold toolpath_step, straight. cbn [fst snd].
  destruct (rp_type p), (rp_center p) as [c|], last as [l|];
    cbn [fst]; rewrite ?length_app; cbn [length];
    try (split; [lia|]; split; [unfold ARC_SEGMENTS; lia|]; split; [eauto|]; by intros).
  destruct (toArcPoints_tail_length l (lifted p)
              {| v3x := px c; v3y := py c; v3z := v3z l |}) as [Hlen | Hlen];
    rewrite Hlen; (split; [unfold ARC_SEGMENTS; lia|]); (split; [unfold ARC_SEGMENTS; lia|]);
    (split; [eauto|]); by intros [? | ?].
Qed.

Lemma toolpath_fold_length l st :
  let st' := foldl toolpath_step st l in
  (length st.1 + length l ≤ length st'.1)%nat ∧
  (length st'.1 ≤ length st.1 + ARC_SEGMENTS * length l)%nat ∧
  (∃ added, st'.1 = st.1 ++ added) ∧
  (Forall (λ p, straight p = true) l → st'.1 = st.1 ++ (lifted <$> l)).
Proof.
  revert st. induction l as [|p l IH]; intros st; cbv zeta.
  { cbn [foldl length]. split; [lia|]. split; [lia|].
    split; [exists []; by rewrite app_nil_r|]. intros _. by rewrite app_nil_r. }
  cbn [foldl length].
  destruct (toolpath_step_length st p) as (Hlo & Hhi & [added Hadd] & Hstraight).
  destruct (IH (toolpath_step st p)) as (Hlo' & Hhi' & [added' Hadd'] & Hstraight').
  cbv zeta in *. split; [lia|]. split; [lia|]. split.
  - exists (added ++ added'). by rewrite Hadd', Hadd, <- app_assoc.
  - intros Hall. apply Forall_cons in Hall as [Hp Hl].
    rewrite Hstraight' by done. rewrite Hstraight by by left.
    by rewrite fmap_cons, <- app_assoc.
Qed.

End ViewerFacts.

(** X26: the display keeps every point of a tool path.  [toolpathPoints]
    returns at least one display point for each point of the routing path
    and at most 28 for each, so that a path of two or more points is always
    long enough to be drawn; the first point of a path is always shown as
    itself, lifted by 1.2; and a path without arcs around a centre is shown
    point for point, each lifted by 1.2. *)
Theorem toolpath_keeps_every_point (rt : JsRuntime) (vr : ViewerRuntime)
    (path : RoutingPath) :
  (length (points path) ≤ length (toolpathPoints path))%nat ∧
  (length (toolpathPoints path) ≤ 28 * length (points path))%nat ∧
  head (toolpathPoints path) = lifted <$> head (points path) ∧
  (Forall (λ p, straight p = true) (points path) →
   toolpathPoints path = lifted <$> points path).
Proof.
  unfold toolpathPoints.
  destruct (toolpath_fold_length (points path) ([], None)) as (Hlo & Hhi & _ & Hstraight).
  cbv zeta in *. cbn [fst length] in *.
  split; [lia|]. split; [exact Hhi|]. split; [|exact Hstraight].
  destruct (points path) as [|p l]; [done|]. cbn [foldl head fmap option_fmap option_map].
  destruct (toolpath_step_length ([], None) p) as (_ & _ & _ & Hfirst).
  destruct (toolpath_fold_length l (toolpath_step ([], None) p)) as (_ & _ & [added Hadd] & _).
  cbv zeta in *. rewrite Hadd, Hfirst by by right. done.
Qed.

Lemma toolpath_keeps_every_point_witness :
  @toolpathPoints Sample.runtime SampleViewer.viewer Sample.split_cut
  = lifted <$> points Sample.split_cut.
Proof.
  apply (toolpath_keeps_every_point Sample.runtime SampleViewer.viewer Sample.split_cut).
  by repeat constructor.
Defined.

(** ** The viewer: scaling about the centroid *)

Lemma count_of_cons q qs : count_of (q :: qs) = (count_of qs + 1)%Qc.
Proof.
  unfold count_of. cbn [length]. rewrite Nat2Z.inj_succ.
  apply Qc_is_canon. unfold Qcplus, Qc_of_Z, Q2Qc. cbn [this].
  rewrite !Qred_correct. unfold Z.succ. rewrite inject_Z_plus. reflexivity.
Qed.

Lemma count_of_pos qs : qs ≠ [] → count_of qs ≠ Q2Qc 0.
Proof.
  intros Hne Hz. destruct qs as [|q qs]; [done|].
  unfold count_of in Hz. apply Qc_eq_iff in Hz.
  unfold Qc_of_Z, Q2Qc in Hz. cbn [this] in Hz. rewrite !Qred_correct in Hz.
  cbn [length] in Hz. rewrite Nat2Z.inj_succ in Hz.
  unfold Qeq, inject_Z in Hz. cbn [Qnum Qden] in Hz. lia.
Qed.

Lemma sum_of_acc g a qs :
  foldl (λ s q, s + g q)%Qc a qs = (a + sum_of g qs)%Qc.
Proof.
  unfold sum_of. revert a. induction qs as [|q qs IH]; intros a; cbn [foldl].
  - ring.
  - rewrite IH, (IH (_ + g q)%Qc). ring.
Qed.

Lemma sum_of_cons g q qs : sum_of g (q :: qs) = (g q + sum_of g qs)%Qc.
Proof.
  unfold sum_of. cbn [foldl]. rewrite (sum_of_acc g (_ + _)%Qc). unfold sum_of. ring.
Qed.

Lemma sum_of_scaled_fst cx cy f qs :
  sum_of fst (scaled_about cx cy f qs)
  = (count_of qs * cx + f * (sum_of fst qs - count_of qs * cx))%Qc.
Proof.
  induction qs as [|q qs IH].
  - unfold sum_of, count_of. cbn [scaled_about map foldl length].
    replace (Qc_of_Z (Z.of_nat 0)) with (Q2Qc 0) by by apply Qc_is_canon. ring.
  - cbn [scaled_about map]. rewrite !sum_of_cons, count_of_cons.
    unfold scaled_about in IH. rewrite IH. cbn [fst]. ring.
Qed.

Lemma sum_of_scaled_snd cx cy f qs :
  sum_of snd (scaled_about cx cy f qs)
  = (count_of qs * cy + f * (sum_of snd qs - count_of qs * cy))%Qc.
Proof.
  induction qs as [|q qs IH].
  - unfold sum_of, count_of. cbn [scaled_about map foldl length].
    replace (Qc_of_Z (Z.of_nat 0)) with (Q2Qc 0) by by apply Qc_is_canon. ring.
  - cbn [scaled_about map]. rewrite !sum_of_cons, count_of_cons.
    unfold scaled_about in IH. rewrite IH. cbn [snd]. ring.
Qed.

Lemma count_of_scaled cx cy f qs : count_of (scaled_about cx cy f qs) = count_of qs.
Proof. unfold count_of, scaled_about. by rewrite length_map. Qed.

Lemma mean_of_points (g : Qc * Qc → Qc) (f : Vec2 → number) qs :
  (∀ q, f (point_of q) = Fin (g q)) →
  qs ≠ [] →
  mean_of f (point_of <$> qs) = Fin (sum_of g qs / count_of qs).
Proof.
  intros Hf Hne. unfold mean_of.
  assert (Hsum : ∀ a, foldl (λ sum p, sum + f p)%js (Fin a) (point_of <$> qs)
                      = Fin (foldl (λ s q, s + g q)%Qc a qs)).
  { clear Hne. induction qs as [|q qs IH]; intros a; [done|].
    cbn [fmap list_fmap foldl]. rewrite Hf. cbn [num_add]. apply IH. }
  change 0%js with (Fin (Qc_of_Z 0)).
  replace (Qc_of_Z 0) with (Q2Qc 0) by by apply Qc_is_canon.
  rewrite Hsum, length_fmap.
  unfold num_of_nat, num_of_Z. cbn [num_div].
  change (Qc_of_Z (Z.of_nat (length qs))) with (count_of qs).
  replace (Qc_is_zero (count_of qs)) with false.
  2:{ symmetry. apply bool_decide_eq_false. by apply count_of_pos. }
  done.
Qed.

(** The centroid of the points, as [scalePolygon] computes it. *)
Lemma scalePolygon_points qs f :
  scalePolygon (point_of <$> qs) (Fin f)
  = point_of <$> scaled_about (sum_of fst qs / count_of qs)
                              (sum_of snd qs / count_of qs) f qs.
Proof.
  unfold scalePolygon.
  destruct (decide (Fin f = 1%js)) as [Hone | Hone].
  { rewrite bool_decide_eq_true_2 by done. cbn [orb].
    injection Hone as ->. f_equal. unfold scaled_about.
    rewrite <- (map_id qs) at 1. apply map_ext. intros [x y]. cbn [fst snd].
    f_equal; apply Qc_is_canon; qc_to_q; lra. }
  rewrite bool_decide_eq_false_2 by done. cbn [orb].
  destruct qs as [|q qs]; [done|].
  replace (is_empty (point_of <$> q :: qs)) with false by done.
  cbv zeta.
  rewrite (mean_of_points fst px), (mean_of_points snd py) by done.
  generalize (sum_of fst (q :: qs) / count_of (q :: qs))%Qc as cx.
  generalize (sum_of snd (q :: qs) / count_of (q :: qs))%Qc as cy.
  intros cy cx. unfold scaled_about.
  induction (q :: qs) as [|[x y] l IH]; [done|].
  cbn [map fmap list_fmap]. f_equal. exact IH.
Qed.

Lemma centroid_scaled (g : Qc * Qc → Qc) (c f : Qc) (qs qs' : list (Qc * Qc)) :
  qs ≠ [] →
  c = (sum_of g qs / count_of qs)%Qc →
  count_of qs' = count_of qs →
  sum_of g qs' = (count_of qs * c + f * (sum_of g qs - count_of qs * c))%Qc →
  (sum_of g qs' / count_of qs')%Qc = c.
Proof.
  intros Hne Hc Hcount Hsum. rewrite Hsum, Hcount.
  pose proof (count_of_pos qs Hne) as Hpos.
  assert (Hmul : (count_of qs * c)%Qc = sum_of g qs) by (rewrite Hc; by field).
  rewrite Hmul. rewrite Hc. by field.
Qed.

Lemma scaled_about_nonempty cx cy f qs : qs ≠ [] → scaled_about cx cy f qs ≠ [].
Proof. by destruct qs. Qed.

Lemma scaled_about_twice cx cy f g qs :
  scaled_about cx cy g (scaled_about cx cy f qs) = scaled_about cx cy (f * g) qs.
Proof.
  unfold scaled_about. rewrite map_map. apply map_ext. intros [x y]. cbn [fst snd].
  f_equal; ring.
Qed.

Lemma scalePolygon_length poly factor :
  length (scalePolygon poly factor) = length poly.
Proof.
  unfold scalePolygon. destruct (_ || _); [done|]. cbv zeta. by rewrite length_map.
Qed.

(** X27: scaling a polygon in the viewer is a scaling about its centroid.
    [scalePolygon] keeps the number of points; for a polygon with at least
    one point and finite coordinates the scaled polygon has the same centroid
    (the mean of the x and of the y coordinates), in exact arithmetic; hence
    scaling by [f] and then by [g] is scaling by [f * g], and scaling by [f]
    and then by [1 / f] gives the polygon back. *)
Theorem scalePolygon_keeps_centroid (qs : list (Qc * Qc)) (f g : Qc) :
  length (scalePolygon (point_of <$> qs) (Fin f)) = length qs ∧
  (qs ≠ [] →
   mean_of px (scalePolygon (point_of <$> qs) (Fin f)) = mean_of px (point_of <$> qs) ∧
   mean_of py (scalePolygon (point_of <$> qs) (Fin f)) = mean_of py (point_of <$> qs)) ∧
  scalePolygon (scalePolygon (point_of <$> qs) (Fin f)) (Fin g)
  = scalePolygon (point_of <$> qs) (Fin (f * g)) ∧
  (f ≠ Q2Qc 0 →
   scalePolygon (scalePolygon (point_of <$> qs) (Fin f)) (Fin (1 / f)) = point_of <$> qs).
Proof.
  assert (Hcx : qs ≠ [] →
     (sum_of fst (scaled_about (sum_of fst qs / count_of qs) (sum_of snd qs / count_of qs) f qs)
      / count_of (scaled_about (sum_of fst qs / count_of qs) (sum_of snd qs / count_of qs) f qs))%Qc
     = (sum_of fst qs / count_of qs)%Qc).
  { intros Hne. apply (centroid_scaled fst _ f qs); [done|done|apply count_of_scaled|].
    apply sum_of_scaled_fst. }
  assert (Hcy : qs ≠ [] →
     (sum_of snd (scaled_about (sum_of fst qs / count_of qs) (sum_of snd qs / count_of qs) f qs)
      / count_of (scaled_about (sum_of fst qs / count_of qs) (sum_of snd qs / count_of qs) f qs))%Qc
     = (sum_of snd qs / count_of qs)%Qc).
  { intros Hne. apply (centroid_scaled snd _ f qs); [done|done|apply count_of_scaled|].
    apply sum_of_scaled_snd. }
  assert (Htwice : ∀ g', scalePolygon (scalePolygon (point_of <$> qs) (Fin f)) (Fin g')
                         = scalePolygon (point_of <$> qs) (Fin (f * g'))).
  { intros g'. destruct (decide (qs = [])) as [-> | Hne].
    { unfold scalePolygon. cbn [fmap list_fmap is_empty]. by rewrite !orb_true_r. }
    rewrite (scalePolygon_points qs f), scalePolygon_points, Hcx, Hcy by done.
    rewrite scaled_about_twice. by rewrite <- scalePolygon_points. }
  split; [by rewrite scalePolygon_length, length_fmap|].
  split.
  { intros Hne. rewrite scalePolygon_points.
    rewrite !(mean_of_points fst px), !(mean_of_points snd py)
      by (done || by apply scaled_about_nonempty).
    by rewrite Hcx, Hcy. }
  split; [apply Htwice|].
  intros Hf. rewrite Htwice.
  assert (Hone : (f * (1 / f))%Qc = Qc_of_Z 1).
  { transitivity (Q2Qc 1); [by field | by apply Qc_is_canon]. }
  rewrite Hone.
  unfold scalePolygon. by rewrite bool_decide_eq_true_2.
Qed.

Lemma scalePolygon_keeps_centroid_witness :
  mean_of px (scalePolygon
                (point_of <$> [(Qc_of_Z 0, Qc_of_Z 0); (Qc_of_Z 6, Qc_of_Z 0); (Qc_of_Z 0, Qc_of_Z 3)])
                (Fin (Q2Qc (1 # 2))))
  = mean_of px (point_of <$> [(Qc_of_Z 0, Qc_of_Z 0); (Qc_of_Z 6, Qc_of_Z 0); (Qc_of_Z 0, Qc_of_Z 3)]).
Proof.
  destruct (scalePolygon_keeps_centroid
              [(Qc_of_Z 0, Qc_of_Z 0); (Qc_of_Z 6, Qc_of_Z 0); (Qc_of_Z 0, Qc_of_Z 3)]
              (Q2Qc (1 # 2)) (Q2Qc 1)) as (_ & Hmean & _).
  by destruct Hmean as [Hx _].
Defined.

(** ** The viewer: shapes *)

Lemma ensureCounterClockwise_length (vr : ViewerRuntime) poly :
  length (ensureCounterClockwise poly) = length poly.
Proof.
  unfold ensureCounterClockwise.
  destruct (ShapeUtils_isClockWise poly); by rewrite ?length_reverse.
Qed.

Lemma ensureClockwise_length (vr : ViewerRuntime) poly :
  length (ensureClockwise poly) = length poly.
Proof.
  unfold ensureClockwise.
  destruct (ShapeUtils_isClockWise poly); by rewrite ?length_reverse.
Qed.

Lemma length_filter_fmap {A B} (f : A → B) (P : B → Prop) (Q : A → Prop)
    `{∀ x, Decision (P x)} `{∀ x, Decision (Q x)} (l : list A) :
  (∀ x, P (f x) ↔ Q x) →
  length (filter P (map f l)) = length (filter Q l).
Proof.
  intros HPQ. induction l as [|x l IH]; [done|].
  cbn [map]. rewrite !filter_cons.
  destruct (decide (P (f x))) as [HP | HP], (decide (Q x)) as [HQ | HQ];
    cbn [length]; rewrite ?IH; try done; exfalso; by apply HPQ in HP || apply HPQ in HQ.
Qed.

(** X28: what the viewer draws of a panel.  [polygonToShape] gives no
    shape exactly when the outline has fewer than three points.  Otherwise
    the outline of the shape is the scaled outline or its reverse, with as
    many points as the outline given, and it is not clockwise provided that
    the reverse of a clockwise scaled outline is not clockwise; the holes
    of the shape have at least three points each, and there is one for each
    hole given with at least three points: the others are dropped without a
    notice. *)
Theorem polygonToShape_rings (vr : ViewerRuntime)
    (outer : list Vec2) (holes : list (list Vec2)) (inset : number) :
  (polygonToShape outer holes inset = None ↔ (length outer < 3)%nat) ∧
  ∀ shape, polygonToShape outer holes inset = Some shape →
    length (shape_points shape) = length outer ∧
    (shape_points shape = scalePolygon outer inset ∨
     shape_points shape = reverse (scalePolygon outer inset)) ∧
    ((ShapeUtils_isClockWise (scalePolygon outer inset) = true →
      ShapeUtils_isClockWise (reverse (scalePolygon outer inset)) = false) →
     ShapeUtils_isClockWise (shape_points shape) = false) ∧
    Forall (λ h, (3 ≤ length h)%nat) (shape_holes shape) ∧
    length (shape_holes shape) = length (filter (λ h, has_ring h = true) holes).
Proof.
  unfold polygonToShape. cbv zeta.
  rewrite ensureCounterClockwise_length, scalePolygon_length.
  split.
  { destruct (decide (length outer < 3)%nat) as [Hlt | Hge].
    - by rewrite bool_decide_eq_true_2.
    - rewrite bool_decide_eq_false_2 by done. split; [done | lia]. }
  intros shape Hshape.
  destruct (decide (length outer < 3)%nat) as [Hlt | Hge].
  { by rewrite bool_decide_eq_true_2 in Hshape. }
  rewrite bool_decide_eq_false_2 in Hshape by done. injection Hshape as <-.
  cbn [shape_points shape_holes].
  split; [by rewrite ensureCounterClockwise_length, scalePolygon_length|].
  split.
  { unfold ensureCounterClockwise. destruct (ShapeUtils_isClockWise _); [by right | by left]. }
  split.
  { intros Hflip. unfold ensureCounterClockwise.
    destruct (ShapeUtils_isClockWise (scalePolygon outer inset)) eqn:Hcw; [by apply Hflip | done]. }
  split.
  { apply Forall_forall. intros h Hin. apply list_elem_of_filter in Hin as [Hring _].
    unfold has_ring in Hring. by apply bool_decide_eq_true in Hring. }
  apply length_filter_fmap. intros h. unfold has_ring.
  by rewrite ensureClockwise_length, scalePolygon_length.
Qed.

Lemma polygonToShape_rings_witness :
  is_Some (@polygonToShape SampleViewer.viewer
             [Sample.pt 0 0; Sample.pt 0 3; Sample.pt 4 0]
             [[Sample.pt 1 1; Sample.pt 2 1]; [Sample.pt 1 1; Sample.pt 2 1; Sample.pt 1 2]]
             (num_of_Q (98 # 100))).
Proof.
  destruct (polygonToShape _ _ _) as [shape|] eqn:Hshape; [by exists shape|].
  apply (polygonToShape_rings SampleViewer.viewer) in Hshape. simpl in Hshape. lia.
Defined.

(** ** The viewer: drill holes *)

Lemma circlePolygon_cases (rt : JsRuntime) center radius segments :
  (circlePolygon center radius segments = [] ∧
   (Number_isFinite (px center) = false ∨ Number_isFinite (py center) = false ∨
    (radius <=? 0)%js = true)) ∨
  (length (circlePolygon center radius segments) = Nat.max 8 segments ∧
   Number_isFinite (px center) = true ∧ Number_isFinite (py center) = true ∧
   (radius <=? 0)%js = false).
Proof.
  unfold circlePolygon.
  destruct (Number_isFinite (px center)); [|left; split; [done | by left]].
  destruct (Number_isFinite (py center)); [|left; split; [done | right; by left]].
  destruct (radius <=? 0)%js; [left; split; [done | right; by right]|].
  right. cbn [negb orb]. cbv zeta. by rewrite length_map, length_seq.
Qed.

(** X29: a drill hole is drawn whenever its ring exists.  The ring
    [circlePolygon] of the viewer is the ring [circlePath] of the recovery.
    It is empty exactly when a coordinate of the centre is not finite or the
    radius is at most zero, and has [max(8, segments)] points otherwise, so
    also for a radius that is not a number.  [polygonToShape] of the ring is
    [null] exactly when the ring is empty; otherwise the shape has the points
    of the ring, in their order or reversed, and no hole. *)
Theorem drill_ring_is_drawn (rt : JsRuntime) (vr : ViewerRuntime)
    (center : Vec2) (radius : number) (segments : nat) :
  circlePolygon center radius segments = circlePath center radius segments ∧
  (circlePolygon center radius segments = [] ↔
   Number_isFinite (px center) = false ∨ Number_isFinite (py center) = false ∨
   (radius <=? 0)%js = true) ∧
  (polygonToShape (circlePolygon center radius segments) [] 1 = None ↔
   circlePolygon center radius segments = []) ∧
  (circlePolygon center radius segments ≠ [] →
   length (circlePolygon center radius segments) = Nat.max 8 segments ∧
   ∃ shape, polygonToShape (circlePolygon center radius segments) [] 1 = Some shape ∧
            (shape_points shape = circlePolygon center radius segments ∨
             shape_points shape = reverse (circlePolygon center radius segments)) ∧
            shape_holes shape = []).
Proof.
  split; [done|].
  assert (Hshape : polygonToShape (circlePolygon center radius segments) [] 1
                   = if bool_decide (length (circlePolygon center radius segments) < 3)%nat
                     then None
                     else Some {| shape_points :=
                                    ensureCounterClockwise (circlePolygon center radius segments);
                                  shape_holes := [] |}).
  { unfold polygonToShape. cbv zeta.
    replace (scalePolygon (circlePolygon center radius segments) 1)
      with (circlePolygon center radius segments)
      by (unfold scalePolygon; by rewrite bool_decide_eq_true_2).
    by rewrite ensureCounterClockwise_length. }
  rewrite Hshape.
  destruct (circlePolygon_cases rt center radius segments)
    as [[Hnil Hwhy] | (Hlen & Hx & Hy & Hr)].
  - rewrite Hnil. cbn [length]. rewrite bool_decide_eq_true_2 by lia.
    split; [done|]. split; [done|]. done.
  - assert (Hne : circlePolygon center radius segments ≠ []).
    { intros Hnil. rewrite Hnil in Hlen. cbn [length] in Hlen. lia. }
    rewrite bool_decide_eq_false_2 by lia.
    split.
    { split; [done|]. intros [Hbad | [Hbad | Hbad]]; congruence. }
    split; [done|].
    intros _. split; [done|]. eexists. split; [done|]. split; [|done].
    cbn [shape_points]. unfold ensureCounterClockwise.
    destruct (ShapeUtils_isClockWise _); [by right | by left].
Qed.

Lemma drill_ring_is_drawn_witness :
  length (@circlePolygon Sample.runtime (Sample.pt 500 250) (num_of_Z 4) DRILL_SEGMENTS)
  = 42%nat.
Proof.
  apply (drill_ring_is_drawn Sample.runtime SampleViewer.viewer
           (Sample.pt 500 250) (num_of_Z 4) DRILL_SEGMENTS).
  intros Hnil.
  apply (f_equal length) in Hnil. vm_compute in Hnil. discriminate.
Defined.
